(** * Covenant executor: the evaluation engine

    A shallow embedding of the package [covenant-poc/executor/engine]
    (engine.go, the fact set and the contract types) and the properties of
    its evaluation algorithm: fact gathering, dependency-ordered
    derivation, rule matching, verdict resolution and the isolation of
    side effects.

    Go maps are [gmap]s; the order in which a [range] statement walks a map
    and the order in which goroutine results arrive on a channel are not
    fixed by the language, so they are explicit inputs (a [Schedule]).
    Calls into a port are recorded in a trace of [PortEvent]s. *)

From Stdlib Require Import Floats ZArith Ascii String.
From stdpp Require Import gmap strings list fin_maps relations pretty.

Set Warnings "-register-all,-clear-no-such-hyp".

Open Scope string_scope.
Open Scope list_scope.
Open Scope Z_scope.

(** ** Go values

    The dynamic types an [any] holds in the engine: what encoding/json
    decodes to (nil, bool, float64, string, []any, map[string]any), the
    further numeric types [toFloat] switches on, and slices.  A float32 is
    kept as the float64 it widens to.  A nested map value is a key/value
    list read with first-match lookup. *)

Inductive any : Type :=
| VNil
| VBool (b : bool)
| VString (s : string)
| VFloat64 (f : float)
| VFloat32 (f : float)
| VInt (n : Z)
| VInt64 (n : Z)
| VInt32 (n : Z)
| VSlice (l : list any)
| VMap (m : list (string * any)).

(** The two functions of Go's strconv the engine reaches through fmt:
    [FormatFloat f bits] is strconv.FormatFloat(f, 'g', -1, bits), the
    text [%v] prints for a float, and [Quote] is strconv.Quote, the text
    [%q] prints for a string. *)
Record GoRuntime : Type := {
  FormatFloat : float → Z → string;
  Quote : string → string;
}.

(** float64(n) for an integer n: rounding to nearest, ties to even. *)
Definition float64_of_Z (n : Z) : float :=
  SF2Prim (binary_normalize prec emax n 0 false).

(** strings.Split(s, sep) for a one-byte separator. *)
Fixpoint Split (sep : ascii) (s : string) : list string :=
  match s with
  | EmptyString => [EmptyString]
  | String c rest =>
      if Ascii.eqb c sep then EmptyString :: Split sep rest
      else match Split sep rest with
           | [] => [String c EmptyString]
           | h :: t => String c h :: t
           end
  end.

(** strings.Join(parts, sep). *)
Definition Join (parts : list string) (sep : string) : string :=
  String.concat sep parts.

(** strings.HasPrefix and strings.TrimPrefix. *)
Definition HasPrefix (s pre : string) : bool := String.prefix pre s.

Definition TrimPrefix (s pre : string) : string :=
  if String.prefix pre s
  then String.substring (String.length pre) (String.length s - String.length pre) s
  else s.

(** Keys of a printed map come out sorted (package fmtsort). *)
Fixpoint insert_sorted (kv : string * string) (l : list (string * string))
  : list (string * string) :=
  match l with
  | [] => [kv]
  | kv' :: l' =>
      if String.leb kv.1 kv'.1 then kv :: l else kv' :: insert_sorted kv l'
  end.

Definition sort_by_key (l : list (string * string)) : list (string * string) :=
  foldr insert_sorted [] l.

(** Go's [error] values as the engine tells them apart: a [*factError], or
    an error made by fmt.Errorf, which is its message. *)
Inductive error : Type :=
| errorString (msg : string)
| factError (fact reason outcome : string).

Inductive result (A : Type) : Type :=
| Ok (a : A)
| Err (e : error).
Arguments Ok {A} a.
Arguments Err {A} e.

(** The type [FactSet]: its map of facts, the lock left out. *)
Abbreviation FactSet := (gmap string any) (only parsing).

Section Engine.

Context (rt : GoRuntime).

(** fmt.Sprintf("%v", v). *)
Fixpoint Sprintf_v (v : any) : string :=
  match v with
  | VNil => "<nil>"
  | VBool true => "true"
  | VBool false => "false"
  | VString s => s
  | VFloat64 f => FormatFloat rt f 64
  | VFloat32 f => FormatFloat rt f 32
  | VInt n | VInt64 n | VInt32 n => pretty n
  | VSlice l => "[" +:+ Join (map Sprintf_v l) " " +:+ "]"
  | VMap m =>
      "map[" +:+
      Join (map (λ kv : string * string, kv.1 +:+ ":" +:+ kv.2)
              (sort_by_key (map (λ '(k, x), (k, Sprintf_v x)) m))) " " +:+
      "]"
  end.

(** ** The fact set *)

Definition NewFactSet : FactSet := ∅.

Definition Set_ (f : FactSet) (name : string) (val : any) : FactSet :=
  <[name := val]> f.

Definition Get (f : FactSet) (name : string) : any * bool :=
  match f !! name with
  | Some v => (v, true)
  | None => (VNil, false)
  end.

(** m[part] on a map[string]any value. *)
Fixpoint map_index (m : list (string * any)) (part : string) : option any :=
  match m with
  | [] => None
  | (k, v) :: m' => if String.eqb k part then Some v else map_index m' part
  end.

Fixpoint navigatePath (v : any) (parts : list string) : any * bool :=
  match parts with
  | [] => (v, true)
  | part :: parts' =>
      match v with
      | VMap m =>
          match map_index m part with
          | Some v' => navigatePath v' parts'
          | None => (VNil, false)
          end
      | _ => (VNil, false)
      end
  end.

(** The loop [for i := len(parts) - 1; i > 0; i--] of [GetPath], entered
    with [i] and counted down. *)
Fixpoint GetPath_loop (f : FactSet) (parts : list string) (i : nat) : any * bool :=
  match i with
  | O => (VNil, false)
  | S i' =>
      match f !! Join (take i parts) "." with
      | Some v => navigatePath v (drop i parts)
      | None => GetPath_loop f parts i'
      end
  end.

Definition GetPath (f : FactSet) (path : string) : any * bool :=
  match f !! path with
  | Some v => (v, true)
  | None =>
      let parts := Split "." path in
      GetPath_loop f parts (length parts - 1)%nat
  end.

Definition Snapshot (f : FactSet) : gmap string any := f.

(** ** Contract, request and response types *)

Record FactDef : Type := {
  Source : string;
  Required : bool;
  OnMissing : string;
}.

Record DerivationArg : Type := {
  argFact : string;
  argOp : string;
  argValue : any;
}.

Record Derivation : Type := {
  Fn : string;
  Args : list DerivationArg;
}.

Record DerivedFactDef : Type := { derivation : Derivation }.

(** A [Condition]; a nil [any] or pointer field is the absent one. *)
Inductive Condition : Type :=
  mkCondition {
    cAll : list Condition;
    cAny : list Condition;
    cNot : option Condition;
    cFact : string;
    cEquals : any;
    cGreaterThan : any;
    cLessThan : any;
    cIn : list any;
  }.

Record ErrorEnvelope : Type := {
  eCode : string;
  eMessage : string;
  eHttpStatus : Z;
  eCategory : string;
  eRetryable : bool;
  eSuggestion : string;
}.

Record DenyVerdict : Type := {
  dCode : string; dReason : string; dError : ErrorEnvelope }.
Record EscalateVerdict : Type := { sQueue : string; sReason : string }.
Record RequireVerdict : Type := { rConditions : list string; rReason : string }.
Record FlagVerdict : Type := { fCode : string; fReason : string }.

Record VerdictDef : Type := {
  Deny : option DenyVerdict;
  Escalate : option EscalateVerdict;
  Require_ : option RequireVerdict;
  Flag : option FlagVerdict;
}.

Record RuleDef : Type := {
  ID : string;
  AppliesTo : list string;
  When : Condition;
  verdict : VerdictDef;
}.

Record EntityTransitionRef : Type := {
  trEntity : string; trFrom : string; trTo : string }.

Record OperationDef : Type := {
  ConstrainedBy : list string;
  Transitions : list EntityTransitionRef;
}.

Record Transition : Type := { tFrom : string; tTo : string; tVia : string }.

Record EntityDef : Type := {
  States : list string;
  Initial : string;
  Terminal : list string;
  entTransitions : list Transition;
}.

Record Contract : Type := {
  Facts : gmap string FactDef;
  DerivedFacts : gmap string DerivedFactDef;
  Rules : list RuleDef;
  Operations : gmap string OperationDef;
  Entities : gmap string EntityDef;
}.

Record Request : Type := {
  Operation : string;
  Input : gmap string any;
  DryRun : bool;
  ContractETag : string;
}.

Record Verdict : Type := {
  vType : string;
  vCode : string;
  vReason : string;
  vError : option ErrorEnvelope;
  vQueue : string;
}.

Record Response : Type := {
  Outcome : string;
  Output : option (gmap string any);
  Error : option ErrorEnvelope;
  Verdicts : list Verdict;
  FactSnapshot : option (gmap string any);
  rDryRun : bool;
}.

(** ** Conditions and comparison (engine.go) *)

Definition toFloat (v : any) : float * bool :=
  match v with
  | VFloat64 n => (n, true)
  | VFloat32 n => (n, true)
  | VInt n => (float64_of_Z n, true)
  | VInt64 n => (float64_of_Z n, true)
  | VInt32 n => (float64_of_Z n, true)
  | _ => (0%float, false)
  end.

Definition applyOp (op : string) (left right : any) : bool :=
  if String.eqb op "equals" then
    String.eqb (Sprintf_v left) (Sprintf_v right)
  else if String.eqb op "greater_than" then
    let '(fl, okl) := toFloat left in
    let '(fr, okr) := toFloat right in
    okl && okr && PrimFloat.ltb fr fl
  else if String.eqb op "less_than" then
    let '(fl, okl) := toFloat left in
    let '(fr, okr) := toFloat right in
    okl && okr && PrimFloat.ltb fl fr
  else false.

Definition is_nil (v : any) : bool :=
  match v with VNil => true | _ => false end.

Fixpoint evalCondition (cond : Condition) (facts : FactSet) : bool :=
  match cAll cond with
  | _ :: _ => forallb (λ sub, evalCondition sub facts) (cAll cond)
  | [] =>
  match cAny cond with
  | _ :: _ => existsb (λ sub, evalCondition sub facts) (cAny cond)
  | [] =>
  match cNot cond with
  | Some sub => negb (evalCondition sub facts)
  | None =>
  if negb (String.eqb (cFact cond) "") then
    let val := (GetPath facts (cFact cond)).1 in
    if negb (is_nil (cEquals cond)) then applyOp "equals" val (cEquals cond)
    else if negb (is_nil (cGreaterThan cond)) then
      applyOp "greater_than" val (cGreaterThan cond)
    else if negb (is_nil (cLessThan cond)) then
      applyOp "less_than" val (cLessThan cond)
    else match cIn cond with
         | _ :: _ => existsb (λ v, applyOp "equals" val v) (cIn cond)
         | [] => true
         end
  else true
  end end end.

(** ** Fact gathering *)

(** The calls [collect] receives from [collectFromCondition], in order. *)
Fixpoint collectFromCondition (cond : Condition) : list string :=
  (if negb (String.eqb (cFact cond) "") then [cFact cond] else [])
  ++ flat_map collectFromCondition (cAll cond)
  ++ flat_map collectFromCondition (cAny cond)
  ++ match cNot cond with
     | Some sub => collectFromCondition sub
     | None => []
     end.

(** The two sets [neededBaseFacts] fills. *)
Record needState : Type := {
  needed : gset string;
  derivedVisited : gset string;
}.

(** The longest proper prefix of a dotted path that names a fact or a
    derived fact: the search loop at the end of [addPath]. *)
Fixpoint longest_prefix (c : Contract) (parts : list string) (i : nat)
  : option string :=
  match i with
  | O => None
  | S i' =>
      let prefix := Join (take i parts) "." in
      if decide (is_Some (Facts c !! prefix)) then Some prefix
      else if decide (is_Some (DerivedFacts c !! prefix)) then Some prefix
      else longest_prefix c parts i'
  end.

(** A loop body run over a list, stopping at the first failure. *)
Fixpoint foldM {S A : Type} (f : S → A → option S) (s : S) (l : list A)
  : option S :=
  match l with
  | [] => Some s
  | a :: l' => match f s a with Some s' => foldM f s' l' | None => None end
  end.

(** The closure [addPath]; [fuel] bounds the depth of its recursion. *)
Fixpoint addPath (c : Contract) (fuel : nat) (path : string) (st : needState)
  : option needState :=
  match fuel with
  | O => None
  | S fuel' =>
      if decide (is_Some (Facts c !! path)) then
        Some {| needed := {[path]} ∪ needed st;
                derivedVisited := derivedVisited st |}
      else
        match DerivedFacts c !! path with
        | Some df =>
            if decide (path ∈ derivedVisited st) then Some st
            else
              foldM (λ st' arg,
                       if negb (String.eqb (argFact arg) "")
                       then addPath c fuel' (argFact arg) st'
                       else Some st')
                    {| needed := needed st;
                       derivedVisited := {[path]} ∪ derivedVisited st |}
                    (Args (derivation df))
        | None =>
            let parts := Split "." path in
            match longest_prefix c parts (length parts - 1)%nat with
            | None => Some st
            | Some prefix =>
                if decide (is_Some (Facts c !! prefix)) then
                  Some {| needed := {[prefix]} ∪ needed st;
                          derivedVisited := derivedVisited st |}
                else addPath c fuel' prefix st
            end
        end
  end.

Definition addPath_fuel (c : Contract) : nat :=
  (2 * size (DerivedFacts c) + 2)%nat.

(** The rules an operation lists, each as often as the double loop of
    [neededBaseFacts] meets it. *)
Definition constraining_rules (c : Contract) (op : OperationDef) : list RuleDef :=
  flat_map (λ ruleID, filter (λ r, ID r = ruleID) (Rules c)) (ConstrainedBy op).

Definition neededBaseFacts_run (c : Contract) (operation : string)
  : option needState :=
  let st0 := {| needed := ∅; derivedVisited := ∅ |} in
  match Operations c !! operation with
  | None => Some st0
  | Some op =>
      foldM (λ st path, addPath c (addPath_fuel c) path st) st0
            (flat_map (λ r, collectFromCondition (When r))
                      (constraining_rules c op))
  end.

Definition neededBaseFacts (c : Contract) (operation : string) : gset string :=
  match neededBaseFacts_run c operation with
  | Some st => needed st
  | None => ∅
  end.

(** The method [Error] of an error value. *)
Definition Error_ (e : error) : string :=
  match e with
  | errorString msg => msg
  | factError fact reason _ => "fact " +:+ Quote rt fact +:+ ": " +:+ reason
  end.

(** The port adapters behind [PortRegistry]; an error is its message. *)
Record PortRegistry : Type := {
  port_Get : string → string → gmap string any → any + string;
  port_Execute :
    string → string → gmap string any → option (gmap string any) + string;
}.

Inductive PortEvent : Type :=
| EvGet (port fact : string)
| EvExecute (port operation : string).

(** What the language leaves open: the order in which each [range] over a
    map yields its keys, and the order in which the results of the port
    goroutines arrive on the channel. *)
Record Schedule : Type := {
  range_needed : list string → list string;
  chan_recv : list string → list string;
  range_derived : list string → list string;
}.

Definition valid_schedule (s : Schedule) : Prop :=
  (∀ l, range_needed s l ≡ₚ l) ∧ (∀ l, chan_recv s l ≡ₚ l)
  ∧ (∀ l, range_derived s l ≡ₚ l).

Definition portName (source : string) : string := TrimPrefix source "port:".

(** The body of the first loop of [gatherFacts]: [started] collects the
    goroutines launched, one per port fact. *)
Definition gather_step (c : Contract) (input : gmap string any) (name : string)
    (facts : FactSet) (started : list (string * FactDef))
  : result FactSet * list (string * FactDef) :=
  match Facts c !! name with
  | None => (Ok facts, started)
  | Some def =>
      if String.eqb (Source def) "input" then
        match input !! name with
        | Some val => (Ok (Set_ facts name val), started)
        | None =>
            if Required def then
              (Err (errorString ("required input fact " +:+ Quote rt name
                                 +:+ " missing from request")), started)
            else (Ok facts, started)
        end
      else if String.eqb (Source def) "ctx" then
        if String.eqb name "user.roles" then
          (Ok (Set_ facts name (VSlice [VString "customer"])), started)
        else (Ok facts, started)
      else if HasPrefix (Source def) "port:" then
        (Ok facts, started ++ [(name, def)])
      else (Ok facts, started)
  end.

(** The first loop, over the names in the order [range needed] yields. *)
Fixpoint gather_range (c : Contract) (input : gmap string any)
    (names : list string) (facts : FactSet) (started : list (string * FactDef))
  : result FactSet * list (string * FactDef) :=
  match names with
  | [] => (Ok facts, started)
  | name :: rest =>
      match gather_step c input name facts started with
      | (Ok facts', started') => gather_range c input rest facts' started'
      | (Err e, started') => (Err e, started')
      end
  end.

(** The second loop: the results as they are received. *)
Fixpoint gather_collect (results : list (string * (any + string) * FactDef))
    (facts : FactSet) : result FactSet :=
  match results with
  | [] => Ok facts
  | (name, inr reason, def) :: rest =>
      if String.eqb (OnMissing def) "deny" then
        Err (factError name reason "denied")
      else if String.eqb (OnMissing def) "skip" then
        gather_collect rest facts
      else Err (factError name reason "system_error")
  | (name, inl val, def) :: rest => gather_collect rest (Set_ facts name val)
  end.

Definition started_def (started : list (string * FactDef)) (name : string)
  : option (string * FactDef) :=
  List.find (λ nd, String.eqb nd.1 name) started.

Definition gatherFacts (ports : PortRegistry) (sched : Schedule) (c : Contract)
    (operation : string) (input : gmap string any)
  : result FactSet * list PortEvent :=
  let names := range_needed sched (elements (neededBaseFacts c operation)) in
  let '(r, started) := gather_range c input names NewFactSet [] in
  let gets := map (λ nd : string * FactDef, EvGet (portName (Source nd.2)) nd.1) started in
  match r with
  | Err e => (Err e, gets)
  | Ok facts =>
      let results :=
        map (λ nd : string * FactDef,
               (nd.1, port_Get ports (portName (Source nd.2)) nd.1 input, nd.2))
            (omap (started_def started) (chan_recv sched (started.*1))) in
      (gather_collect results facts, gets)
  end.

(** ** Derivation *)

(** The two variables the closure [visit] of [topoSort] updates. *)
Record sortState : Type := {
  visited : gset string;
  order : list string;
}.

(** The closure [visit]; [fuel] bounds the depth of its recursion. *)
Fixpoint visit (dfs : gmap string DerivedFactDef) (fuel : nat) (name : string)
    (st : sortState) : option sortState :=
  match fuel with
  | O => None
  | S fuel' =>
      if decide (name ∈ visited st) then Some st
      else
        let st1 := {| visited := {[name]} ∪ visited st; order := order st |} in
        match dfs !! name with
        | None => Some st1
        | Some df =>
            match foldM (λ st' arg,
                           if negb (String.eqb (argFact arg) "")
                           then visit dfs fuel' (argFact arg) st'
                           else Some st')
                        st1 (Args (derivation df)) with
            | Some st2 =>
                Some {| visited := visited st2; order := order st2 ++ [name] |}
            | None => None
            end
        end
  end.

Definition topoSort_run (dfs : gmap string DerivedFactDef) (keys : list string)
  : option sortState :=
  foldM (λ st name, visit dfs (S (size dfs)) name st)
        {| visited := ∅; order := [] |} keys.

(** [topoSort], with the order [keys] in which [range dfs] yields the names. *)
Definition topoSort (dfs : gmap string DerivedFactDef) (keys : list string)
  : list string :=
  match topoSort_run dfs keys with
  | Some st => order st
  | None => []
  end.

Definition getArg (facts : FactSet) (arg : DerivationArg) : any * bool :=
  if negb (String.eqb (argFact arg) "") then GetPath facts (argFact arg)
  else (argValue arg, negb (is_nil (argValue arg))).

(** The first two arguments, compared as floats by [cmp]. *)
Definition compare_args (facts : FactSet) (d : Derivation)
    (cmp : float → float → bool) : any :=
  match Args d with
  | a0 :: a1 :: _ =>
      let a := (getArg facts a0).1 in
      let b := (getArg facts a1).1 in
      let '(fa, oka) := toFloat a in
      let '(fb, okb) := toFloat b in
      if oka && okb then VBool (cmp fa fb) else VBool false
  | _ => VBool false
  end.

Definition evalDerivation (d : Derivation) (facts : FactSet) : result any :=
  if String.eqb (Fn d) "greater_than" then
    Ok (compare_args facts d (λ fa fb, PrimFloat.ltb fb fa))
  else if String.eqb (Fn d) "greater_or_equal" then
    Ok (compare_args facts d (λ fa fb, PrimFloat.leb fb fa))
  else if String.eqb (Fn d) "less_than" then
    Ok (compare_args facts d (λ fa fb, PrimFloat.ltb fa fb))
  else if String.eqb (Fn d) "equals" then
    match Args d with
    | a0 :: a1 :: _ =>
        let a := (getArg facts a0).1 in
        let b := (getArg facts a1).1 in
        Ok (VBool (String.eqb (Sprintf_v a) (Sprintf_v b)))
    | _ => Ok (VBool false)
    end
  else if String.eqb (Fn d) "and" then
    Ok (VBool (forallb
      (λ arg,
         if negb (String.eqb (argFact arg) "") && negb (String.eqb (argOp arg) "")
         then applyOp (argOp arg) (GetPath facts (argFact arg)).1 (argValue arg)
         else match (getArg facts arg).1 with
              | VBool false => false
              | _ => true
              end)
      (Args d)))
  else if String.eqb (Fn d) "or" then
    Ok (VBool (existsb
      (λ arg, match (getArg facts arg).1 with VBool true => true | _ => false end)
      (Args d)))
  else if String.eqb (Fn d) "not" then
    match Args d with
    | [] => Ok (VBool true)
    | a0 :: _ =>
        match (getArg facts a0).1 with
        | VBool b => Ok (VBool (negb b))
        | _ => Ok (VBool false)
        end
    end
  else Err (errorString ("unknown derivation function: " +:+ Fn d)).

(** dfs[name]: a missing key reads as the zero value. *)
Definition lookup_derived (dfs : gmap string DerivedFactDef) (name : string)
  : DerivedFactDef :=
  default {| derivation := {| Fn := ""; Args := [] |} |} (dfs !! name).

(** The loop of [deriveFacts] over the sorted names; beside the result it
    lists the names whose derivation was evaluated, in the order of the
    calls of [evalDerivation]. *)
Fixpoint derive_loop (c : Contract) (names : list string) (facts : FactSet)
  : result FactSet * list string :=
  match names with
  | [] => (Ok facts, [])
  | name :: rest =>
      match evalDerivation (derivation (lookup_derived (DerivedFacts c) name)) facts with
      | Err e =>
          (Err (errorString ("derive " +:+ Quote rt name +:+ ": " +:+ Error_ e)),
           [name])
      | Ok val =>
          let '(r, evaluated) := derive_loop c rest (Set_ facts name val) in
          (r, name :: evaluated)
      end
  end.

Definition deriveFacts_traced (sched : Schedule) (c : Contract) (facts : FactSet)
  : result FactSet * list string :=
  derive_loop c
    (topoSort (DerivedFacts c)
       (range_derived sched (elements (dom (DerivedFacts c)))))
    facts.

Definition deriveFacts (sched : Schedule) (c : Contract) (facts : FactSet)
  : result FactSet :=
  (deriveFacts_traced sched c facts).1.

(** ** Rules and verdicts *)

Definition rule_verdict (v : VerdictDef) : list Verdict :=
  match Deny v, Escalate v, Require_ v, Flag v with
  | Some d, _, _, _ =>
      [{| vType := "deny"; vCode := dCode d; vReason := dReason d;
          vError := Some (dError d); vQueue := "" |}]
  | None, Some s, _, _ =>
      [{| vType := "escalate"; vCode := ""; vReason := sReason s;
          vError := None; vQueue := sQueue s |}]
  | None, None, Some r, _ =>
      [{| vType := "require"; vCode := ""; vReason := rReason r;
          vError := None; vQueue := "" |}]
  | None, None, None, Some f =>
      [{| vType := "flag"; vCode := fCode f; vReason := fReason f;
          vError := None; vQueue := "" |}]
  | None, None, None, None => []
  end.

(** c.Operations[operation]: a missing key reads as the zero value. *)
Definition lookup_operation (c : Contract) (operation : string) : OperationDef :=
  default {| ConstrainedBy := []; Transitions := [] |} (Operations c !! operation).

Definition evaluateRules (c : Contract) (operation : string) (facts : FactSet)
  : list Verdict :=
  let op := lookup_operation c operation in
  let ruleSet : gset string := list_to_set (ConstrainedBy op) in
  flat_map (λ rule,
              if decide (ID rule ∈ ruleSet) then
                if evalCondition (When rule) facts then rule_verdict (verdict rule)
                else []
              else [])
           (Rules c).

Definition priority (t : string) : Z :=
  if String.eqb t "deny" then 4
  else if String.eqb t "escalate" then 3
  else if String.eqb t "require" then 2
  else if String.eqb t "flag" then 1
  else 0.

Definition resolveVerdicts (verdicts : list Verdict) : option Verdict :=
  fold_left (λ best v,
               match best with
               | None => Some v
               | Some b => if Z.ltb (priority (vType b)) (priority (vType v))
                           then Some v else Some b
               end)
            verdicts None.

Definition dryRunOutcome (v : option Verdict) : string :=
  match v with
  | None => "would_execute"
  | Some v =>
      if String.eqb (vType v) "deny" then "would_deny"
      else if String.eqb (vType v) "escalate" then "would_escalate"
      else if String.eqb (vType v) "require" then "would_require"
      else "would_execute_with_flags"
  end.

(** ** The engine *)

Record Engine : Type := {
  contract : option Contract;
  contractETag : string;
  ports : PortRegistry;
}.

Definition NewEngine (p : PortRegistry) : Engine :=
  {| contract := None; contractETag := ""; ports := p |}.

Definition LoadContract (e : Engine) (c : Contract) (etag : string) : Engine :=
  {| contract := Some c; contractETag := etag; ports := ports e |}.

Definition ETag (e : Engine) : string := contractETag e.

Definition operationPort (_ : OperationDef) : string := "invoiceRepo".

Definition system_error (code message : string) (status : Z) : ErrorEnvelope :=
  {| eCode := code; eMessage := message; eHttpStatus := status;
     eCategory := "system"; eRetryable := true; eSuggestion := "" |}.

Definition version_mismatch : Response :=
  {| Outcome := "system_error"; Output := None;
     Error := Some (system_error "CONTRACT_VERSION_MISMATCH"
       "Client contract version is stale — re-fetch contracts and retry" 409);
     Verdicts := []; FactSnapshot := None; rDryRun := false |}.

(** Step 6 of [Evaluate]: the call of the port's Execute and the response
    built from its result. *)
Definition execute_step (e : Engine) (op : OperationDef) (req : Request)
    (verdicts : list Verdict) (gets : list PortEvent)
  : result Response * list PortEvent :=
  let trace := gets ++ [EvExecute (operationPort op) (Operation req)] in
  match port_Execute (ports e) (operationPort op) (Operation req) (Input req) with
  | inr msg =>
      (Ok {| Outcome := "system_error"; Output := None;
             Error := Some (system_error "EXECUTION_FAILED" msg 500);
             Verdicts := []; FactSnapshot := None; rDryRun := false |}, trace)
  | inl out =>
      (Ok {| Outcome := "executed"; Output := out; Error := None;
             Verdicts := verdicts; FactSnapshot := None; rDryRun := false |},
       trace)
  end.

(** [Evaluate]: what it returns, and the calls it made into the ports. *)
Definition Evaluate (e : Engine) (sched : Schedule) (req : Request)
  : result Response * list PortEvent :=
  match contract e with
  | None => (Err (errorString "no contract loaded"), [])
  | Some c =>
  if negb (String.eqb (ContractETag req) "")
     && negb (String.eqb (ContractETag req) (contractETag e))
  then (Ok version_mismatch, [])
  else
  match Operations c !! Operation req with
  | None => (Err (errorString ("unknown operation: " +:+ Operation req)), [])
  | Some op =>
  match gatherFacts (ports e) sched c (Operation req) (Input req) with
  | (Err (factError fact reason outcome), gets) =>
      (Ok {| Outcome := outcome; Output := None;
             Error := Some (system_error "FACT_UNAVAILABLE"
               ("fact " +:+ Quote rt fact +:+ " unavailable: " +:+ reason) 503);
             Verdicts := []; FactSnapshot := None; rDryRun := false |}, gets)
  | (Err (errorString msg), gets) => (Err (errorString msg), gets)
  | (Ok facts0, gets) =>
  match deriveFacts sched c facts0 with
  | Err err =>
      (Err (errorString ("derive facts: " +:+ Error_ err)), gets)
  | Ok facts =>
  let verdicts := evaluateRules c (Operation req) facts in
  let final := resolveVerdicts verdicts in
  if DryRun req then
    (Ok {| Outcome := dryRunOutcome final; Output := None; Error := None;
           Verdicts := verdicts; FactSnapshot := Some (Snapshot facts);
           rDryRun := true |}, gets)
  else
  match final with
  | Some f =>
      if String.eqb (vType f) "deny" then
        (Ok {| Outcome := "denied"; Output := None; Error := vError f;
               Verdicts := verdicts; FactSnapshot := None; rDryRun := false |},
         gets)
      else if String.eqb (vType f) "escalate" then
        (Ok {| Outcome := "escalated"; Output := None; Error := None;
               Verdicts := verdicts; FactSnapshot := None; rDryRun := false |},
         gets)
      else execute_step e op req verdicts gets
  | None => execute_step e op req verdicts gets
  end
  end end end end.

(** ** Notions the properties are stated with *)

(** The ids of the rules that matched: the rules the operation lists whose
    condition holds on the fact set, in rule order. *)
Definition matchedRules (c : Contract) (operation : string) (facts : FactSet)
  : list string :=
  flat_map (λ rule,
              if decide (ID rule ∈ ConstrainedBy (lookup_operation c operation))
              then if evalCondition (When rule) facts then [ID rule] else []
              else [])
           (Rules c).

End Engine.

Definition is_execute (ev : PortEvent) : bool :=
  match ev with EvExecute _ _ => true | EvGet _ _ => false end.

(** The [would_*] outcomes of a dry run. *)
Definition would_outcomes : list string :=
  ["would_execute"; "would_deny"; "would_escalate"; "would_require";
   "would_execute_with_flags"].

(** The body of the loop of [resolveVerdicts]. *)
Definition pick (best : option Verdict) (v : Verdict) : option Verdict :=
  match best with
  | None => Some v
  | Some b => if Z.ltb (priority (vType b)) (priority (vType v))
              then Some v else Some b
  end.

(** A leaf condition: no combinator, a fact name. *)
Definition is_leaf (cond : Condition) : Prop :=
  cAll cond = [] ∧ cAny cond = [] ∧ cNot cond = None ∧ cFact cond ≠ "".

(** The derived-fact graph: [edge dfs n f] when the derivation of [n] has
    the fact argument [f]. *)
Definition edge (dfs : gmap string DerivedFactDef) (n f : string) : Prop :=
  ∃ df arg, dfs !! n = Some df ∧ arg ∈ Args (derivation df)
            ∧ argFact arg = f ∧ f ≠ "".

Definition has_cycle (dfs : gmap string DerivedFactDef) : Prop :=
  ∃ n, tc (edge dfs) n n.


(** The closed library of derivation functions. *)
Definition known_fn (fn : string) : Prop :=
  fn ∈ ["greater_than"; "greater_or_equal"; "less_than"; "equals";
        "and"; "or"; "not"].

(** The body of the loop of [visit] over the arguments of a derivation. *)
Definition visit_arg (dfs : gmap string DerivedFactDef) (fuel : nat)
    (st : sortState) (arg : DerivationArg) : option sortState :=
  if negb (String.eqb (argFact arg) "") then visit dfs fuel (argFact arg) st
  else Some st.

(** How many derived facts [visit] has not marked yet. *)
Definition unvisited (dfs : gmap string DerivedFactDef) (st : sortState) : nat :=
  size (dom dfs ∖ visited st).

(** What holds of the state of [topoSort] while the names of [stack] are
    being visited: the order has no repeats and holds only marked derived
    facts; a marked derived fact is in the order or on the stack; and a
    derived fact referenced by a fact in the order stands before it, or
    lies on a cycle through it. *)
Definition topo_inv (dfs : gmap string DerivedFactDef) (stack : list string)
    (st : sortState) : Prop :=
  NoDup (order st)
  ∧ (∀ n, n ∈ order st → n ∈ visited st ∧ is_Some (dfs !! n))
  ∧ (∀ n, n ∈ visited st → is_Some (dfs !! n) → n ∈ order st ∨ n ∈ stack)
  ∧ (∀ i n f, order st !! i = Some n → edge dfs n f → is_Some (dfs !! f) →
       (∃ j, (j < i)%nat ∧ order st !! j = Some f) ∨ tc (edge dfs) f n).

(** How a visit changes the state: marks are kept, and what is new in the
    order was not marked before. *)
Definition grows (st st' : sortState) : Prop :=
  visited st ⊆ visited st'
  ∧ (∀ x, x ∈ order st' → x ∈ order st ∨ x ∉ visited st).

(** The body of the loop of [addPath] over the arguments of a derivation. *)
Definition addPath_arg (c : Contract) (fuel : nat) (st : needState)
    (arg : DerivationArg) : option needState :=
  if negb (String.eqb (argFact arg) "") then addPath c fuel (argFact arg) st
  else Some st.

(** How many derived facts [addPath] has not marked yet. *)
Definition pending (c : Contract) (st : needState) : nat :=
  size (dom (DerivedFacts c) ∖ derivedVisited st).

(** The fuel [addPath] needs: two levels for each derived fact not yet
    marked, one less when the path is itself a derived fact. *)
Definition enough_fuel (c : Contract) (fuel : nat) (path : string)
    (st : needState) : Prop :=
  (2 * pending c st + 2 ≤ fuel)%nat
  ∨ ((2 * pending c st + 1 ≤ fuel)%nat
     ∧ ¬ is_Some (Facts c !! path) ∧ is_Some (DerivedFacts c !! path)).

(** What the first loop of [gatherFacts] leaves under a name, [old] being
    what was there before. *)
Definition range_value (c : Contract) (input : gmap string any) (name : string)
    (old : option any) : option any :=
  match Facts c !! name with
  | None => old
  | Some def =>
      if String.eqb (Source def) "input" then
        match input !! name with Some val => Some val | None => old end
      else if String.eqb (Source def) "ctx" then
        if String.eqb name "user.roles"
        then Some (VSlice [VString "customer"]) else old
      else old
  end.

(** The goroutine the first loop starts for a name, if any. *)
Definition launches (c : Contract) (name : string) : list (string * FactDef) :=
  match Facts c !! name with
  | None => []
  | Some def =>
      if String.eqb (Source def) "input" then []
      else if String.eqb (Source def) "ctx" then []
      else if HasPrefix (Source def) "port:" then [(name, def)]
      else []
  end.

(** What a successful [gatherFacts] holds for a needed base fact. *)
Definition gathered_value (ports : PortRegistry) (input : gmap string any)
    (name : string) (def : FactDef) : option any :=
  if String.eqb (Source def) "input" then input !! name
  else if String.eqb (Source def) "ctx" then
    if String.eqb name "user.roles"
    then Some (VSlice [VString "customer"]) else None
  else if HasPrefix (Source def) "port:" then
    match port_Get ports (portName (Source def)) name input with
    | inl val => Some val
    | inr _ => None
    end
  else None.

(** ** Example data *)

Module Examples.

Definition in_order : Schedule :=
  {| range_needed := id; chan_recv := id; range_derived := id |}.

Definition always : Condition := mkCondition [] [] None "" VNil VNil VNil [].

Definition leaf_equals (fact : string) (lit : any) : Condition :=
  mkCondition [] [] None fact lit VNil VNil [].

Definition no_verdict : VerdictDef :=
  {| Deny := None; Escalate := None; Require_ := None; Flag := None |}.

Definition require_mfa : VerdictDef :=
  {| Deny := None; Escalate := None;
     Require_ := Some {| rConditions := ["mfa"]; rReason := "MFA needed" |};
     Flag := None |}.

Definition flag_large : VerdictDef :=
  {| Deny := None; Escalate := None; Require_ := None;
     Flag := Some {| fCode := "LARGE_PAYMENT"; fReason := "large payment" |} |}.

Definition one_rule (id : string) (cond : Condition) (v : VerdictDef)
    (facts : gmap string FactDef) (dfs : gmap string DerivedFactDef) : Contract :=
  {| Facts := facts; DerivedFacts := dfs;
     Rules := [ {| ID := id; AppliesTo := []; When := cond; verdict := v |} ];
     Operations := {[ "ProcessPayment" :=
                       {| ConstrainedBy := [id]; Transitions := [] |} ]};
     Entities := ∅ |}.

(** Ports like the test mock: every fact is nil, Execute returns an empty map. *)
Definition mockPorts : PortRegistry :=
  {| port_Get := λ _ _ _, inl VNil; port_Execute := λ _ _ _, inl (Some ∅) |}.

Definition engine_with (c : Contract) : Engine :=
  {| contract := Some c; contractETag := "etag-1"; ports := mockPorts |}.

Definition live (etag : string) : Request :=
  {| Operation := "ProcessPayment"; Input := ∅; DryRun := false;
     ContractETag := etag |}.

Definition dry (etag : string) : Request :=
  {| Operation := "ProcessPayment"; Input := ∅; DryRun := true;
     ContractETag := etag |}.

Definition require_contract : Contract :=
  one_rule "needs-mfa" always require_mfa ∅ ∅.

Definition lit (v : any) : DerivationArg :=
  {| argFact := ""; argOp := ""; argValue := v |}.

Definition ref (fact : string) : DerivationArg :=
  {| argFact := fact; argOp := ""; argValue := VNil |}.

Definition derived (fn : string) (args : list DerivationArg) : DerivedFactDef :=
  {| derivation := {| Fn := fn; Args := args |} |}.

(** b is derived from a, as in the test of the sort. *)
Definition chain : gmap string DerivedFactDef :=
  {[ "a" := derived "greater_than" [lit (VFloat64 100); lit (VFloat64 50)];
     "b" := derived "not" [ref "a"] ]}.

(** a and b are each derived from the other. *)
Definition cyclic : gmap string DerivedFactDef :=
  {[ "a" := derived "not" [ref "b"]; "b" := derived "not" [ref "a"] ]}.

Definition chain_contract : Contract := one_rule "r" always no_verdict ∅ chain.

Definition cyclic_contract : Contract := one_rule "r" always no_verdict ∅ cyclic.


(** A rule on a fact of the execution context other than the roles. *)
Definition ctx_contract : Contract :=
  one_rule "own-account" (leaf_equals "user.id" (VString "u1")) flag_large
    {[ "user.id" := {| Source := "ctx"; Required := true;
                       OnMissing := "system_error" |} ]} ∅.

Definition flag_contract (id : string) : Contract :=
  one_rule id always flag_large ∅ ∅.

Definition deny_with (code : string) : Verdict :=
  {| vType := "deny"; vCode := code; vReason := ""; vError := None; vQueue := "" |}.

End Examples.

(** ** More example data *)

Module Cases.

Definition deny_closed : VerdictDef :=
  {| Deny := Some {| dCode := "ACCOUNT_CLOSED"; dReason := "account closed";
                     dError := {| eCode := "ACCOUNT_CLOSED";
                                  eMessage := "account closed";
                                  eHttpStatus := 403; eCategory := "business";
                                  eRetryable := false; eSuggestion := "" |} |};
     Escalate := None; Require_ := None; Flag := None |}.

Definition escalate_review : VerdictDef :=
  {| Deny := None;
     Escalate := Some {| sQueue := "finance"; sReason := "needs review" |};
     Require_ := None; Flag := None |}.

Definition deny_contract : Contract :=
  Examples.one_rule "closed" Examples.always deny_closed ∅ ∅.

Definition escalate_contract : Contract :=
  Examples.one_rule "review" Examples.always escalate_review ∅ ∅.

End Cases.

(** The request [req] with its dry-run flag set to [b]. *)
Definition with_dry_run (req : Request) (b : bool) : Request :=
  {| Operation := Operation req; Input := Input req; DryRun := b;
     ContractETag := ContractETag req |}.

Module Outage.

(** Ports none of which answers. *)
Definition down_ports : PortRegistry :=
  {| port_Get := λ _ _ _, inr "timeout";
     port_Execute := λ _ _ _, inr "timeout" |}.

(** A rule on the port fact customer.status, fetched under [policy]. *)
Definition status_contract (policy : string) : Contract :=
  Examples.one_rule "closed"
    (Examples.leaf_equals "customer.status" (VString "closed"))
    Cases.deny_closed
    {[ "customer.status" := {| Source := "port:customerRepo"; Required := true;
                               OnMissing := policy |} ]} ∅.

(** A rule on the required input fact customer.id. *)
Definition input_contract : Contract :=
  Examples.one_rule "known"
    (Examples.leaf_equals "customer.id" (VString "cust_456"))
    Cases.deny_closed
    {[ "customer.id" := {| Source := "input"; Required := true;
                           OnMissing := "system_error" |} ]} ∅.

Definition engine_down (c : Contract) : Engine :=
  {| contract := Some c; contractETag := "etag-1"; ports := down_ports |}.

End Outage.

(** The fact a Get event fetches. *)
Definition event_fact (ev : PortEvent) : string :=
  match ev with EvGet _ fact => fact | EvExecute _ operation => operation end.

(** The text of the error for a required input fact that is missing. *)
Definition missing_input (rt : GoRuntime) (name : string) : error :=
  errorString ("required input fact " +:+ Quote rt name
               +:+ " missing from request").

(** The base facts a fact reference stands for: the fact itself when it
    is a base fact; what the fact arguments of its derivation stand for
    when it is a derived fact; otherwise what its longest prefix that
    names a fact or a derived fact stands for. *)
Inductive requires (c : Contract) : string → string → Prop :=
| requires_base path :
    is_Some (Facts c !! path) → requires c path path
| requires_derived path df arg n :
    Facts c !! path = None →
    DerivedFacts c !! path = Some df →
    arg ∈ Args (derivation df) → argFact arg ≠ "" →
    requires c (argFact arg) n →
    requires c path n
| requires_prefix path prefix n :
    Facts c !! path = None →
    DerivedFacts c !! path = None →
    longest_prefix c (Split "." path) (length (Split "." path) - 1)%nat
    = Some prefix →
    requires c prefix n →
    requires c path n.

(** The name [addPath] acts on for a path. *)
Definition target (c : Contract) (path : string) : option string :=
  if decide (is_Some (Facts c !! path)) then Some path
  else if decide (is_Some (DerivedFacts c !! path)) then Some path
  else longest_prefix c (Split "." path) (length (Split "." path) - 1)%nat.

(** A path is dealt with in a state when its target is recorded: as
    needed when it is a base fact, as visited when it is a derived fact. *)
Definition handled (c : Contract) (st : needState) (path : string) : Prop :=
  match target c path with
  | None => True
  | Some t =>
      if decide (is_Some (Facts c !! t)) then t ∈ needed st
      else t ∈ derivedVisited st
  end.

(** What holds of the state of [neededBaseFacts] while the derived facts
    of [stack] are being walked: the visited names are derived facts, and
    the arguments of every visited derived fact off the stack are dealt
    with. *)
Definition need_inv (c : Contract) (stack : list string) (st : needState)
  : Prop :=
  (∀ d, d ∈ derivedVisited st →
     Facts c !! d = None ∧ is_Some (DerivedFacts c !! d))
  ∧ (∀ d df arg, d ∈ derivedVisited st → d ∉ stack →
       DerivedFacts c !! d = Some df → arg ∈ Args (derivation df) →
       argFact arg ≠ "" → handled c st (argFact arg)).

Definition need_grows (st st' : needState) : Prop :=
  needed st ⊆ needed st' ∧ derivedVisited st ⊆ derivedVisited st'.

(** A path segment: a text without a dot. *)
Fixpoint dotless (s : string) : bool :=
  match s with
  | EmptyString => true
  | String ch rest => negb (Ascii.eqb ch ".") && dotless rest
  end.

(** ** The port registry (ports/registry.go) *)

(** A port adapter, as one invocation sees it: what its Get and its
    Execute return; an error is its message. *)
Record Client : Type := {
  client_Get : string → gmap string any → any + string;
  client_Execute :
    string → gmap string any → option (gmap string any) + string;
}.

(** The type [Registry]: its map of clients, the lock left out. *)
Abbreviation Registry := (gmap string Client) (only parsing).

Definition NewRegistry : Registry := ∅.

Definition Register (r : Registry) (name : string) (cl : Client) : Registry :=
  <[name := cl]> r.

Definition not_registered (rt : GoRuntime) (port : string) : string :=
  "port " +:+ Quote rt port +:+ " not registered".

Definition Registry_Get (rt : GoRuntime) (r : Registry) (port fact : string)
    (input : gmap string any) : any + string :=
  match r !! port with
  | None => inr (not_registered rt port)
  | Some cl => client_Get cl fact input
  end.

Definition Registry_Execute (rt : GoRuntime) (r : Registry)
    (port operation : string) (input : gmap string any)
  : option (gmap string any) + string :=
  match r !! port with
  | None => inr (not_registered rt port)
  | Some cl => client_Execute cl operation input
  end.

(** A registry as the [PortRegistry] of an engine. *)
Definition registry_ports (rt : GoRuntime) (r : Registry) : PortRegistry :=
  {| port_Get := Registry_Get rt r; port_Execute := Registry_Execute rt r |}.

(** ** The in-memory adapters (ports/inmem) *)

(** [s, _ := input[key].(string)]: the text under the key, empty when the
    key is missing or holds no string. *)
Definition input_string (input : gmap string any) (key : string) : string :=
  match input !! key with
  | Some (VString s) => s
  | _ => ""
  end.

Record customer : Type := { cust_id : string; cust_status : string }.

Definition NewCustomerRepo : gmap string customer :=
  {[ "cust_123" := {| cust_id := "cust_123"; cust_status := "active" |};
     "cust_456" := {| cust_id := "cust_456"; cust_status := "closed" |};
     "cust_789" := {| cust_id := "cust_789"; cust_status := "suspended" |} ]}.

Definition CustomerRepo_Get (rt : GoRuntime) (r : gmap string customer)
    (fact : string) (input : gmap string any) : any + string :=
  let id := input_string input "customer.id" in
  if String.eqb id "" then inr "customer.id missing from input"
  else
    match r !! id with
    | None => inr ("customer " +:+ Quote rt id +:+ " not found")
    | Some cu =>
        if String.eqb fact "customer.status" then inl (VString (cust_status cu))
        else inr ("unknown fact " +:+ Quote rt fact)
    end.

Definition CustomerRepo_Execute (rt : GoRuntime) (operation : string)
    (input : gmap string any) : option (gmap string any) + string :=
  inr ("customerRepo does not execute operation " +:+ Quote rt operation).

Record invoice : Type := {
  inv_id : string;
  inv_status : string;
  inv_balance : float;
  inv_currency : string;
  inv_customerID : string;
}.

Definition NewInvoiceRepo : gmap string invoice :=
  {[ "inv_001" := {| inv_id := "inv_001"; inv_status := "approved";
                     inv_balance := 1500; inv_currency := "USD";
                     inv_customerID := "cust_123" |};
     "inv_002" := {| inv_id := "inv_002"; inv_status := "draft";
                     inv_balance := 250; inv_currency := "USD";
                     inv_customerID := "cust_123" |};
     "inv_003" := {| inv_id := "inv_003"; inv_status := "approved";
                     inv_balance := 25000; inv_currency := "USD";
                     inv_customerID := "cust_456" |} ]}.

Definition InvoiceRepo_Get (rt : GoRuntime) (r : gmap string invoice)
    (fact : string) (input : gmap string any) : any + string :=
  let id := input_string input "invoice.id" in
  if String.eqb id "" then inr "invoice.id missing from input"
  else
    match r !! id with
    | None => inr ("invoice " +:+ Quote rt id +:+ " not found")
    | Some inv =>
        if String.eqb fact "invoice.balance" then
          inl (VMap [("value", VFloat64 (inv_balance inv));
                     ("currency", VString (inv_currency inv))])
        else if String.eqb fact "invoice.status" then
          inl (VString (inv_status inv))
        else inr ("unknown fact " +:+ Quote rt fact)
    end.

(** [InvoiceRepo.Execute]: what it returns and the invoices it leaves;
    [rand] is the text randString(8) draws. *)
Definition InvoiceRepo_Execute (rt : GoRuntime) (rand : string)
    (r : gmap string invoice) (operation : string) (input : gmap string any)
  : (option (gmap string any) + string) * gmap string invoice :=
  let id := input_string input "invoice.id" in
  if String.eqb id "" then (inr "invoice.id missing", r)
  else
    match r !! id with
    | None => (inr ("invoice " +:+ Quote rt id +:+ " not found"), r)
    | Some inv =>
        if String.eqb operation "ProcessPayment" then
          match input !! "payment.amount" with
          | Some (VMap _) =>
              (inl (Some
                 {[ "payment_id" := VString ("pay_" +:+ rand);
                    "status" := VString "completed";
                    "new_balance" :=
                      VMap [("value", VInt 0);
                            ("currency", VString (inv_currency inv))] ]}),
               <[id := {| inv_id := inv_id inv; inv_status := "paid";
                          inv_balance := 0; inv_currency := inv_currency inv;
                          inv_customerID := inv_customerID inv |}]> r)
          | _ => (inr "payment.amount missing", r)
          end
        else if String.eqb operation "GetInvoice" then
          (inl (Some
             {[ "id" := VString (inv_id inv);
                "status" := VString (inv_status inv);
                "balance" :=
                  VMap [("value", VFloat64 (inv_balance inv));
                        ("currency", VString (inv_currency inv))];
                "customer_id" := VString (inv_customerID inv) ]}), r)
        else (inr ("unknown operation " +:+ Quote rt operation), r)
    end.

(** The payment processor: its status. *)
Definition NewPaymentProcessor : string := "up".

Definition SetStatus (p s : string) : string := s.

Definition PaymentProcessor_Get (rt : GoRuntime) (p : string) (fact : string)
    (input : gmap string any) : any + string :=
  if String.eqb fact "payment.processor.status" then inl (VString p)
  else inr ("unknown fact " +:+ Quote rt fact).

Definition PaymentProcessor_Execute (rt : GoRuntime) (operation : string)
    (input : gmap string any) : option (gmap string any) + string :=
  inr ("paymentProcessor does not execute operation " +:+ Quote rt operation).

(** The adapters as clients, in the state they are in. *)
Definition customer_client (rt : GoRuntime) (r : gmap string customer) : Client :=
  {| client_Get := CustomerRepo_Get rt r;
     client_Execute := CustomerRepo_Execute rt |}.

Definition invoice_client (rt : GoRuntime) (rand : string)
    (r : gmap string invoice) : Client :=
  {| client_Get := InvoiceRepo_Get rt r;
     client_Execute := λ operation input,
       (InvoiceRepo_Execute rt rand r operation input).1 |}.

Definition processor_client (rt : GoRuntime) (p : string) : Client :=
  {| client_Get := PaymentProcessor_Get rt p;
     client_Execute := PaymentProcessor_Execute rt |}.

(** The registry the executor's main builds. *)
Definition main_registry (rt : GoRuntime) (rand : string)
    (customers : gmap string customer) (invoices : gmap string invoice)
    (processor : string) : Registry :=
  Register
    (Register
       (Register NewRegistry "customerRepo" (customer_client rt customers))
       "paymentProcessor" (processor_client rt processor))
    "invoiceRepo" (invoice_client rt rand invoices).

(** The response to an Execute that failed with [msg]. *)
Definition execution_failed (msg : string) : Response :=
  {| Outcome := "system_error"; Output := None;
     Error := Some (system_error "EXECUTION_FAILED" msg 500);
     Verdicts := []; FactSnapshot := None; rDryRun := false |}.

Module Partial.

(** b is derived from a, and a by a function of the standard library
    that [evalDerivation] does not have. *)
Definition chain : gmap string DerivedFactDef :=
  {[ "a" := Examples.derived "less_or_equal"
              [Examples.lit (VFloat64 1); Examples.lit (VFloat64 2)];
     "b" := Examples.derived "not" [Examples.ref "a"] ]}.

Definition chain_contract : Contract :=
  Examples.one_rule "r" Examples.always Examples.no_verdict ∅ chain.

End Partial.

(** The fetch of the needed port fact [name] fails with [reason], under
    a policy other than skip. *)
Definition fetch_fails (ports : PortRegistry) (c : Contract)
    (operation : string) (input : gmap string any)
    (name reason : string) (def : FactDef) : Prop :=
  name ∈ neededBaseFacts c operation
  ∧ Facts c !! name = Some def
  ∧ HasPrefix (Source def) "port:" = true
  ∧ port_Get ports (portName (Source def)) name input = inr reason
  ∧ OnMissing def ≠ "skip".

(** Every needed input fact that is required is in the request. *)
Definition inputs_present (c : Contract) (operation : string)
    (input : gmap string any) : Prop :=
  ∀ name def, name ∈ neededBaseFacts c operation →
    Facts c !! name = Some def → Source def = "input" → Required def = true →
    is_Some (input !! name).

(** The outcome of a fact that is unavailable, by its policy. *)
Definition unavailable_outcome (def : FactDef) : string :=
  if String.eqb (OnMissing def) "deny" then "denied" else "system_error".

(** The response of [Evaluate] to a fact error. *)
Definition fact_unavailable (rt : GoRuntime) (fact reason outcome : string)
  : Response :=
  {| Outcome := outcome; Output := None;
     Error := Some {| eCode := "FACT_UNAVAILABLE";
                      eMessage := "fact " +:+ Quote rt fact
                                  +:+ " unavailable: " +:+ reason;
                      eHttpStatus := 503; eCategory := "system";
                      eRetryable := true; eSuggestion := "" |};
     Verdicts := []; FactSnapshot := None; rDryRun := false |}.

(** ** Verdict resolution *)

Lemma resolveVerdicts_fold vs : resolveVerdicts vs = fold_left pick vs None.
Proof. reflexivity. Qed.

Lemma priority_le_4 t : priority t ≤ 4.
Proof. unfold priority. repeat case_match; lia. Qed.

Lemma priority_deny t : priority t = 4 ↔ t = "deny".
Proof.
  unfold priority. destruct (String.eqb_spec t "deny") as [-> |Hne].
  - done.
  - repeat case_match; split; (lia || done).
Qed.

(** Started from a best verdict [b], the loop keeps [b] unless a strictly
    higher verdict comes, and then keeps the first of the highest. *)
Lemma fold_pick_from vs : ∀ b,
  ∃ w, fold_left pick vs (Some b) = Some w ∧
    ((w = b ∧ Forall (λ v, priority (vType v) ≤ priority (vType b)) vs)
     ∨ (∃ l1 l2, vs = l1 ++ w :: l2
          ∧ priority (vType b) < priority (vType w)
          ∧ Forall (λ v, priority (vType v) < priority (vType w)) l1
          ∧ Forall (λ v, priority (vType v) ≤ priority (vType w)) l2)).
Proof.
  induction vs as [|v vs IH]; intros b; simpl.
  - exists b. split; [done|]. left. by split.
  - destruct (Z.ltb_spec (priority (vType b)) (priority (vType v))) as [Hlt|Hge].
    + destruct (IH v) as (w & Hw & [[-> Hall]|(l1 & l2 & -> & Hvw & H1 & H2)]).
      * exists v. split; [done|]. right. exists [], vs. by repeat split.
      * exists w. split; [done|]. right. exists (v :: l1), l2.
        repeat split; [lia| |done]. by constructor.
    + destruct (IH b) as (w & Hw & [[-> Hall]|(l1 & l2 & -> & Hbw & H1 & H2)]).
      * exists b. split; [done|]. left. split; [done|]. by constructor.
      * exists w. split; [done|]. right. exists (v :: l1), l2.
        repeat split; [done| |done]. constructor; [lia|done].
Qed.

(** C3 fails as stated: of two deny verdicts only the first is returned. *)
Lemma resolveVerdicts_drops_second_deny :
  resolveVerdicts [Examples.deny_with "A"; Examples.deny_with "B"]
    = Some (Examples.deny_with "A")
  ∧ vType (Examples.deny_with "B") = vType (Examples.deny_with "A")
  ∧ Examples.deny_with "B" ∈ [Examples.deny_with "A"; Examples.deny_with "B"]
  ∧ resolveVerdicts [Examples.deny_with "A"; Examples.deny_with "B"]
    ≠ Some (Examples.deny_with "B").
Proof. repeat split; [set_solver | discriminate]. Qed.

(** C3, amended: [resolveVerdicts] returns one verdict, the first of the
    highest priority present in the list (nothing for the empty list), so
    its type is deny whenever a deny is present; the other verdicts of the
    winning type are not part of what it returns. *)
Theorem resolveVerdicts_first_of_highest (vs : list Verdict) :
  match resolveVerdicts vs with
  | None => vs = []
  | Some w =>
      (∃ l1 l2, vs = l1 ++ w :: l2
         ∧ Forall (λ v, priority (vType v) < priority (vType w)) l1
         ∧ Forall (λ v, priority (vType v) ≤ priority (vType w)) l2)
      ∧ ((∃ v, v ∈ vs ∧ vType v = "deny") → vType w = "deny")
  end.
Proof.
  rewrite resolveVerdicts_fold. destruct vs as [|v0 vs]; [done|]. simpl.
  destruct (fold_pick_from vs v0) as (w & -> & Hw).
  assert (Hdec : ∃ l1 l2, v0 :: vs = l1 ++ w :: l2
         ∧ Forall (λ v, priority (vType v) < priority (vType w)) l1
         ∧ Forall (λ v, priority (vType v) ≤ priority (vType w)) l2).
  { destruct Hw as [[-> Hall]|(l1 & l2 & -> & Hlt & H1 & H2)].
    - exists [], vs. by repeat split.
    - exists (v0 :: l1), l2. repeat split; [|done]. by constructor. }
  split; [done|]. intros (v & Hin & Hdeny).
  destruct Hdec as (l1 & l2 & Heq & H1 & H2). apply priority_deny.
  assert (priority (vType v) = 4) as Hv4 by by apply priority_deny.
  pose proof (priority_le_4 (vType w)).
  rewrite Heq in Hin. apply elem_of_app in Hin as [Hin|Hin].
  - rewrite Forall_forall in H1. specialize (H1 _ Hin). lia.
  - apply elem_of_cons in Hin as [-> |Hin]; [done|].
    rewrite Forall_forall in H2. specialize (H2 _ Hin). lia.
Qed.

(** ** Comparison by formatted text *)

Lemma applyOp_equals rt a b :
  applyOp rt "equals" a b = String.eqb (Sprintf_v rt a) (Sprintf_v rt b).
Proof. reflexivity. Qed.

Lemma is_nil_false v : v ≠ VNil → is_nil v = false.
Proof. by destruct v. Qed.

Lemma eqb_empty_false s : s ≠ "" → String.eqb s "" = false.
Proof. intros H. by apply String.eqb_neq. Qed.

Lemma evalCondition_leaf rt cond facts :
  is_leaf cond →
  evalCondition rt cond facts =
    let val := (GetPath facts (cFact cond)).1 in
    if negb (is_nil (cEquals cond)) then applyOp rt "equals" val (cEquals cond)
    else if negb (is_nil (cGreaterThan cond)) then
      applyOp rt "greater_than" val (cGreaterThan cond)
    else if negb (is_nil (cLessThan cond)) then
      applyOp rt "less_than" val (cLessThan cond)
    else match cIn cond with
         | _ :: _ => existsb (λ v, applyOp rt "equals" val v) (cIn cond)
         | [] => true
         end.
Proof.
  intros (HAll & HAny & HNot & HFact). destruct cond; simpl in *. subst.
  by rewrite eqb_empty_false.
Qed.

(** C10: the equals comparison of leaf conditions, of the in operator and
    of the equals derivation holds exactly when the two values print the
    same text under %v; so the number 500 equals the string 500, and nil,
    the value of an absent fact, equals the string <nil>. *)
Theorem equals_compares_formatted_text (rt : GoRuntime) :
  (∀ a b, applyOp rt "equals" a b = true ↔ Sprintf_v rt a = Sprintf_v rt b)
  ∧ (∀ cond facts, is_leaf cond → cEquals cond ≠ VNil →
       evalCondition rt cond facts = true
       ↔ Sprintf_v rt (GetPath facts (cFact cond)).1 = Sprintf_v rt (cEquals cond))
  ∧ (∀ cond facts, is_leaf cond → cEquals cond = VNil →
       cGreaterThan cond = VNil → cLessThan cond = VNil → cIn cond ≠ [] →
       evalCondition rt cond facts = true
       ↔ ∃ v, v ∈ cIn cond
              ∧ Sprintf_v rt (GetPath facts (cFact cond)).1 = Sprintf_v rt v)
  ∧ (∀ d facts a0 a1 rest, Fn d = "equals" → Args d = a0 :: a1 :: rest →
       ∃ b, evalDerivation rt d facts = Ok (VBool b)
            ∧ (b = true ↔ Sprintf_v rt (getArg facts a0).1
                           = Sprintf_v rt (getArg facts a1).1))
  ∧ applyOp rt "equals" (VInt 500) (VString "500") = true
  ∧ (FormatFloat rt 500 64 = "500" →
       applyOp rt "equals" (VFloat64 500) (VString "500") = true)
  ∧ applyOp rt "equals" VNil (VString "<nil>") = true.
Proof.
  split_and!.
  - intros a b. rewrite applyOp_equals. apply String.eqb_eq.
  - intros cond facts Hleaf HE. rewrite evalCondition_leaf by done. simpl.
    rewrite is_nil_false by done. simpl. rewrite applyOp_equals.
    apply String.eqb_eq.
  - intros cond facts Hleaf HE HG HL HIn. rewrite evalCondition_leaf by done.
    simpl. rewrite HE, HG, HL. simpl.
    destruct (cIn cond) as [|v0 vs] eqn:HIn'; [done|]. split.
    + intros (v & Hv & Heq)%existsb_exists.
      exists v. split; [by apply list_elem_of_In|].
      rewrite applyOp_equals in Heq. by apply String.eqb_eq.
    + intros (v & Hv & Heq). apply existsb_exists.
      exists v. split; [by apply list_elem_of_In|].
      rewrite applyOp_equals. by apply String.eqb_eq.
  - intros d facts a0 a1 rest HFn HArgs. unfold evalDerivation.
    rewrite HFn, HArgs. simpl. eexists. split; [done|]. apply String.eqb_eq.
  - reflexivity.
  - intros Hfmt. rewrite applyOp_equals. simpl. rewrite Hfmt. reflexivity.
  - reflexivity.
Qed.

(** ** Leaf conditions on an absent fact *)

(** C8 at the failing input: on the empty fact set the leaf condition
    [absent.fact equals "<nil>"] evaluates to true, and so does the same
    literal under the in operator. *)
Theorem absent_fact_equals_nil_text (rt : GoRuntime) :
  GetPath NewFactSet "absent.fact" = (VNil, false)
  ∧ evalCondition rt (Examples.leaf_equals "absent.fact" (VString "<nil>"))
      NewFactSet = true
  ∧ evalCondition rt
      (mkCondition [] [] None "absent.fact" VNil VNil VNil [VString "<nil>"])
      NewFactSet = true.
Proof. by vm_compute. Qed.

(** Where the leaf is false on an absent fact: under greater_than and
    less_than always, under equals and in unless a literal prints as
    <nil>. *)
Lemma absent_fact_leaf rt cond facts :
  is_leaf cond →
  GetPath facts (cFact cond) = (VNil, false) →
  (cEquals cond ≠ VNil ∨ cGreaterThan cond ≠ VNil ∨ cLessThan cond ≠ VNil
   ∨ cIn cond ≠ []) →
  (cEquals cond ≠ VNil → Sprintf_v rt (cEquals cond) ≠ "<nil>") →
  Forall (λ v, Sprintf_v rt v ≠ "<nil>") (cIn cond) →
  evalCondition rt cond facts = false.
Proof.
  intros Hleaf Habs Hop Heq Hin. rewrite evalCondition_leaf by done.
  simpl. rewrite Habs. simpl.
  destruct (is_nil (cEquals cond)) eqn:HE; simpl.
  - destruct (is_nil (cGreaterThan cond)) eqn:HG; simpl.
    + destruct (is_nil (cLessThan cond)) eqn:HL; simpl.
      * destruct (cIn cond) as [|v0 vs] eqn:HIn.
        { destruct (cEquals cond), (cGreaterThan cond), (cLessThan cond);
            try discriminate; naive_solver. }
        apply not_true_is_false. intros (v & Hv & Hv')%existsb_exists.
        rewrite applyOp_equals in Hv'. apply String.eqb_eq in Hv'.
        rewrite Forall_forall in Hin. apply (Hin v); [by apply list_elem_of_In|].
        by rewrite <- Hv'.
      * unfold applyOp. simpl. by destruct (toFloat _).
    + unfold applyOp. simpl. by destruct (toFloat _).
  - rewrite applyOp_equals. apply String.eqb_neq. simpl.
    intros Hnil. apply Heq; [|done]. intros Hv. by rewrite Hv in HE.
Qed.

(** ** Side effects: where Execute is called *)

Lemma gatherFacts_only_gets rt ports sched c operation input :
  Forall (λ ev, is_execute ev = false)
         (gatherFacts rt ports sched c operation input).2.
Proof.
  unfold gatherFacts. destruct (gather_range _ _ _ _ _ _) as [r started].
  assert (Forall (λ ev, is_execute ev = false)
            (map (λ nd : string * FactDef, EvGet (portName (Source nd.2)) nd.1)
                 started)) as Hgets.
  { apply Forall_forall. intros ev (nd & -> & _)%list_elem_of_fmap. done. }
  by destruct r.
Qed.

(** C2: a dry-run request never reaches the port's Execute, whatever the
    contract, the facts and the verdicts are. *)
Theorem dry_run_never_executes rt (e : Engine) (sched : Schedule) (req : Request) :
  DryRun req = true →
  Forall (λ ev, is_execute ev = false) (Evaluate rt e sched req).2.
Proof.
  intros Hdry. unfold Evaluate.
  destruct (contract e) as [c|]; [|by constructor].
  destruct (_ && _); [by constructor|].
  destruct (Operations c !! Operation req) as [op|]; [|by constructor].
  pose proof (gatherFacts_only_gets rt (ports e) sched c (Operation req)
                (Input req)) as Hgets.
  destruct (gatherFacts _ _ _ _ _ _) as [[facts0|[msg|fact reason outcome]] gets];
    simpl in Hgets; [|done..].
  destruct (deriveFacts _ _ _ _) as [facts|err]; [|done].
  by rewrite Hdry.
Qed.

Lemma dry_run_never_executes_witness :
  DryRun (Examples.dry "") = true
  ∧ ∀ rt, Forall (λ ev, is_execute ev = false)
      (Evaluate rt (Examples.engine_with Examples.require_contract)
         Examples.in_order (Examples.dry "")).2.
Proof.
  split; [reflexivity|]. intros rt. apply dry_run_never_executes. reflexivity.
Defined.

Lemma version_check_passes (e : Engine) (req : Request) :
  ContractETag req = "" ∨ ContractETag req = contractETag e →
  negb (String.eqb (ContractETag req) "")
  && negb (String.eqb (ContractETag req) (contractETag e)) = false.
Proof.
  intros [Heq|Heq]; rewrite Heq; [done|]. rewrite String.eqb_refl.
  by destruct (negb _).
Qed.

(** A live request whose resolved verdict is a require verdict goes on to
    Execute, as one with a flag verdict or none does. *)
Lemma require_goes_on_to_execute rt (e : Engine) (sched : Schedule)
    (req : Request) (c : Contract) (op : OperationDef) (facts0 facts : FactSet)
    (gets : list PortEvent) (v : Verdict) :
  contract e = Some c →
  ContractETag req = "" ∨ ContractETag req = contractETag e →
  Operations c !! Operation req = Some op →
  gatherFacts rt (ports e) sched c (Operation req) (Input req) = (Ok facts0, gets) →
  deriveFacts rt sched c facts0 = Ok facts →
  DryRun req = false →
  resolveVerdicts (evaluateRules rt c (Operation req) facts) = Some v →
  vType v = "require" →
  (Evaluate rt e sched req).2
  = gets ++ [EvExecute (operationPort op) (Operation req)].
Proof.
  intros Hc Hetag Hop Hgather Hderive Hlive Hfinal Htype.
  unfold Evaluate. rewrite Hc.
  rewrite (version_check_passes e req Hetag).
  rewrite Hop, Hgather, Hderive, Hlive, Hfinal, Htype. simpl.
  unfold execute_step. by destruct (port_Execute _ _ _ _).
Qed.

(** C1 at the failing input: the only rule of the contract matches with a
    require verdict, which is the resolved verdict; the live request still
    goes on to Execute and is answered as executed. *)
Theorem require_verdict_reaches_execute (rt : GoRuntime) :
  resolveVerdicts
    (evaluateRules rt Examples.require_contract "ProcessPayment" NewFactSet)
    = Some {| vType := "require"; vCode := ""; vReason := "MFA needed";
              vError := None; vQueue := "" |}
  ∧ Evaluate rt (Examples.engine_with Examples.require_contract)
      Examples.in_order (Examples.live "")
    = (Ok {| Outcome := "executed"; Output := Some ∅; Error := None;
             Verdicts := [ {| vType := "require"; vCode := "";
                              vReason := "MFA needed"; vError := None;
                              vQueue := "" |} ];
             FactSnapshot := None; rDryRun := false |},
       [EvExecute "invoiceRepo" "ProcessPayment"]).
Proof. split; by vm_compute. Qed.

(** ** The version check *)

(** C4: a request that names a contract version other than the captured
    one makes no call into any port, and against a loaded contract it is
    answered with the version-conflict error; [DryRun] plays no part. *)
Theorem version_mismatch_rejected rt (e : Engine) (sched : Schedule) (req : Request) :
  ContractETag req ≠ "" →
  ContractETag req ≠ contractETag e →
  (Evaluate rt e sched req).2 = []
  ∧ (∀ c, contract e = Some c →
       (Evaluate rt e sched req).1 = Ok version_mismatch
       ∧ Outcome version_mismatch = "system_error"
       ∧ (eCode <$> Error version_mismatch) = Some "CONTRACT_VERSION_MISMATCH"
       ∧ (eHttpStatus <$> Error version_mismatch) = Some 409).
Proof.
  intros Hne Hdiff. unfold Evaluate.
  apply String.eqb_neq in Hne, Hdiff. rewrite Hne, Hdiff. simpl.
  destruct (contract e) as [c|]; [|by split].
  split; [done|]. by intros c' [= <-].
Qed.

Lemma version_mismatch_rejected_witness :
  ContractETag (Examples.dry "etag-0") ≠ ""
  ∧ ContractETag (Examples.dry "etag-0")
    ≠ contractETag (Examples.engine_with Examples.require_contract)
  ∧ ∀ rt,
      (Evaluate rt (Examples.engine_with Examples.require_contract)
         Examples.in_order (Examples.dry "etag-0")).2 = []
      ∧ (Evaluate rt (Examples.engine_with Examples.require_contract)
           Examples.in_order (Examples.live "etag-0")).1 = Ok version_mismatch.
Proof.
  split; [discriminate|]. split; [discriminate|]. intros rt. split.
  - exact (proj1 (version_mismatch_rejected rt
             (Examples.engine_with Examples.require_contract)
             Examples.in_order (Examples.dry "etag-0")
             ltac:(discriminate) ltac:(discriminate))).
  - exact (proj1 (proj2 (version_mismatch_rejected rt
             (Examples.engine_with Examples.require_contract)
             Examples.in_order (Examples.live "etag-0")
             ltac:(discriminate) ltac:(discriminate)) _ eq_refl)).
Defined.

(** ** The dry-run response *)

(** C9 fails as stated: two contracts that differ in the id of their one
    rule are answered with the same dry-run response, while the matched
    rule ids differ; the response does not carry them. *)
Lemma dry_run_response_hides_rule_ids :
  (∀ rt,
     Evaluate rt (Examples.engine_with (Examples.flag_contract "r1"))
       Examples.in_order (Examples.dry "")
     = Evaluate rt (Examples.engine_with (Examples.flag_contract "r2"))
         Examples.in_order (Examples.dry ""))
  ∧ (∀ rt, matchedRules rt (Examples.flag_contract "r1")
             "ProcessPayment" NewFactSet = ["r1"])
  ∧ (∀ rt, matchedRules rt (Examples.flag_contract "r2")
             "ProcessPayment" NewFactSet = ["r2"]).
Proof. split_and!; intros rt; by vm_compute. Qed.

Lemma dryRunOutcome_would v : dryRunOutcome v ∈ would_outcomes.
Proof.
  unfold dryRunOutcome, would_outcomes. destruct v as [v|]; [|set_solver].
  repeat case_match; set_solver.
Qed.

(** C9, amended: a dry run that passes the version check, gathering and
    derivation is answered with the dry-run flag, a [would_*] outcome (the
    one of the resolved verdict), the full fact snapshot, and the list of
    the verdicts of the matched rules (type, code, reason) in place of
    their ids; the calls made are those of the gathering. *)
Theorem dry_run_response rt (e : Engine) (sched : Schedule) (req : Request)
    (c : Contract) (op : OperationDef) (facts0 facts : FactSet)
    (gets : list PortEvent) :
  contract e = Some c →
  ContractETag req = "" ∨ ContractETag req = contractETag e →
  Operations c !! Operation req = Some op →
  gatherFacts rt (ports e) sched c (Operation req) (Input req) = (Ok facts0, gets) →
  deriveFacts rt sched c facts0 = Ok facts →
  DryRun req = true →
  Evaluate rt e sched req
  = (Ok {| Outcome := dryRunOutcome
                        (resolveVerdicts (evaluateRules rt c (Operation req) facts));
           Output := None; Error := None;
           Verdicts := evaluateRules rt c (Operation req) facts;
           FactSnapshot := Some facts; rDryRun := true |}, gets)
  ∧ dryRunOutcome (resolveVerdicts (evaluateRules rt c (Operation req) facts))
    ∈ would_outcomes.
Proof.
  intros Hc Hetag Hop Hgather Hderive Hdry. split; [|apply dryRunOutcome_would].
  unfold Evaluate. rewrite Hc.
  rewrite (version_check_passes e req Hetag).
  by rewrite Hop, Hgather, Hderive, Hdry.
Qed.

Lemma dry_run_response_witness :
  DryRun (Examples.dry "etag-1") = true
  ∧ ∀ rt,
      Evaluate rt (Examples.engine_with (Examples.flag_contract "r1"))
        Examples.in_order (Examples.dry "etag-1")
      = (Ok {| Outcome := "would_execute_with_flags"; Output := None;
               Error := None;
               Verdicts := [ {| vType := "flag"; vCode := "LARGE_PAYMENT";
                                vReason := "large payment"; vError := None;
                                vQueue := "" |} ];
               FactSnapshot := Some ∅; rDryRun := true |}, []).
Proof.
  split; [reflexivity|]. intros rt.
  apply (dry_run_response rt
           (Examples.engine_with (Examples.flag_contract "r1"))
           Examples.in_order (Examples.dry "etag-1")
           (Examples.flag_contract "r1")
           {| ConstrainedBy := ["r1"]; Transitions := [] |} ∅ ∅ []);
    [reflexivity | right; reflexivity | reflexivity | reflexivity
    | reflexivity | reflexivity].
Defined.

(** ** Topological order of the derived facts *)

Lemma visit_unfold dfs fuel name st :
  visit dfs (S fuel) name st =
    if decide (name ∈ visited st) then Some st
    else
      let st1 := {| visited := {[name]} ∪ visited st; order := order st |} in
      match dfs !! name with
      | None => Some st1
      | Some df =>
          match foldM (visit_arg dfs fuel) st1 (Args (derivation df)) with
          | Some st2 =>
              Some {| visited := visited st2; order := order st2 ++ [name] |}
          | None => None
          end
      end.
Proof. reflexivity. Qed.

Lemma unvisited_mono dfs st st' :
  visited st ⊆ visited st' → (unvisited dfs st' ≤ unvisited dfs st)%nat.
Proof. intros H. apply subseteq_size. set_solver. Qed.

Lemma unvisited_mark dfs st name :
  name ∉ visited st → is_Some (dfs !! name) →
  (unvisited dfs {| visited := {[name]} ∪ visited st; order := order st |}
   < unvisited dfs st)%nat.
Proof.
  intros Hnot Hin. apply subset_size. simpl.
  apply elem_of_dom in Hin. set_solver.
Qed.

Lemma unvisited_le_size dfs st : (unvisited dfs st ≤ size dfs)%nat.
Proof.
  unfold unvisited. rewrite <- (size_dom (D := gset string) dfs).
  apply subseteq_size. set_solver.
Qed.

(** *** Enough fuel: the recursion of [visit] is never cut short *)

Lemma visit_args_total dfs fuel :
  (∀ name st, (unvisited dfs st < fuel)%nat →
     ∃ st', visit dfs fuel name st = Some st' ∧ visited st ⊆ visited st') →
  ∀ args st, (unvisited dfs st < fuel)%nat →
    ∃ st', foldM (visit_arg dfs fuel) st args = Some st'
           ∧ visited st ⊆ visited st'.
Proof.
  intros IH args. induction args as [|arg args IHargs]; intros st Hfuel; simpl.
  - by exists st.
  - unfold visit_arg at 1. destruct (negb _).
    + destruct (IH (argFact arg) st Hfuel) as (st1 & -> & Hsub).
      destruct (IHargs st1) as (st2 & -> & Hsub2).
      { pose proof (unvisited_mono dfs _ _ Hsub). lia. }
      exists st2. split; [done|]. set_solver.
    + by apply IHargs.
Qed.

Lemma visit_total dfs fuel : ∀ name st,
  (unvisited dfs st < fuel)%nat →
  ∃ st', visit dfs fuel name st = Some st' ∧ visited st ⊆ visited st'.
Proof.
  induction fuel as [|fuel IH]; intros name st Hfuel; [lia|].
  rewrite visit_unfold. destruct (decide (name ∈ visited st)) as [Hin|Hnot].
  { by exists st. }
  simpl. destruct (dfs !! name) as [df|] eqn:Hdf.
  - destruct (visit_args_total dfs fuel IH (Args (derivation df))
                {| visited := {[name]} ∪ visited st; order := order st |})
      as (st2 & -> & Hsub).
    { pose proof (unvisited_mark dfs st name Hnot). rewrite Hdf in H.
      specialize (H (mk_is_Some _ _ eq_refl)). lia. }
    eexists. split; [done|]. simpl in *. set_solver.
  - eexists. split; [done|]. simpl. set_solver.
Qed.

Lemma topoSort_run_total dfs keys :
  ∃ st, topoSort_run dfs keys = Some st.
Proof.
  unfold topoSort_run. generalize {| visited := ∅; order := [] |}.
  induction keys as [|k keys IH]; intros st; cbn [foldM]; [by eexists|].
  destruct (visit_total dfs (S (size dfs)) k st) as (st1 & -> & _).
  { pose proof (unvisited_le_size dfs st). lia. }
  apply IH.
Qed.

(** *** What a visit establishes *)

Lemma grows_refl st : grows st st.
Proof. split; [done|]. intros x Hx. by left. Qed.

Lemma grows_trans st1 st2 st3 : grows st1 st2 → grows st2 st3 → grows st1 st3.
Proof.
  intros [Hv12 Ho12] [Hv23 Ho23]. split; [set_solver|].
  intros x Hx. destruct (Ho23 x Hx) as [Hx2|Hx2].
  - by apply Ho12.
  - right. set_solver.
Qed.

Lemma visit_args_spec dfs fuel :
  (∀ name st st' stack, visit dfs fuel name st = Some st' →
     topo_inv dfs stack st → (∀ s, s ∈ stack → tc (edge dfs) s name) →
     topo_inv dfs stack st' ∧ grows st st' ∧ name ∈ visited st') →
  ∀ args st st' stack,
    foldM (visit_arg dfs fuel) st args = Some st' →
    topo_inv dfs stack st →
    (∀ arg s, arg ∈ args → argFact arg ≠ "" → s ∈ stack →
       tc (edge dfs) s (argFact arg)) →
    topo_inv dfs stack st' ∧ grows st st'
    ∧ (∀ arg, arg ∈ args → argFact arg ≠ "" → argFact arg ∈ visited st').
Proof.
  intros IH args.
  induction args as [|arg args IHargs]; intros st st' stack Hrun Hinv Hstack.
  - simpl in Hrun. injection Hrun as <-.
    split_and!; [done | apply grows_refl | intros arg Harg; set_solver].
  - simpl in Hrun. unfold visit_arg at 1 in Hrun.
    destruct (String.eqb_spec (argFact arg) "") as [Hempty|Hfact]; simpl in Hrun.
    + destruct (IHargs st st' stack Hrun Hinv) as (Hinv' & Hgrow & Hargs).
      { intros a s Ha. apply Hstack. set_solver. }
      split_and!; [done..|].
      intros a [-> |Ha]%elem_of_cons Hne; [done|]. by apply Hargs.
    + destruct (visit dfs fuel (argFact arg) st) as [st1|] eqn:Hvisit; [|done].
      destruct (IH _ _ _ stack Hvisit Hinv) as (Hinv1 & Hgrow1 & Hmark).
      { intros s Hs. apply Hstack; [set_solver|done..]. }
      destruct (IHargs st1 st' stack Hrun Hinv1) as (Hinv' & Hgrow & Hargs).
      { intros a s Ha. apply Hstack. set_solver. }
      split_and!; [done | by eapply grows_trans |].
      intros a [-> |Ha]%elem_of_cons Hne; [|by apply Hargs].
      destruct Hgrow as [Hsub _]. set_solver.
Qed.

Lemma topo_inv_mark dfs stack st name :
  topo_inv dfs stack st → name ∉ visited st →
  topo_inv dfs (name :: stack)
    {| visited := {[name]} ∪ visited st; order := order st |}.
Proof.
  intros (Hnd & Hord & Hvis & Htopo) Hnot. split_and!; simpl; [done| | |done].
  - intros n Hn. destruct (Hord n Hn). split; [set_solver|done].
  - intros n [->%elem_of_singleton|Hn]%elem_of_union Hsome; [set_solver|].
    destruct (Hvis n Hn Hsome); [by left|right; set_solver].
Qed.

Lemma topo_inv_mark_base dfs stack st name :
  topo_inv dfs stack st → dfs !! name = None →
  topo_inv dfs stack {| visited := {[name]} ∪ visited st; order := order st |}.
Proof.
  intros (Hnd & Hord & Hvis & Htopo) Hnone. split_and!; simpl; [done| | |done].
  - intros n Hn. destruct (Hord n Hn). split; [set_solver|done].
  - intros n [->%elem_of_singleton|Hn]%elem_of_union Hsome.
    + rewrite Hnone in Hsome. by destruct Hsome.
    + by apply Hvis.
Qed.

(** Leaving a visited name: it goes from the stack into the order. *)
Lemma topo_inv_append dfs stack st st2 name df :
  topo_inv dfs stack st → name ∉ visited st →
  dfs !! name = Some df →
  topo_inv dfs (name :: stack) st2 →
  grows {| visited := {[name]} ∪ visited st; order := order st |} st2 →
  (∀ arg, arg ∈ Args (derivation df) → argFact arg ≠ "" →
     argFact arg ∈ visited st2) →
  (∀ s, s ∈ stack → tc (edge dfs) s name) →
  topo_inv dfs stack {| visited := visited st2; order := order st2 ++ [name] |}.
Proof.
  intros (_ & Hord & _ & _) Hnot Hdf (Hnd2 & Hord2 & Hvis2 & Htopo2)
         [Hsub Hnew] Hargs Hstack.
  simpl in Hsub, Hnew.
  assert (name ∉ order st2) as Hfresh.
  { intros Hin. destruct (Hnew _ Hin) as [Hold|Hold]; [|set_solver].
    by destruct (Hord _ Hold). }
  split_and!; simpl.
  - apply NoDup_app. split_and!; [done| |apply NoDup_singleton].
    intros x Hx ->%list_elem_of_singleton. done.
  - intros n [Hn| ->%list_elem_of_singleton]%elem_of_app.
    + by apply Hord2.
    + split; [set_solver|by eexists].
  - intros n Hn Hsome. destruct (Hvis2 n Hn Hsome) as [Hin|Hin].
    + left. set_solver.
    + apply elem_of_cons in Hin as [-> |Hin]; [left; set_solver|by right].
  - intros i n f [[Hi Hn]|[Hi Hn]]%lookup_snoc_Some Hedge Hsome; subst.
    + destruct (Htopo2 i n f Hn Hedge Hsome) as [(j & Hj & Hf)|Hcyc]; [|by right].
      left. exists j. split; [done|]. by apply lookup_app_l_Some.
    + destruct Hedge as (df' & arg & Hdf' & Harg & Hfact & Hne).
      rewrite Hdf in Hdf'. injection Hdf' as <-. subst f.
      destruct (Hvis2 (argFact arg) (Hargs arg Harg Hne) Hsome) as [Hin|Hin].
      * left. apply list_elem_of_lookup in Hin as [j Hj].
        exists j. split; [by eapply lookup_lt_Some|].
        by apply lookup_app_l_Some.
      * right. apply elem_of_cons in Hin as [Heq|Hin].
        -- rewrite Heq. apply tc_once. exists df, arg.
           split_and!; [done..|]. by rewrite <- Heq.
        -- by apply Hstack.
Qed.

Lemma visit_spec dfs fuel : ∀ name st st' stack,
  visit dfs fuel name st = Some st' →
  topo_inv dfs stack st → (∀ s, s ∈ stack → tc (edge dfs) s name) →
  topo_inv dfs stack st' ∧ grows st st' ∧ name ∈ visited st'.
Proof.
  induction fuel as [|fuel IH]; intros name st st' stack Hrun Hinv Hstack;
    [done|].
  rewrite visit_unfold in Hrun.
  destruct (decide (name ∈ visited st)) as [Hin|Hnot].
  { injection Hrun as <-. split_and!; [done|apply grows_refl|done]. }
  simpl in Hrun. destruct (dfs !! name) as [df|] eqn:Hdf.
  - destruct (foldM _ _ _) as [st2|] eqn:Hloop; [|done]. injection Hrun as <-.
    destruct (visit_args_spec dfs fuel IH _ _ _ (name :: stack) Hloop)
      as (Hinv2 & Hgrow2 & Hargs).
    { by apply topo_inv_mark. }
    { intros arg s Harg Hne [-> |Hs]%elem_of_cons.
      - apply tc_once. by exists df, arg.
      - eapply tc_r; [by apply Hstack|]. by exists df, arg. }
    split_and!.
    + by eapply topo_inv_append.
    + destruct Hgrow2 as [Hsub Hnew]. simpl in *. split; simpl; [set_solver|].
      intros x [Hx| ->%list_elem_of_singleton]%elem_of_app; [|by right].
      destruct (Hnew x Hx); [by left|right; set_solver].
    + destruct Hgrow2 as [Hsub _]. simpl in *. set_solver.
  - injection Hrun as <-. split_and!.
    + by apply topo_inv_mark_base.
    + split; simpl; [set_solver|]. intros x Hx. by left.
    + simpl. set_solver.
Qed.

Lemma topo_inv_init dfs : topo_inv dfs [] {| visited := ∅; order := [] |}.
Proof.
  split_and!; simpl.
  - constructor.
  - intros n Hn. by apply elem_of_nil in Hn.
  - intros n Hn. set_solver.
  - intros i n f Hi. by rewrite lookup_nil in Hi.
Qed.

Lemma topoSort_run_spec dfs keys : ∀ st st',
  foldM (λ st name, visit dfs (S (size dfs)) name st) st keys = Some st' →
  topo_inv dfs [] st →
  topo_inv dfs [] st' ∧ visited st ⊆ visited st'
  ∧ (∀ k, k ∈ keys → k ∈ visited st').
Proof.
  induction keys as [|k keys IH]; intros st st' Hrun Hinv; cbn [foldM] in Hrun.
  - injection Hrun as <-. split_and!; [done..|]. intros k Hk. set_solver.
  - destruct (visit dfs (S (size dfs)) k st) as [st1|] eqn:Hvisit; [|done].
    destruct (visit_spec _ _ _ _ _ [] Hvisit Hinv) as (Hinv1 & [Hsub1 _] & Hk).
    { intros s Hs. set_solver. }
    destruct (IH _ _ Hrun Hinv1) as (Hinv' & Hsub & Hkeys).
    split_and!; [done|set_solver|].
    intros k' [-> |Hk']%elem_of_cons; [set_solver|by apply Hkeys].
Qed.

(** [topoSort] returns every derived fact once, and a derived fact that a
    fact of the order references stands before it or lies on a cycle
    through it. *)
Lemma topoSort_spec dfs keys :
  (∀ n, is_Some (dfs !! n) → n ∈ keys) →
  let sorted := topoSort dfs keys in
  NoDup sorted
  ∧ (∀ n, n ∈ sorted ↔ is_Some (dfs !! n))
  ∧ (∀ i n f, sorted !! i = Some n → edge dfs n f → is_Some (dfs !! f) →
       (∃ j, (j < i)%nat ∧ sorted !! j = Some f) ∨ tc (edge dfs) f n).
Proof.
  intros Hkeys. unfold topoSort.
  destruct (topoSort_run_total dfs keys) as [st Hrun]. rewrite Hrun. simpl.
  destruct (topoSort_run_spec dfs keys _ _ Hrun (topo_inv_init dfs))
    as ((Hnd & Hord & Hvis & Htopo) & _ & Hall).
  split_and!; [done| |done].
  intros n. split; [by intros [_ ?]%Hord|].
  intros Hn. destruct (Hvis n (Hall n (Hkeys n Hn)) Hn) as [?|Hnil]; [done|].
  by apply elem_of_nil in Hnil.
Qed.

Lemma range_covers_keys (sched : Schedule) (dfs : gmap string DerivedFactDef) :
  valid_schedule sched →
  ∀ n, is_Some (dfs !! n) → n ∈ range_derived sched (elements (dom dfs)).
Proof.
  intros (_ & _ & Hperm) n Hn. rewrite (Hperm _).
  apply elem_of_elements. by apply elem_of_dom.
Qed.

(** ** Derivation in dependency order *)

Lemma evalDerivation_known rt d facts :
  known_fn (Fn d) → ∃ v, evalDerivation rt d facts = Ok v.
Proof.
  unfold known_fn, evalDerivation. intros Hfn.
  repeat (apply elem_of_cons in Hfn as [-> | Hfn];
          [simpl; repeat case_match; by eexists|]).
  by apply elem_of_nil in Hfn.
Qed.

Lemma evalDerivation_err rt d facts e :
  evalDerivation rt d facts = Err e → ¬ known_fn (Fn d).
Proof.
  unfold known_fn, evalDerivation. intros Herr Hfn.
  repeat (apply elem_of_cons in Hfn as [Heq | Hfn];
          [rewrite Heq in Herr; simpl in Herr; repeat case_match; discriminate|]).
  by apply elem_of_nil in Hfn.
Qed.

Lemma derive_loop_spec rt c names : ∀ facts,
  (derive_loop rt c names facts).2 `prefix_of` names
  ∧ (∀ facts', (derive_loop rt c names facts).1 = Ok facts' →
       (derive_loop rt c names facts).2 = names)
  ∧ (∀ e, (derive_loop rt c names facts).1 = Err e →
       ∃ n, n ∈ names
            ∧ ¬ known_fn (Fn (derivation (lookup_derived (DerivedFacts c) n)))).
Proof.
  induction names as [|name names IH]; intros facts; simpl.
  - split_and!; [done..|]. intros e He. discriminate.
  - destruct (evalDerivation _ _ _) as [val|e0] eqn:Heval; simpl.
    + destruct (IH (Set_ facts name val)) as (Hpre & Hok & Herr).
      destruct (derive_loop _ _ _ _) as [r evaluated]. simpl in *.
      split_and!.
      * by apply prefix_cons.
      * intros facts' ->. f_equal. by eapply Hok.
      * intros e ->. destruct (Herr e eq_refl) as (n & Hn & Hfn).
        exists n. split; [set_solver|done].
    + split_and!.
      * by apply prefix_cons, prefix_nil.
      * intros facts' H. discriminate.
      * intros e _. exists name. split; [set_solver|].
        by eapply evalDerivation_err.
Qed.

Lemma derive_loop_known rt c names : ∀ facts,
  (∀ n, n ∈ names →
     known_fn (Fn (derivation (lookup_derived (DerivedFacts c) n)))) →
  ∃ facts', derive_loop rt c names facts = (Ok facts', names).
Proof.
  induction names as [|name names IH]; intros facts Hknown; simpl.
  - by eexists.
  - destruct (evalDerivation_known rt
                (derivation (lookup_derived (DerivedFacts c) name)) facts)
      as [val ->]; [apply Hknown; set_solver|].
    destruct (IH (Set_ facts name val)) as [facts' ->].
    { intros n Hn. apply Hknown. set_solver. }
    by eexists.
Qed.

Lemma lookup_derived_known dfs n :
  (∀ k df, dfs !! k = Some df → known_fn (Fn (derivation df))) →
  is_Some (dfs !! n) → known_fn (Fn (derivation (lookup_derived dfs n))).
Proof.
  intros Hall [df Hdf]. unfold lookup_derived. rewrite Hdf. simpl. by eapply Hall.
Qed.

Lemma lookup_derived_unknown dfs n :
  is_Some (dfs !! n) →
  ¬ known_fn (Fn (derivation (lookup_derived dfs n))) →
  ∃ df, dfs !! n = Some df ∧ ¬ known_fn (Fn (derivation df)).
Proof.
  intros [df Hdf]. unfold lookup_derived. rewrite Hdf. simpl. by exists df.
Qed.




Lemma cyclic_has_cycle : has_cycle Examples.cyclic.
Proof.
  exists "a". eapply tc_l; [|apply tc_once].
  - exists (Examples.derived "not" [Examples.ref "b"]), (Examples.ref "b").
    split_and!; [done|set_solver|done..].
  - exists (Examples.derived "not" [Examples.ref "a"]), (Examples.ref "a").
    split_and!; [done|set_solver|done..].
Qed.

Lemma in_order_valid : valid_schedule Examples.in_order.
Proof. by split_and!. Qed.

Lemma deriveFacts_traced_fst rt sched c facts :
  (deriveFacts_traced rt sched c facts).1 = deriveFacts rt sched c facts.
Proof. reflexivity. Qed.

(** What [deriveFacts] does on any graph, with or without a cycle. *)
Lemma deriveFacts_spec rt (sched : Schedule) (c : Contract) (facts : FactSet) :
  valid_schedule sched →
  let dfs := DerivedFacts c in
  let keys := range_derived sched (elements (dom dfs)) in
  let sorted := topoSort dfs keys in
  (∃ st, topoSort_run dfs keys = Some st ∧ order st = sorted)
  ∧ NoDup sorted
  ∧ (∀ n, n ∈ sorted ↔ is_Some (dfs !! n))
  ∧ (∀ i n f, sorted !! i = Some n → edge dfs n f → is_Some (dfs !! f) →
       (∃ j, (j < i)%nat ∧ sorted !! j = Some f) ∨ tc (edge dfs) f n)
  ∧ (deriveFacts_traced rt sched c facts).2 `prefix_of` sorted
  ∧ (∀ facts', deriveFacts rt sched c facts = Ok facts' →
       (deriveFacts_traced rt sched c facts).2 = sorted)
  ∧ ((∀ n df, dfs !! n = Some df → known_fn (Fn (derivation df))) →
       ∃ facts', deriveFacts_traced rt sched c facts = (Ok facts', sorted))
  ∧ (∀ e, deriveFacts rt sched c facts = Err e →
       ∃ n df, dfs !! n = Some df ∧ ¬ known_fn (Fn (derivation df))).
Proof.
  intros Hvalid dfs keys sorted.
  destruct (topoSort_spec dfs keys (range_covers_keys sched dfs Hvalid))
    as (Hnd & Hall & Htopo).
  fold sorted in Hnd, Hall, Htopo.
  destruct (derive_loop_spec rt c sorted facts) as (Hpre & Hok & Herr).
  split_and!; try done.
  - destruct (topoSort_run_total dfs keys) as [st Hrun]. exists st.
    split; [done|]. unfold sorted, topoSort. by rewrite Hrun.
  - intros Hknown. apply derive_loop_known. intros n Hn.
    apply lookup_derived_known; [done|]. by apply Hall.
  - intros e He. destruct (Herr e He) as (n & Hn & Hfn).
    exists n. apply lookup_derived_unknown; [|done]. by apply Hall.
Qed.







(** C5 fails as stated: on a graph with a cycle [deriveFacts] returns
    without error, having evaluated the facts in the order of the sort. *)
Lemma derive_accepts_cycle :
  has_cycle (DerivedFacts Examples.cyclic_contract)
  ∧ ∀ rt, deriveFacts_traced rt Examples.in_order
            Examples.cyclic_contract NewFactSet
          = (Ok {[ "a" := VBool true; "b" := VBool false ]}, ["b"; "a"]).
Proof. split; [exact cyclic_has_cycle | intros rt; by vm_compute]. Qed.

(** C5, amended: on a graph with a cycle [deriveFacts] does not detect
    the cycle.  The sort ends, having marked each name once, and yields
    every derived fact exactly once in some order; the derivations are
    evaluated in that order, and the only error is an unknown derivation
    function. *)
Theorem derive_ignores_cycles rt (sched : Schedule) (c : Contract)
    (facts : FactSet) :
  has_cycle (DerivedFacts c) →
  valid_schedule sched →
  let dfs := DerivedFacts c in
  let keys := range_derived sched (elements (dom dfs)) in
  let sorted := topoSort dfs keys in
  (∃ st, topoSort_run dfs keys = Some st ∧ order st = sorted)
  ∧ NoDup sorted
  ∧ (∀ n, n ∈ sorted ↔ is_Some (dfs !! n))
  ∧ ((∀ n df, dfs !! n = Some df → known_fn (Fn (derivation df))) →
       ∃ facts', deriveFacts_traced rt sched c facts = (Ok facts', sorted))
  ∧ (∀ e, deriveFacts rt sched c facts = Err e →
       ∃ n df, dfs !! n = Some df ∧ ¬ known_fn (Fn (derivation df))).
Proof.
  intros _ Hvalid dfs keys sorted.
  destruct (deriveFacts_spec rt sched c facts Hvalid)
    as (Hrun & Hnd & Hall & _ & _ & _ & Hknown & Herr).
  by split_and!.
Qed.

Lemma derive_ignores_cycles_witness :
  has_cycle (DerivedFacts Examples.cyclic_contract)
  ∧ valid_schedule Examples.in_order
  ∧ ∀ rt e,
      deriveFacts rt Examples.in_order Examples.cyclic_contract NewFactSet
      = Err e →
      ∃ n df, DerivedFacts Examples.cyclic_contract !! n = Some df
              ∧ ¬ known_fn (Fn (derivation df)).
Proof.
  split; [exact cyclic_has_cycle|]. split; [exact in_order_valid|]. intros rt.
  destruct (derive_ignores_cycles rt Examples.in_order
              Examples.cyclic_contract NewFactSet
              cyclic_has_cycle in_order_valid) as (_ & _ & _ & _ & Herr).
  exact Herr.
Defined.

(** ** The needed base facts *)

Lemma addPath_unfold c fuel path st :
  addPath c (S fuel) path st =
    if decide (is_Some (Facts c !! path)) then
      Some {| needed := {[path]} ∪ needed st;
              derivedVisited := derivedVisited st |}
    else
      match DerivedFacts c !! path with
      | Some df =>
          if decide (path ∈ derivedVisited st) then Some st
          else foldM (addPath_arg c fuel)
                 {| needed := needed st;
                    derivedVisited := {[path]} ∪ derivedVisited st |}
                 (Args (derivation df))
      | None =>
          let parts := Split "." path in
          match longest_prefix c parts (length parts - 1)%nat with
          | None => Some st
          | Some prefix =>
              if decide (is_Some (Facts c !! prefix)) then
                Some {| needed := {[prefix]} ∪ needed st;
                        derivedVisited := derivedVisited st |}
              else addPath c fuel prefix st
          end
      end.
Proof. reflexivity. Qed.

Lemma longest_prefix_Some c parts i p :
  longest_prefix c parts i = Some p →
  is_Some (Facts c !! p) ∨ is_Some (DerivedFacts c !! p).
Proof.
  induction i as [|i IH]; simpl; [done|].
  repeat case_decide; intros; simplify_eq; auto.
Qed.

Lemma pending_mono c st st' :
  derivedVisited st ⊆ derivedVisited st' → (pending c st' ≤ pending c st)%nat.
Proof. intros H. apply subseteq_size. set_solver. Qed.

Lemma pending_mark c st path :
  path ∉ derivedVisited st → is_Some (DerivedFacts c !! path) →
  (pending c {| needed := needed st;
                derivedVisited := {[path]} ∪ derivedVisited st |}
   < pending c st)%nat.
Proof.
  intros Hnot Hin. apply subset_size. simpl.
  apply elem_of_dom in Hin. set_solver.
Qed.

Lemma pending_le_size c st : (pending c st ≤ size (DerivedFacts c))%nat.
Proof.
  unfold pending. rewrite <- (size_dom (D := gset string) (DerivedFacts c)).
  apply subseteq_size. set_solver.
Qed.

Lemma addPath_args_total c fuel :
  (∀ path st, enough_fuel c fuel path st →
     ∃ st', addPath c fuel path st = Some st'
            ∧ derivedVisited st ⊆ derivedVisited st') →
  ∀ args st, (2 * pending c st + 2 ≤ fuel)%nat →
    ∃ st', foldM (addPath_arg c fuel) st args = Some st'
           ∧ derivedVisited st ⊆ derivedVisited st'.
Proof.
  intros IH args. induction args as [|arg args IHargs]; intros st Hfuel; simpl.
  - by exists st.
  - unfold addPath_arg at 1. destruct (negb _).
    + destruct (IH (argFact arg) st) as (st1 & -> & Hsub); [by left|].
      destruct (IHargs st1) as (st2 & -> & Hsub2).
      { pose proof (pending_mono c _ _ Hsub). lia. }
      exists st2. split; [done|]. set_solver.
    + by apply IHargs.
Qed.

Lemma addPath_total c fuel : ∀ path st,
  enough_fuel c fuel path st →
  ∃ st', addPath c fuel path st = Some st'
         ∧ derivedVisited st ⊆ derivedVisited st'.
Proof.
  induction fuel as [|fuel IH]; intros path st Hfuel.
  { destruct Hfuel as [?|[? _]]; lia. }
  rewrite addPath_unfold.
  destruct (decide (is_Some (Facts c !! path))) as [Hfact|Hfact].
  { eexists. split; [done|]. simpl. set_solver. }
  destruct (DerivedFacts c !! path) as [df|] eqn:Hdf.
  - destruct (decide (path ∈ derivedVisited st)) as [Hin|Hnot].
    { by exists st. }
    destruct (addPath_args_total c fuel IH (Args (derivation df))
                {| needed := needed st;
                   derivedVisited := {[path]} ∪ derivedVisited st |})
      as (st2 & -> & Hsub).
    { pose proof (pending_mark c st path Hnot) as Hlt. rewrite Hdf in Hlt.
      specialize (Hlt (mk_is_Some _ _ eq_refl)).
      destruct Hfuel as [?|[? _]]; lia. }
    exists st2. split; [done|]. simpl in Hsub. set_solver.
  - destruct Hfuel as [Hfuel|(_ & _ & Hsome)];
      [|rewrite Hdf in Hsome; by destruct Hsome]. simpl.
    destruct (longest_prefix _ _ _) as [prefix|] eqn:Hprefix; [|by exists st].
    destruct (decide (is_Some (Facts c !! prefix))) as [Hpf|Hpf].
    { eexists. split; [done|]. simpl. set_solver. }
    apply IH. right. split_and!; [lia|done|].
    by destruct (longest_prefix_Some _ _ _ _ Hprefix).
Qed.

(** [neededBaseFacts] is never cut short by the bound on its recursion. *)
Lemma neededBaseFacts_run_total c operation :
  ∃ st, neededBaseFacts_run c operation = Some st
        ∧ neededBaseFacts c operation = needed st.
Proof.
  unfold neededBaseFacts. unfold neededBaseFacts_run.
  destruct (Operations c !! operation) as [op|]; [|by eexists].
  assert (∀ paths st, ∃ st',
            foldM (λ st path, addPath c (addPath_fuel c) path st) st paths
            = Some st') as Htotal.
  { induction paths as [|path paths IHp]; intros st; cbn [foldM]; [by eexists|].
    destruct (addPath_total c (addPath_fuel c) path st) as (st1 & -> & _).
    { left. unfold addPath_fuel. pose proof (pending_le_size c st). lia. }
    apply IHp. }
  destruct (Htotal (flat_map (λ r, collectFromCondition (When r))
                      (constraining_rules c op))
                   {| needed := ∅; derivedVisited := ∅ |}) as [st ->].
  by exists st.
Qed.

(** ** What a successful gathering holds *)

Lemma gather_step_ok rt c input name facts started facts' started' :
  gather_step rt c input name facts started = (Ok facts', started') →
  (∀ n, facts' !! n = if decide (n = name)
                      then range_value c input name (facts !! name)
                      else facts !! n)
  ∧ started' = started ++ launches c name
  ∧ (∀ def, Facts c !! name = Some def → Source def = "input" →
       input !! name = None → Required def = false).
Proof.
  unfold gather_step, range_value, launches, Set_.
  destruct (Facts c !! name) as [def|].
  - destruct (String.eqb_spec (Source def) "input") as [Hin|Hin].
    + destruct (input !! name) as [val|] eqn:Hval.
      * intros [= <- <-]. split_and!; [|by rewrite app_nil_r|congruence].
        intros n. case_decide as Hn; [subst; by rewrite lookup_insert_eq|].
        by rewrite lookup_insert_ne.
      * destruct (Required def) eqn:Hreq; [done|]. intros [= <- <-].
        split_and!; [|by rewrite app_nil_r|congruence].
        intros n. by case_decide; subst.
    + destruct (String.eqb (Source def) "ctx").
      * destruct (String.eqb name "user.roles"); intros [= <- <-];
          (split_and!; [|by rewrite app_nil_r|congruence]);
          intros n; case_decide as Hn; subst;
          rewrite ?lookup_insert_eq, ?lookup_insert_ne by done; done.
      * destruct (HasPrefix (Source def) "port:"); intros [= <- <-];
          (split_and!; [|by rewrite ?app_nil_r|congruence]);
          intros n; by case_decide; subst.
  - intros [= <- <-]. split_and!; [|by rewrite app_nil_r|done].
    intros n. by case_decide; subst.
Qed.

Lemma range_value_idem c input name old :
  range_value c input name (range_value c input name old)
  = range_value c input name old.
Proof. unfold range_value. by repeat case_match. Qed.

Lemma gather_range_ok rt c input names : ∀ facts started facts' started',
  gather_range rt c input names facts started = (Ok facts', started') →
  (∀ n, facts' !! n = if decide (n ∈ names)
                      then range_value c input n (facts !! n)
                      else facts !! n)
  ∧ started' = started ++ flat_map (launches c) names
  ∧ (∀ n def, n ∈ names → Facts c !! n = Some def → Source def = "input" →
       input !! n = None → Required def = false).
Proof.
  induction names as [|name names IH]; intros facts started facts' started' Hrun;
    simpl in Hrun.
  - injection Hrun as <- <-. split_and!; [|by rewrite app_nil_r|].
    + intros n. case_decide as Hn; [by apply elem_of_nil in Hn|done].
    + intros n def Hn. by apply elem_of_nil in Hn.
  - destruct (gather_step _ _ _ _ _ _) as [[facts1|e] started1] eqn:Hstep;
      [|done].
    apply gather_step_ok in Hstep as (Hlook1 & -> & Hreq1).
    apply IH in Hrun as (Hlook & -> & Hreq). split_and!.
    + intros n. rewrite Hlook, Hlook1.
      destruct (decide (n = name)) as [->|Hne].
      * rewrite (decide_True (P := name ∈ name :: names)) by set_solver.
        case_decide; [apply range_value_idem|done].
      * destruct (decide (n ∈ names)) as [Hin|Hnin].
        -- by rewrite (decide_True (P := n ∈ name :: names)) by set_solver.
        -- by rewrite (decide_False (P := n ∈ name :: names)) by set_solver.
    + simpl. by rewrite <- app_assoc.
    + intros n def [->|Hn]%elem_of_cons; [apply Hreq1|by apply Hreq].
Qed.

Lemma gather_collect_ok results : ∀ facts facts',
  gather_collect results facts = Ok facts' →
  NoDup (results.*1.*1) →
  ∀ name,
    ((∀ r def, (name, r, def) ∉ results) → facts' !! name = facts !! name)
    ∧ (∀ r def, (name, r, def) ∈ results →
         match r with
         | inl val => facts' !! name = Some val
         | inr _ => OnMissing def = "skip" ∧ facts' !! name = facts !! name
         end).
Proof.
  induction results as [|[[n0 r0] d0] results IH]; intros facts facts' Hrun Hnd name.
  { simpl in Hrun. injection Hrun as <-. split; [done|].
    intros r def Hin. by apply elem_of_nil in Hin. }
  simpl in Hnd. apply NoDup_cons in Hnd as [Hfresh Hnd].
  assert (∀ r def, (n0, r, def) ∉ results) as Hfresh'.
  { intros r def Hin. apply Hfresh.
    apply list_elem_of_fmap. exists (n0, r). split; [done|].
    apply list_elem_of_fmap. by exists (n0, r, def). }
  simpl in Hrun. destruct r0 as [val|reason].
  - destruct (IH _ _ Hrun Hnd name) as [Hout Hin].
    destruct (IH _ _ Hrun Hnd n0) as [Hout0 _].
    unfold Set_ in *. split.
    + intros Hnone. rewrite Hout.
      * rewrite lookup_insert_ne; [done|]. intros ->.
        apply (Hnone (inl val) d0). set_solver.
      * intros r def Hr. apply (Hnone r def). set_solver.
    + intros r def [[= -> -> ->]|Hr]%elem_of_cons.
      * rewrite Hout0 by done. by rewrite lookup_insert_eq.
      * specialize (Hin r def Hr). destruct r as [v|reason]; [done|].
        destruct Hin as [Hskip ->]. split; [done|].
        rewrite lookup_insert_ne; [done|]. intros ->. by apply (Hfresh' _ _ Hr).
  - destruct (String.eqb (OnMissing d0) "deny"); [done|].
    destruct (String.eqb_spec (OnMissing d0) "skip") as [Hskip|]; [|done].
    destruct (IH _ _ Hrun Hnd name) as [Hout Hin]. split.
    + intros Hnone. apply Hout. intros r def Hr. apply (Hnone r def). set_solver.
    + intros r def [[= -> -> ->]|Hr]%elem_of_cons; [|by apply Hin].
      split; [done|]. by apply Hout.
Qed.

Lemma launches_elem c name n d :
  (n, d) ∈ launches c name ↔
    n = name ∧ Facts c !! name = Some d
    ∧ String.eqb (Source d) "input" = false
    ∧ String.eqb (Source d) "ctx" = false
    ∧ HasPrefix (Source d) "port:" = true.
Proof.
  unfold launches. destruct (Facts c !! name) as [def|]; [|set_solver].
  destruct (String.eqb (Source def) "input") eqn:Hi.
  { split; [set_solver|]. intros (_ & [= <-] & ? & _). congruence. }
  destruct (String.eqb (Source def) "ctx") eqn:Hc.
  { split; [set_solver|]. intros (_ & [= <-] & _ & ? & _). congruence. }
  destruct (HasPrefix (Source def) "port:") eqn:Hp.
  - rewrite list_elem_of_singleton. split.
    + by intros [= -> ->].
    + by intros (-> & [= ->] & _).
  - split; [set_solver|]. intros (_ & [= <-] & _ & _ & ?). congruence.
Qed.

Lemma started_names c names n d :
  (n, d) ∈ flat_map (launches c) names → n ∈ names.
Proof.
  intros (name & Hname & Hin)%list_elem_of_In%in_flat_map.
  apply list_elem_of_In, launches_elem in Hin as (-> & _).
  by apply list_elem_of_In.
Qed.

Lemma started_NoDup c names :
  NoDup names → NoDup ((flat_map (launches c) names).*1).
Proof.
  induction 1 as [|name names Hfresh Hnd IH]; simpl; [constructor|].
  rewrite fmap_app. apply NoDup_app. split_and!; [| |done].
  - unfold launches. repeat case_match; simpl;
      (apply NoDup_nil_2 || apply NoDup_singleton).
  - intros n ([n' d] & -> & Hin)%list_elem_of_fmap
             ([n'' d'] & Heq & Hin')%list_elem_of_fmap. simpl in *. subst n''.
    apply launches_elem in Hin as (-> & _).
    by apply started_names in Hin'.
Qed.

Lemma started_def_found started n d :
  NoDup (started.*1) → (n, d) ∈ started → started_def started n = Some (n, d).
Proof.
  unfold started_def. induction started as [|[n0 d0] started IH]; simpl.
  { intros _ Hin. by apply elem_of_nil in Hin. }
  intros [Hfresh Hnd]%NoDup_cons [[= -> ->]|Hin]%elem_of_cons.
  - by rewrite String.eqb_refl.
  - destruct (String.eqb_spec n0 n) as [->|Hne]; [|by apply IH].
    destruct Hfresh. apply list_elem_of_fmap. by exists (n, d).
Qed.

Lemma started_def_Some started n nd :
  started_def started n = Some nd → nd ∈ started ∧ nd.1 = n.
Proof.
  unfold started_def. intros [Hin Heq]%find_some.
  split; [by apply list_elem_of_In|by apply String.eqb_eq].
Qed.

Lemma received_names (ports : PortRegistry) (input : gmap string any)
    (started : list (string * FactDef)) (recv : list string) (x : string) :
  x ∈ (map (λ nd : string * FactDef,
              (nd.1, port_Get ports (portName (Source nd.2)) nd.1 input, nd.2))
           (omap (started_def started) recv)).*1.*1 →
  x ∈ recv.
Proof.
  intros Hx. apply list_elem_of_fmap in Hx as (p & -> & Hp).
  apply list_elem_of_fmap in Hp as (q & -> & Hq).
  apply list_elem_of_fmap in Hq as (nd & -> & Hnd). simpl.
  apply list_elem_of_omap in Hnd as (n' & Hn' & Hdef).
  by apply started_def_Some in Hdef as [_ <-].
Qed.

(** The results received are those of the goroutines started, each once. *)
Lemma received_results (ports : PortRegistry) (input : gmap string any)
    (started : list (string * FactDef)) (recv : list string) :
  NoDup (started.*1) → recv ≡ₚ started.*1 →
  let results :=
    map (λ nd : string * FactDef,
           (nd.1, port_Get ports (portName (Source nd.2)) nd.1 input, nd.2))
        (omap (started_def started) recv) in
  NoDup (results.*1.*1)
  ∧ (∀ name r def, (name, r, def) ∈ results ↔
       (name, def) ∈ started
       ∧ r = port_Get ports (portName (Source def)) name input).
Proof.
  intros Hnd Hperm results. split.
  - assert (NoDup recv) as Hrecv by by rewrite Hperm.
    unfold results. clear Hperm results.
    induction Hrecv as [|n recv Hfresh Hrecv IH]; simpl; [constructor|].
    destruct (started_def started n) as [nd|] eqn:Hdef; [|done].
    simpl. apply NoDup_cons. split; [|done].
    apply started_def_Some in Hdef as [_ ->].
    intros Hin. destruct Hfresh. by eapply received_names.
  - intros name r def. unfold results. split.
    + intros ([n d] & [= -> -> ->] & Hin)%list_elem_of_fmap.
      apply list_elem_of_omap in Hin as (n' & Hn' & Hdef).
      by apply started_def_Some in Hdef as [? _].
    + intros [Hin ->]. apply list_elem_of_fmap. exists (name, def).
      split; [done|]. apply list_elem_of_omap. exists name. split.
      * rewrite Hperm. apply list_elem_of_fmap. by exists (name, def).
      * by apply started_def_found.
Qed.

Lemma started_elem c names n d :
  (n, d) ∈ flat_map (launches c) names ↔
    n ∈ names ∧ Facts c !! n = Some d
    ∧ String.eqb (Source d) "input" = false
    ∧ String.eqb (Source d) "ctx" = false
    ∧ HasPrefix (Source d) "port:" = true.
Proof.
  rewrite list_elem_of_In, in_flat_map. split.
  - intros (name & Hname & Hin). apply list_elem_of_In in Hname.
    apply list_elem_of_In, launches_elem in Hin as (-> & ?). by split.
  - intros (Hn & Hrest). exists n. split; [by apply list_elem_of_In|].
    apply list_elem_of_In, launches_elem. by split.
Qed.

(** C7 fails as stated: the rule needs the context fact user.id, the
    gathering succeeds, and the fact set does not contain the fact. *)
Lemma gather_omits_ctx_fact :
  "user.id" ∈ neededBaseFacts Examples.ctx_contract "ProcessPayment"
  ∧ (Source <$> Facts Examples.ctx_contract !! "user.id") = Some "ctx"
  ∧ ∀ rt, gatherFacts rt Examples.mockPorts Examples.in_order
            Examples.ctx_contract "ProcessPayment" ∅ = (Ok ∅, []).
Proof. split_and!; [by vm_compute..|intros rt; by vm_compute]. Qed.

(** C7, amended: when [gatherFacts] returns without error, the fact set
    holds, of the needed base facts, every input fact the request carries
    (each required one is carried), the context fact user.roles, and
    every port fact whose fetch succeeded.  Absent are the input facts
    that are not required and not carried, every other context fact, the
    port facts whose fetch failed, which are all of the skip class, and
    the facts of any other source; and nothing is in the set but needed
    base facts. *)
Theorem gathered_facts rt (ports : PortRegistry) (sched : Schedule)
    (c : Contract) (operation : string) (input : gmap string any)
    (facts : FactSet) (gets : list PortEvent) :
  valid_schedule sched →
  gatherFacts rt ports sched c operation input = (Ok facts, gets) →
  (∀ name def, name ∈ neededBaseFacts c operation → Facts c !! name = Some def →
     facts !! name = gathered_value ports input name def
     ∧ (Source def = "input" → Required def = true → is_Some (input !! name))
     ∧ (∀ reason, String.eqb (Source def) "input" = false →
          String.eqb (Source def) "ctx" = false →
          HasPrefix (Source def) "port:" = true →
          port_Get ports (portName (Source def)) name input = inr reason →
          OnMissing def = "skip" ∧ facts !! name = None))
  ∧ (∀ name, name ∉ neededBaseFacts c operation → facts !! name = None).
Proof.
  intros (Hrange & Hrecv & _) Hrun. unfold gatherFacts in Hrun.
  set (names := range_needed sched (elements (neededBaseFacts c operation)))
    in Hrun.
  assert (NoDup names) as Hnd by (unfold names; rewrite Hrange; apply NoDup_elements).
  assert (∀ n, n ∈ names ↔ n ∈ neededBaseFacts c operation) as Hnames.
  { intros n. unfold names. rewrite Hrange. apply elem_of_elements. }
  destruct (gather_range _ _ _ _ _ _) as [[facts1|e] started] eqn:Hloop1; [|done].
  injection Hrun as Hloop2 _.
  apply gather_range_ok in Hloop1 as (Hlook1 & Hstarted & Hreq).
  unfold NewFactSet in Hlook1. simpl in Hstarted. subst started.
  destruct (received_results ports input (flat_map (launches c) names)
              (chan_recv sched ((flat_map (launches c) names).*1))
              (started_NoDup c names Hnd) (Hrecv _)) as [HndR Hres].
  pose proof (gather_collect_ok _ _ _ Hloop2 HndR) as Hcollect.
  split.
  - intros name def Hneeded Hdef. apply Hnames in Hneeded.
    destruct (Hcollect name) as [Hout Hin].
    specialize (Hlook1 name). rewrite decide_True in Hlook1 by done.
    rewrite lookup_empty in Hlook1.
    unfold range_value in Hlook1. rewrite Hdef in Hlook1.
    unfold gathered_value.
    destruct (String.eqb_spec (Source def) "input") as [Hi|Hi].
    { assert (facts !! name = facts1 !! name) as ->.
      { apply Hout. intros r d [Hs _]%Hres. apply started_elem in Hs.
        destruct Hs as (_ & Hd & Hni & _). rewrite Hdef in Hd.
        injection Hd as <-. rewrite Hi in Hni. done. }
      split_and!; [by rewrite Hlook1; destruct (input !! name)| |done].
      intros _ Hr. destruct (input !! name) eqn:Hval; [done|].
      specialize (Hreq name def Hneeded Hdef Hi Hval). congruence. }
    destruct (String.eqb (Source def) "ctx") eqn:Hc.
    { assert (facts !! name = facts1 !! name) as ->.
      { apply Hout. intros r d [Hs _]%Hres. apply started_elem in Hs.
        destruct Hs as (_ & Hd & _ & Hnc & _). rewrite Hdef in Hd.
        injection Hd as <-. congruence. }
      split_and!; [done|done|done]. }
    destruct (HasPrefix (Source def) "port:") eqn:Hp.
    { assert ((name, def) ∈ flat_map (launches c) names) as Hs.
      { apply started_elem. split_and!; [done|done| |done|done].
        by apply String.eqb_neq. }
      specialize (Hin (port_Get ports (portName (Source def)) name input) def).
      rewrite Hres in Hin. specialize (Hin (conj Hs eq_refl)).
      destruct (port_Get ports (portName (Source def)) name input) as [val|reason].
      - split_and!; [done|done|]. intros reason _ _ _ [=].
      - destruct Hin as [Hskip Hsame]. rewrite Hsame, Hlook1.
        split_and!; [done|done|]. by intros reason' _ _ _ _. }
    assert (facts !! name = facts1 !! name) as ->.
    { apply Hout. intros r d [Hs _]%Hres. apply started_elem in Hs.
      destruct Hs as (_ & Hd & _ & _ & Hpre). rewrite Hdef in Hd.
      injection Hd as <-. congruence. }
    split_and!; [done|done|done].
  - intros name Hnot. rewrite <- Hnames in Hnot.
    destruct (Hcollect name) as [Hout _]. rewrite Hout.
    + specialize (Hlook1 name). rewrite decide_False in Hlook1 by done.
      by rewrite Hlook1.
    + intros r d [Hs _]%Hres. by apply started_elem in Hs as [? _].
Qed.

Lemma gathered_facts_witness :
  valid_schedule Examples.in_order
  ∧ ∀ rt,
      gatherFacts rt Examples.mockPorts Examples.in_order
        Examples.ctx_contract "ProcessPayment" ∅ = (Ok ∅, [])
      ∧ (∀ name,
           name ∉ neededBaseFacts Examples.ctx_contract "ProcessPayment" →
           (∅ : gmap string any) !! name = None).
Proof.
  split; [exact in_order_valid|]. intros rt. split; [by vm_compute|].
  exact (proj2 (gathered_facts rt Examples.mockPorts
                  Examples.in_order Examples.ctx_contract "ProcessPayment" ∅ ∅ []
                  in_order_valid ltac:(by vm_compute))).
Defined.

(** ** Where a live request stops *)

Lemma resolveVerdicts_elem vs w : resolveVerdicts vs = Some w → w ∈ vs.
Proof.
  rewrite resolveVerdicts_fold. destruct vs as [|v0 vs]; [done|]. simpl.
  destruct (fold_pick_from vs v0) as (w' & -> & Hw). intros [= ->].
  destruct Hw as [[-> _]|(l1 & l2 & -> & _)]; set_solver.
Qed.

Lemma rule_verdict_types v w :
  w ∈ rule_verdict v →
  (vType w = "deny" ∧ ∃ d, Deny v = Some d ∧ vError w = Some (dError d)
                             ∧ vCode w = dCode d)
  ∨ (vType w = "escalate" ∧ Deny v = None ∧ vError w = None)
  ∨ (vType w = "require" ∧ Deny v = None ∧ Escalate v = None ∧ vError w = None)
  ∨ (vType w = "flag" ∧ Deny v = None ∧ Escalate v = None ∧ Require_ v = None
     ∧ vError w = None).
Proof.
  unfold rule_verdict. destruct (Deny v) as [d|].
  { intros ->%list_elem_of_singleton. left. split; [done|]. by exists d. }
  destruct (Escalate v) as [s|].
  { intros ->%list_elem_of_singleton. right. left. done. }
  destruct (Require_ v) as [r|].
  { intros ->%list_elem_of_singleton. right. right. left. done. }
  destruct (Flag v) as [f|].
  { intros ->%list_elem_of_singleton. right. right. right. done. }
  intros Hin. by apply elem_of_nil in Hin.
Qed.

(** A verdict of [evaluateRules] comes from a rule the operation lists,
    whose condition holds. *)
Lemma evaluateRules_elem rt c operation facts w :
  w ∈ evaluateRules rt c operation facts ↔
  ∃ rule, rule ∈ Rules c
          ∧ ID rule ∈ ConstrainedBy (lookup_operation c operation)
          ∧ evalCondition rt (When rule) facts = true
          ∧ w ∈ rule_verdict (verdict rule).
Proof.
  unfold evaluateRules. rewrite list_elem_of_In, in_flat_map. split.
  - intros (rule & Hrule & Hw). exists rule.
    apply list_elem_of_In in Hrule.
    destruct (decide (ID rule ∈ _)) as [Hid|]; [|done].
    destruct (evalCondition rt (When rule) facts); [|done].
    apply elem_of_list_to_set in Hid. split_and!; try done.
    by apply list_elem_of_In.
  - intros (rule & Hrule & Hid & Hcond & Hw). exists rule.
    split; [by apply list_elem_of_In|].
    rewrite decide_True by by apply elem_of_list_to_set.
    rewrite Hcond. by apply list_elem_of_In.
Qed.

(** [Evaluate] from step 4 on, once steps 1 and 2 went through. *)
Lemma evaluate_after_derive rt (e : Engine) (sched : Schedule) (req : Request)
    (c : Contract) (op : OperationDef) (facts0 facts : FactSet)
    (gets : list PortEvent) :
  contract e = Some c →
  ContractETag req = "" ∨ ContractETag req = contractETag e →
  Operations c !! Operation req = Some op →
  gatherFacts rt (ports e) sched c (Operation req) (Input req) = (Ok facts0, gets) →
  deriveFacts rt sched c facts0 = Ok facts →
  Evaluate rt e sched req =
    let verdicts := evaluateRules rt c (Operation req) facts in
    if DryRun req then
      (Ok {| Outcome := dryRunOutcome (resolveVerdicts verdicts);
             Output := None; Error := None; Verdicts := verdicts;
             FactSnapshot := Some (Snapshot facts); rDryRun := true |}, gets)
    else
    match resolveVerdicts verdicts with
    | Some f =>
        if String.eqb (vType f) "deny" then
          (Ok {| Outcome := "denied"; Output := None; Error := vError f;
                 Verdicts := verdicts; FactSnapshot := None; rDryRun := false |},
           gets)
        else if String.eqb (vType f) "escalate" then
          (Ok {| Outcome := "escalated"; Output := None; Error := None;
                 Verdicts := verdicts; FactSnapshot := None; rDryRun := false |},
           gets)
        else execute_step e op req verdicts gets
    | None => execute_step e op req verdicts gets
    end.
Proof.
  intros Hc Hetag Hop Hgather Hderive. unfold Evaluate. rewrite Hc.
  rewrite (version_check_passes e req Hetag).
  by rewrite Hop, Hgather, Hderive.
Qed.

(** X1: a live request whose resolved verdict is a deny verdict is
    answered as denied with the error envelope the denying rule declares
    and the full list of verdicts; no Execute call is made. *)
Theorem deny_stops_before_execute rt (e : Engine) (sched : Schedule)
    (req : Request) (c : Contract) (op : OperationDef) (facts0 facts : FactSet)
    (gets : list PortEvent) (v : Verdict) :
  contract e = Some c →
  ContractETag req = "" ∨ ContractETag req = contractETag e →
  Operations c !! Operation req = Some op →
  gatherFacts rt (ports e) sched c (Operation req) (Input req) = (Ok facts0, gets) →
  deriveFacts rt sched c facts0 = Ok facts →
  DryRun req = false →
  resolveVerdicts (evaluateRules rt c (Operation req) facts) = Some v →
  vType v = "deny" →
  Evaluate rt e sched req
  = (Ok {| Outcome := "denied"; Output := None; Error := vError v;
           Verdicts := evaluateRules rt c (Operation req) facts;
           FactSnapshot := None; rDryRun := false |}, gets)
  ∧ (∃ rule d, rule ∈ Rules c ∧ Deny (verdict rule) = Some d
               ∧ vError v = Some (dError d) ∧ vCode v = dCode d)
  ∧ Forall (λ ev, is_execute ev = false) (Evaluate rt e sched req).2.
Proof.
  intros Hc Hetag Hop Hgather Hderive Hlive Hfinal Htype.
  rewrite (evaluate_after_derive rt e sched req c op facts0 facts gets) by done.
  simpl. rewrite Hlive, Hfinal, Htype. simpl. split_and!; [done| |].
  - apply resolveVerdicts_elem, evaluateRules_elem in Hfinal
      as (rule & Hrule & _ & _ & Hw).
    apply rule_verdict_types in Hw
      as [(_ & d & Hd & Herr & Hcode)|[(Ht & _)|[(Ht & _)|(Ht & _)]]];
      [|congruence..].
    by exists rule, d.
  - pose proof (gatherFacts_only_gets rt (ports e) sched c (Operation req)
                  (Input req)) as Hgets.
    by rewrite Hgather in Hgets.
Qed.

Lemma deny_stops_before_execute_witness :
  DryRun (Examples.live "") = false
  ∧ ∀ rt,
      Evaluate rt (Examples.engine_with Cases.deny_contract)
        Examples.in_order (Examples.live "")
      = (Ok {| Outcome := "denied"; Output := None;
               Error := Some {| eCode := "ACCOUNT_CLOSED";
                                eMessage := "account closed";
                                eHttpStatus := 403; eCategory := "business";
                                eRetryable := false; eSuggestion := "" |};
               Verdicts := evaluateRules rt Cases.deny_contract
                             "ProcessPayment" ∅;
               FactSnapshot := None; rDryRun := false |}, []).
Proof.
  split; [reflexivity|]. intros rt.
  exact (proj1 (deny_stops_before_execute rt
           (Examples.engine_with Cases.deny_contract)
           Examples.in_order (Examples.live "") Cases.deny_contract
           {| ConstrainedBy := ["closed"]; Transitions := [] |} ∅ ∅ []
           {| vType := "deny"; vCode := "ACCOUNT_CLOSED";
              vReason := "account closed";
              vError := Some {| eCode := "ACCOUNT_CLOSED";
                                eMessage := "account closed";
                                eHttpStatus := 403; eCategory := "business";
                                eRetryable := false; eSuggestion := "" |};
              vQueue := "" |}
           eq_refl (or_introl eq_refl) eq_refl eq_refl eq_refl eq_refl
           eq_refl eq_refl)).
Defined.

(** X2: a live request whose resolved verdict is an escalate verdict is
    answered as escalated, with the verdicts and no error envelope; no
    Execute call is made. *)
Theorem escalate_stops_before_execute rt (e : Engine) (sched : Schedule)
    (req : Request) (c : Contract) (op : OperationDef) (facts0 facts : FactSet)
    (gets : list PortEvent) (v : Verdict) :
  contract e = Some c →
  ContractETag req = "" ∨ ContractETag req = contractETag e →
  Operations c !! Operation req = Some op →
  gatherFacts rt (ports e) sched c (Operation req) (Input req) = (Ok facts0, gets) →
  deriveFacts rt sched c facts0 = Ok facts →
  DryRun req = false →
  resolveVerdicts (evaluateRules rt c (Operation req) facts) = Some v →
  vType v = "escalate" →
  Evaluate rt e sched req
  = (Ok {| Outcome := "escalated"; Output := None; Error := None;
           Verdicts := evaluateRules rt c (Operation req) facts;
           FactSnapshot := None; rDryRun := false |}, gets)
  ∧ Forall (λ v', vType v' ≠ "deny") (evaluateRules rt c (Operation req) facts)
  ∧ Forall (λ ev, is_execute ev = false) (Evaluate rt e sched req).2.
Proof.
  intros Hc Hetag Hop Hgather Hderive Hlive Hfinal Htype.
  rewrite (evaluate_after_derive rt e sched req c op facts0 facts gets) by done.
  simpl. rewrite Hlive, Hfinal, Htype. simpl. split_and!; [done| |].
  - rewrite resolveVerdicts_fold in Hfinal.
    destruct (evaluateRules rt c (Operation req) facts) as [|v0 vs]; [done|].
    simpl in Hfinal. destruct (fold_pick_from vs v0) as (w & Hw & Hcases).
    rewrite Hw in Hfinal. injection Hfinal as ->.
    assert (priority (vType v) = 3) as Hp by by rewrite Htype.
    assert (∀ x, priority (vType x) ≤ 3 → vType x ≠ "deny") as Hnot.
    { intros x Hx Hd. rewrite Hd in Hx. vm_compute in Hx. done. }
    destruct Hcases as [[-> Hall]|(l1 & l2 & -> & Hlt & H1 & H2)].
    + constructor; [apply Hnot; lia|].
      eapply Forall_impl; [exact Hall|]. intros x Hx. apply Hnot. simpl in Hx. lia.
    + constructor; [apply Hnot; lia|]. apply Forall_app. split.
      * eapply Forall_impl; [exact H1|]. intros x Hx. apply Hnot. simpl in Hx. lia.
      * constructor; [apply Hnot; lia|].
        eapply Forall_impl; [exact H2|]. intros x Hx. apply Hnot. simpl in Hx. lia.
  - pose proof (gatherFacts_only_gets rt (ports e) sched c (Operation req)
                  (Input req)) as Hgets.
    by rewrite Hgather in Hgets.
Qed.

Lemma escalate_stops_before_execute_witness :
  DryRun (Examples.live "") = false
  ∧ ∀ rt,
      Evaluate rt (Examples.engine_with Cases.escalate_contract)
        Examples.in_order (Examples.live "")
      = (Ok {| Outcome := "escalated"; Output := None; Error := None;
               Verdicts := evaluateRules rt Cases.escalate_contract
                             "ProcessPayment" ∅;
               FactSnapshot := None; rDryRun := false |}, []).
Proof.
  split; [reflexivity|]. intros rt.
  exact (proj1 (escalate_stops_before_execute rt
           (Examples.engine_with Cases.escalate_contract)
           Examples.in_order (Examples.live "") Cases.escalate_contract
           {| ConstrainedBy := ["review"]; Transitions := [] |} ∅ ∅ []
           {| vType := "escalate"; vCode := ""; vReason := "needs review";
              vError := None; vQueue := "finance" |}
           eq_refl (or_introl eq_refl) eq_refl eq_refl eq_refl eq_refl
           eq_refl eq_refl)).
Defined.

Lemma version_check_inv (e : Engine) (req : Request) :
  negb (String.eqb (ContractETag req) "")
  && negb (String.eqb (ContractETag req) (contractETag e)) = false →
  ContractETag req = "" ∨ ContractETag req = contractETag e.
Proof.
  destruct (String.eqb_spec (ContractETag req) "") as [?|_]; [by left|].
  destruct (String.eqb_spec (ContractETag req) (contractETag e)) as [?|_];
    [by right|done].
Qed.

Lemma execute_step_trace (e : Engine) op req verdicts gets :
  (execute_step e op req verdicts gets).2
  = gets ++ [EvExecute "invoiceRepo" (Operation req)].
Proof. unfold execute_step. by destruct (port_Execute _ _ _ _). Qed.

Lemma not_execute_in gets port operation :
  Forall (λ ev, is_execute ev = false) gets → EvExecute port operation ∉ gets.
Proof.
  intros Hall Hin. rewrite Forall_forall in Hall. by specialize (Hall _ Hin).
Qed.

(** X3: Execute is reached only by a live request that passed the version
    check, the operation lookup, gathering and derivation and whose
    resolved verdict is neither deny nor escalate; the call is then the
    last event of the invocation, made once, on the port invoiceRepo with
    the operation of the request. *)
Theorem execute_only_when_permitted rt (e : Engine) (sched : Schedule)
    (req : Request) (port operation : string) :
  EvExecute port operation ∈ (Evaluate rt e sched req).2 →
  DryRun req = false
  ∧ port = "invoiceRepo" ∧ operation = Operation req
  ∧ ∃ c op facts0 facts gets,
      contract e = Some c
      ∧ (ContractETag req = "" ∨ ContractETag req = contractETag e)
      ∧ Operations c !! Operation req = Some op
      ∧ gatherFacts rt (ports e) sched c (Operation req) (Input req)
        = (Ok facts0, gets)
      ∧ deriveFacts rt sched c facts0 = Ok facts
      ∧ (∀ v, resolveVerdicts (evaluateRules rt c (Operation req) facts) = Some v →
           vType v ≠ "deny" ∧ vType v ≠ "escalate")
      ∧ Forall (λ ev, is_execute ev = false) gets
      ∧ (Evaluate rt e sched req).2
        = gets ++ [EvExecute "invoiceRepo" (Operation req)].
Proof.
  unfold Evaluate. destruct (contract e) as [c|]; [|by intros ?%elem_of_nil].
  destruct (_ && _) eqn:Hetag; [by intros ?%elem_of_nil|].
  apply version_check_inv in Hetag.
  destruct (Operations c !! Operation req) as [op|] eqn:Hop;
    [|by intros ?%elem_of_nil].
  pose proof (gatherFacts_only_gets rt (ports e) sched c (Operation req)
                (Input req)) as Hgets.
  destruct (gatherFacts _ _ _ _ _ _) as [[facts0|[msg|fact reason outcome]] gets]
    eqn:Hgather; simpl in Hgets;
    [|by intros ?%(not_execute_in _ _ _ Hgets)..].
  destruct (deriveFacts _ _ _ _) as [facts|err] eqn:Hderive;
    [|by intros ?%(not_execute_in _ _ _ Hgets)].
  destruct (DryRun req) eqn:Hdry; [by intros ?%(not_execute_in _ _ _ Hgets)|].
  assert (∀ r : result Response * list PortEvent,
            r.2 = gets ++ [EvExecute "invoiceRepo" (Operation req)] →
            EvExecute port operation ∈ r.2 →
            port = "invoiceRepo" ∧ operation = Operation req) as Hlast.
  { intros r -> [Hin|Hin%list_elem_of_singleton]%elem_of_app.
    - by apply (not_execute_in _ _ _ Hgets) in Hin.
    - by injection Hin as -> ->. }
  destruct (resolveVerdicts _) as [f|] eqn:Hfinal.
  - destruct (String.eqb_spec (vType f) "deny") as [?|Hnd];
      [by intros ?%(not_execute_in _ _ _ Hgets)|].
    destruct (String.eqb_spec (vType f) "escalate") as [?|Hne];
      [by intros ?%(not_execute_in _ _ _ Hgets)|].
    intros Hin.
    destruct (Hlast _ (execute_step_trace e op req _ gets) Hin) as [-> ->].
    split_and!; try done. exists c, op, facts0, facts, gets.
    split_and!; try done.
    + intros v Hv. by simplify_eq.
    + apply execute_step_trace.
  - intros Hin.
    destruct (Hlast _ (execute_step_trace e op req _ gets) Hin) as [-> ->].
    split_and!; try done. exists c, op, facts0, facts, gets.
    split_and!; try done;
      first [apply execute_step_trace | intros v Hv; by simplify_eq].
Qed.

Lemma execute_only_when_permitted_witness :
  (∀ rt, EvExecute "invoiceRepo" "ProcessPayment"
           ∈ (Evaluate rt (Examples.engine_with (Examples.flag_contract "r1"))
                Examples.in_order (Examples.live "")).2)
  ∧ (∀ rt, ∃ gets,
       Forall (λ ev, is_execute ev = false) gets
       ∧ (Evaluate rt (Examples.engine_with (Examples.flag_contract "r1"))
            Examples.in_order (Examples.live "")).2
         = gets ++ [EvExecute "invoiceRepo" "ProcessPayment"]).
Proof.
  assert (∀ rt, EvExecute "invoiceRepo" "ProcessPayment"
            ∈ (Evaluate rt (Examples.engine_with (Examples.flag_contract "r1"))
                 Examples.in_order (Examples.live "")).2) as Hin.
  { intros rt. vm_compute. apply list_elem_of_singleton. reflexivity. }
  split; [exact Hin|]. intros rt.
  destruct (execute_only_when_permitted rt _ _ _ _ _ (Hin rt))
    as (_ & _ & _ & c & op & facts0 & facts & gets & _ & _ & _ & _ & _ & _
        & Hgets & Htrace).
  by exists gets.
Defined.

(** X4: a dry run and a live run of a request that reach rule evaluation
    with the same fact set, each under its own map iteration and channel
    orders (as they do, in particular, under the same orders and port
    answers), correspond where the live run stops: the dry run answers
    would_deny exactly when the live run answers denied, and
    would_escalate exactly when the live run answers escalated, with the
    same verdicts; under every other forecast (would_execute,
    would_execute_with_flags and would_require alike) the live run calls
    Execute.  The dry run itself makes the Get calls of its gathering
    and no other call. *)
Theorem dry_run_forecast rt (e : Engine) (sched_dry sched_live : Schedule)
    (req : Request) (c : Contract) (op : OperationDef)
    (facts0_dry facts0_live facts : FactSet)
    (gets_dry gets_live : list PortEvent) :
  contract e = Some c →
  ContractETag req = "" ∨ ContractETag req = contractETag e →
  Operations c !! Operation req = Some op →
  gatherFacts rt (ports e) sched_dry c (Operation req) (Input req)
  = (Ok facts0_dry, gets_dry) →
  deriveFacts rt sched_dry c facts0_dry = Ok facts →
  gatherFacts rt (ports e) sched_live c (Operation req) (Input req)
  = (Ok facts0_live, gets_live) →
  deriveFacts rt sched_live c facts0_live = Ok facts →
  ∃ dry live,
    Evaluate rt e sched_dry (with_dry_run req true) = (Ok dry, gets_dry)
    ∧ (Evaluate rt e sched_live (with_dry_run req false)).1 = Ok live
    ∧ (Outcome dry = "would_deny" ↔ Outcome live = "denied")
    ∧ (Outcome dry = "would_escalate" ↔ Outcome live = "escalated")
    ∧ (Outcome live = "denied" ∨ Outcome live = "escalated" →
         Verdicts live = Verdicts dry
         ∧ (Evaluate rt e sched_live (with_dry_run req false)).2 = gets_live)
    ∧ (Outcome dry ∈ ["would_execute"; "would_execute_with_flags";
                       "would_require"] ↔
       (Evaluate rt e sched_live (with_dry_run req false)).2
       = gets_live ++ [EvExecute "invoiceRepo" (Operation req)]).
Proof.
  intros Hc Hetag Hop Hgather_dry Hderive_dry Hgather_live Hderive_live.
  rewrite (evaluate_after_derive rt e sched_dry (with_dry_run req true)
             c op facts0_dry facts gets_dry) by done.
  rewrite (evaluate_after_derive rt e sched_live (with_dry_run req false)
             c op facts0_live facts gets_live) by done.
  simpl. unfold dryRunOutcome.
  assert (∀ l : list PortEvent, l ≠ l ++ [EvExecute "invoiceRepo" (Operation req)])
    as Hneq.
  { intros l Hl. apply (f_equal length) in Hl. rewrite length_app in Hl.
    simpl in Hl. lia. }
  destruct (resolveVerdicts _) as [f|].
  - destruct (String.eqb (vType f) "deny") eqn:Hd.
    { eexists _, _. split_and!; try done; simpl.
      split; [set_solver|]. intros H. by apply Hneq in H. }
    destruct (String.eqb (vType f) "escalate") eqn:He.
    { eexists _, _. split_and!; try done; simpl.
      split; [set_solver|]. intros H. by apply Hneq in H. }
    rewrite execute_step_trace. unfold execute_step.
    destruct (port_Execute _ _ _ _); simpl;
      (eexists _, _; split_and!; try done; simpl;
       [by destruct (String.eqb (vType f) "require")..
       | by intros [?|?]
       | split; [done|intros _; destruct (String.eqb (vType f) "require");
                      set_solver]]).
  - rewrite execute_step_trace. unfold execute_step.
    destruct (port_Execute _ _ _ _); simpl;
      (eexists _, _; split_and!; try done; simpl;
       [by intros [?|?] | split; [done|intros _; set_solver]]).
Qed.

Lemma dry_run_forecast_witness :
  contract (Examples.engine_with Examples.require_contract)
  = Some Examples.require_contract
  ∧ ∀ rt, ∃ dry live,
      Evaluate rt (Examples.engine_with Examples.require_contract)
        Examples.in_order (with_dry_run (Examples.live "") true) = (Ok dry, [])
      ∧ (Evaluate rt (Examples.engine_with Examples.require_contract)
           {| range_needed := @rev string; chan_recv := @rev string;
              range_derived := @rev string |}
           (with_dry_run (Examples.live "") false)).1
        = Ok live
      ∧ (Outcome dry = "would_deny" ↔ Outcome live = "denied").
Proof.
  split; [reflexivity|]. intros rt.
  destruct (dry_run_forecast rt (Examples.engine_with Examples.require_contract)
              Examples.in_order
              {| range_needed := @rev string; chan_recv := @rev string;
                 range_derived := @rev string |}
              (Examples.live "") Examples.require_contract
              {| ConstrainedBy := ["needs-mfa"]; Transitions := [] |} ∅ ∅ ∅ [] []
              eq_refl (or_introl eq_refl) eq_refl eq_refl eq_refl eq_refl
              eq_refl)
    as (dry & live & Hdry & Hlive & Hdeny & _).
  by exists dry, live.
Defined.

(** ** Failures of the gathering *)

Lemma gather_collect_err results : ∀ facts e,
  gather_collect results facts = Err e →
  ∃ name reason def,
    (name, inr reason, def) ∈ results
    ∧ OnMissing def ≠ "skip"
    ∧ e = factError name reason
            (if String.eqb (OnMissing def) "deny" then "denied"
             else "system_error").
Proof.
  induction results as [|[[n0 [val|reason]] d0] results IH]; intros facts e Hrun;
    simpl in Hrun; [done| |].
  - destruct (IH _ _ Hrun) as (name & r & def & Hin & Hrest).
    exists name, r, def. split; [set_solver|done].
  - destruct (String.eqb_spec (OnMissing d0) "deny") as [Hd|Hd].
    { injection Hrun as <-. exists n0, reason, d0.
      split_and!; [set_solver|by rewrite Hd|].
      by rewrite Hd. }
    destruct (String.eqb_spec (OnMissing d0) "skip") as [Hs|Hs].
    + destruct (IH _ _ Hrun) as (name & r & def & Hin & Hrest).
      exists name, r, def. split; [set_solver|done].
    + injection Hrun as <-. exists n0, reason, d0.
      split_and!; [set_solver|done|].
      by rewrite (proj2 (String.eqb_neq _ _) Hd).
Qed.

Lemma gather_step_err rt c input name facts started e started' :
  gather_step rt c input name facts started = (Err e, started') →
  started' = started
  ∧ launches c name = []
  ∧ ∃ def, Facts c !! name = Some def ∧ Source def = "input"
           ∧ Required def = true ∧ input !! name = None
           ∧ e = missing_input rt name.
Proof.
  unfold gather_step, launches. destruct (Facts c !! name) as [def|]; [|done].
  destruct (String.eqb_spec (Source def) "input") as [Hin|Hin].
  - destruct (input !! name); [done|]. destruct (Required def) eqn:Hreq; [|done].
    intros [= <- <-]. split_and!; [done..|]. by exists def.
  - by repeat case_match.
Qed.

(** The first loop in general: the names it got through before stopping. *)
Lemma gather_range_gen rt c input names : ∀ facts started r started',
  gather_range rt c input names facts started = (r, started') →
  ∃ passed rest,
    names = passed ++ rest
    ∧ started' = started ++ flat_map (launches c) passed
    ∧ match r with
      | Ok _ => rest = []
      | Err e =>
          ∃ name def, name ∈ rest ∧ Facts c !! name = Some def
                      ∧ Source def = "input" ∧ Required def = true
                      ∧ input !! name = None ∧ e = missing_input rt name
      end.
Proof.
  induction names as [|name names IH]; intros facts started r started' Hrun;
    simpl in Hrun.
  - injection Hrun as <- <-. exists [], []. simpl. by rewrite app_nil_r.
  - destruct (gather_step _ _ _ _ _ _) as [[facts1|e] started1] eqn:Hstep.
    + apply gather_step_ok in Hstep as (_ & -> & _).
      destruct (IH _ _ _ _ Hrun) as (passed & rest & -> & -> & Hr).
      exists (name :: passed), rest. split_and!; [done| |done].
      simpl. by rewrite <- app_assoc.
    + injection Hrun as <- <-.
      apply gather_step_err in Hstep as (-> & _ & def & Hrest).
      exists [], (name :: names). split_and!; [done|by rewrite app_nil_r|].
      exists name, def. split; [set_solver|done].
Qed.

Lemma results_elem (ports : PortRegistry) (input : gmap string any)
    (started : list (string * FactDef)) (recv : list string) name r def :
  (name, r, def)
    ∈ map (λ nd : string * FactDef,
             (nd.1, port_Get ports (portName (Source nd.2)) nd.1 input, nd.2))
          (omap (started_def started) recv) →
  (name, def) ∈ started
  ∧ r = port_Get ports (portName (Source def)) name input.
Proof.
  intros ([n d] & [= -> -> ->] & Hin)%list_elem_of_fmap.
  apply list_elem_of_omap in Hin as (n' & Hn' & Hdef).
  by apply started_def_Some in Hdef as [? _].
Qed.

(** What a fact error of [gatherFacts] tells. *)
Lemma gatherFacts_fact_error rt ports sched c operation input fact reason
    outcome gets :
  gatherFacts rt ports sched c operation input
  = (Err (factError fact reason outcome), gets) →
  ∃ def, Facts c !! fact = Some def
         ∧ HasPrefix (Source def) "port:" = true
         ∧ port_Get ports (portName (Source def)) fact input = inr reason
         ∧ OnMissing def ≠ "skip"
         ∧ outcome = (if String.eqb (OnMissing def) "deny" then "denied"
                      else "system_error").
Proof.
  unfold gatherFacts.
  destruct (gather_range _ _ _ _ _ _) as [[facts1|e] started] eqn:Hloop1.
  - intros [= Hloop2 _].
    apply gather_collect_err in Hloop2 as (name & r & def & Hin & Hskip & Heq).
    injection Heq as -> -> ->.
    apply results_elem in Hin as [Hin Hget].
    apply gather_range_gen in Hloop1 as (passed & rest & _ & -> & _).
    simpl in Hin. apply started_elem in Hin as (_ & Hdef & _ & _ & Hpre).
    by exists def.
  - intros [= -> _].
    apply gather_range_gen in Hloop1
      as (passed & rest & _ & _ & name & def & _ & _ & _ & _ & _ & Heq).
    discriminate.
Qed.

(** ** Failures of the fetches *)

Lemma port_source_not_input (s : string) :
  HasPrefix s "port:" = true →
  String.eqb s "input" = false ∧ String.eqb s "ctx" = false.
Proof.
  intros Hpre. split; apply String.eqb_neq; intros ->; by vm_compute in Hpre.
Qed.

(** The second loop fails as soon as it receives a failed fetch whose
    policy is not skip. *)
Lemma gather_collect_fails results : ∀ facts,
  (∃ name reason def,
     (name, inr reason, def) ∈ results ∧ OnMissing def ≠ "skip") →
  ∃ name reason def,
    (name, inr reason, def) ∈ results ∧ OnMissing def ≠ "skip"
    ∧ gather_collect results facts
      = Err (factError name reason (unavailable_outcome def)).
Proof.
  unfold unavailable_outcome.
  induction results as [|[[n0 [val|reason0]] d0] results IH];
    intros facts (name & reason & def & Hin & Hskip); simpl.
  - by apply elem_of_nil in Hin.
  - apply elem_of_cons in Hin as [[=]|Hin].
    destruct (IH (Set_ facts n0 val)) as (n & r & d & Hn & Hd & Hrun).
    { by exists name, reason, def. }
    exists n, r, d. split_and!; [by right|done|done].
  - destruct (String.eqb_spec (OnMissing d0) "deny") as [Hdeny|Hdeny].
    { exists n0, reason0, d0. split_and!; [by left|by rewrite Hdeny|].
      by rewrite Hdeny. }
    destruct (String.eqb_spec (OnMissing d0) "skip") as [Hs|Hs].
    + apply elem_of_cons in Hin as [[= -> -> ->]|Hin]; [done|].
      destruct (IH facts) as (n & r & d & Hn & Hd & Hrun).
      { by exists name, reason, def. }
      exists n, r, d. split_and!; [by right|done|done].
    + exists n0, reason0, d0. split_and!; [by left|done|].
      by rewrite (proj2 (String.eqb_neq _ _) Hdeny).
Qed.

(** With every required input in the request, a failing fetch makes the
    gathering fail with the fact error of a failing fetch. *)
Lemma gatherFacts_fetch_fails rt ports sched c operation input :
  valid_schedule sched →
  inputs_present c operation input →
  (∃ name reason def, fetch_fails ports c operation input name reason def) →
  ∃ name reason def gets,
    fetch_fails ports c operation input name reason def
    ∧ gatherFacts rt ports sched c operation input
      = (Err (factError name reason (unavailable_outcome def)), gets).
Proof.
  intros (Hrange & Hrecv & _) Hinputs
    (name & reason & def & Hneeded & Hdef & Hport & Hget & Hskip).
  unfold gatherFacts.
  set (names := range_needed sched (elements (neededBaseFacts c operation))).
  assert (NoDup names) as Hnd
    by (unfold names; rewrite Hrange; apply NoDup_elements).
  assert (∀ n, n ∈ names ↔ n ∈ neededBaseFacts c operation) as Hnames.
  { intros n. unfold names. rewrite Hrange. apply elem_of_elements. }
  destruct (gather_range _ _ _ _ _ _) as [[facts1|e] started] eqn:Hloop1.
  2:{ apply gather_range_gen in Hloop1
        as (passed & rest & Hsplit & _ & n & d & Hin & Hd & Hsrc & Hreq & Hnone & _).
      destruct (Hinputs n d) as [v Hv]; try done.
      - apply Hnames. rewrite Hsplit. set_solver.
      - congruence. }
  apply gather_range_ok in Hloop1 as (_ & Hstarted & _).
  simpl in Hstarted. subst started.
  destruct (received_results ports input (flat_map (launches c) names)
              (chan_recv sched ((flat_map (launches c) names).*1))
              (started_NoDup c names Hnd) (Hrecv _)) as [_ Hres].
  destruct (port_source_not_input _ Hport) as [Hni Hnc].
  destruct (gather_collect_fails _ facts1
              (ex_intro _ name (ex_intro _ reason (ex_intro _ def
                 (conj (proj2 (Hres name (inr reason) def)
                          (conj (proj2 (started_elem c names name def)
                                   (conj (proj2 (Hnames name) Hneeded)
                                      (conj Hdef (conj Hni (conj Hnc Hport)))))
                                (eq_sym Hget)))
                       Hskip)))))
    as (n & r & d & Hn & Hd & Hrun).
  apply Hres in Hn as [Hs Hr]. apply started_elem in Hs
    as (Hnn & Hnd' & _ & _ & Hnp).
  exists n, r, d. eexists. split; [|by rewrite Hrun].
  split_and!; [by apply Hnames|done|done|done|done].
Qed.

(** X5: with every needed required input fact in the request, when the
    fetch of a needed port fact fails under a policy other than skip,
    [Evaluate] answers, for a live and a dry-run request alike, with the
    FACT_UNAVAILABLE envelope (status 503, retryable) naming a fact whose
    fetch so failed and the port's reason; the outcome is denied under
    that fact's policy deny and system_error under any other, and no
    Execute call is made.  Conversely, whenever the gathering ends in a
    fact error this is the answer, and the fact named is a port fact
    whose fetch failed under a policy other than skip. *)
Theorem fact_unavailable_response rt (e : Engine) (sched : Schedule)
    (req : Request) (c : Contract) (op : OperationDef) :
  valid_schedule sched →
  contract e = Some c →
  ContractETag req = "" ∨ ContractETag req = contractETag e →
  Operations c !! Operation req = Some op →
  (inputs_present c (Operation req) (Input req) →
   (∃ name reason def,
      fetch_fails (ports e) c (Operation req) (Input req) name reason def) →
   ∃ fact reason def gets,
     fetch_fails (ports e) c (Operation req) (Input req) fact reason def
     ∧ Evaluate rt e sched req
       = (Ok (fact_unavailable rt fact reason (unavailable_outcome def)), gets)
     ∧ Forall (λ ev, is_execute ev = false) gets)
  ∧ (∀ fact reason outcome gets,
       gatherFacts rt (ports e) sched c (Operation req) (Input req)
       = (Err (factError fact reason outcome), gets) →
       Evaluate rt e sched req
       = (Ok (fact_unavailable rt fact reason outcome), gets)
       ∧ Forall (λ ev, is_execute ev = false) gets
       ∧ ∃ def, Facts c !! fact = Some def
                ∧ HasPrefix (Source def) "port:" = true
                ∧ port_Get (ports e) (portName (Source def)) fact (Input req)
                  = inr reason
                ∧ OnMissing def ≠ "skip"
                ∧ outcome = unavailable_outcome def).
Proof.
  intros Hvalid Hc Hetag Hop.
  assert (∀ fact reason outcome gets,
            gatherFacts rt (ports e) sched c (Operation req) (Input req)
            = (Err (factError fact reason outcome), gets) →
            Evaluate rt e sched req
            = (Ok (fact_unavailable rt fact reason outcome), gets)
            ∧ Forall (λ ev, is_execute ev = false) gets) as Hanswer.
  { intros fact reason outcome gets Hgather. split.
    - unfold Evaluate. rewrite Hc, (version_check_passes e req Hetag), Hop.
      by rewrite Hgather.
    - pose proof (gatherFacts_only_gets rt (ports e) sched c (Operation req)
                    (Input req)) as Hgets.
      by rewrite Hgather in Hgets. }
  split.
  - intros Hinputs Hfails.
    destruct (gatherFacts_fetch_fails rt (ports e) sched c (Operation req)
                (Input req) Hvalid Hinputs Hfails)
      as (fact & reason & def & gets & Hfact & Hgather).
    destruct (Hanswer _ _ _ _ Hgather) as [Heval Hgets].
    by exists fact, reason, def, gets.
  - intros fact reason outcome gets Hgather.
    destruct (Hanswer _ _ _ _ Hgather) as [Heval Hgets].
    split_and!; [done|done|].
    by eapply gatherFacts_fact_error.
Qed.

Lemma fact_unavailable_response_witness :
  valid_schedule Examples.in_order
  ∧ ∀ rt,
      ∃ fact reason def gets,
        fetch_fails Outage.down_ports (Outage.status_contract "deny")
          "ProcessPayment" ∅ fact reason def
        ∧ Evaluate rt (Outage.engine_down (Outage.status_contract "deny"))
            Examples.in_order (Examples.dry "")
          = (Ok (fact_unavailable rt fact reason (unavailable_outcome def)),
             gets)
        ∧ Forall (λ ev, is_execute ev = false) gets.
Proof.
  split; [exact in_order_valid|]. intros rt.
  apply (proj1 (fact_unavailable_response rt
                  (Outage.engine_down (Outage.status_contract "deny"))
                  Examples.in_order (Examples.dry "")
                  (Outage.status_contract "deny")
                  {| ConstrainedBy := ["closed"]; Transitions := [] |}
                  in_order_valid eq_refl (or_introl eq_refl) eq_refl)).
  - intros name def _ Hdef Hsrc _.
    unfold Outage.status_contract, Examples.one_rule in Hdef. simpl in Hdef.
    apply lookup_singleton_Some in Hdef as [_ <-]. discriminate Hsrc.
  - exists "customer.status", "timeout",
      {| Source := "port:customerRepo"; Required := true; OnMissing := "deny" |}.
    split_and!; [by vm_compute|done|done|done|done].
Defined.

Lemma evalDerivation_err_msg rt d facts e :
  evalDerivation rt d facts = Err e →
  e = errorString ("unknown derivation function: " +:+ Fn d).
Proof.
  unfold evalDerivation. repeat case_match; intros; by simplify_eq.
Qed.

Lemma derive_loop_err rt c names : ∀ facts e,
  (derive_loop rt c names facts).1 = Err e →
  ∃ n, n ∈ names
       ∧ ¬ known_fn (Fn (derivation (lookup_derived (DerivedFacts c) n)))
       ∧ e = errorString
               ("derive " +:+ Quote rt n +:+ ": unknown derivation function: "
                +:+ Fn (derivation (lookup_derived (DerivedFacts c) n))).
Proof.
  induction names as [|name names IH]; intros facts e; simpl; [done|].
  destruct (evalDerivation _ _ _) as [val|e0] eqn:Heval; simpl.
  - destruct (derive_loop rt c names (Set_ facts name val)) as [r ev] eqn:Hloop.
    simpl. intros ->. destruct (IH (Set_ facts name val) e) as (n & Hn & Hrest).
    { by rewrite Hloop. }
    exists n. split; [set_solver|done].
  - intros [= <-]. exists name. split_and!; [set_solver| |].
    + by eapply evalDerivation_err.
    + apply evalDerivation_err_msg in Heval as ->. done.
Qed.

Lemma gatherFacts_input_error rt ports sched c operation input msg gets :
  valid_schedule sched →
  gatherFacts rt ports sched c operation input = (Err (errorString msg), gets) →
  ∃ name def, name ∈ neededBaseFacts c operation
              ∧ Facts c !! name = Some def ∧ Source def = "input"
              ∧ Required def = true ∧ input !! name = None
              ∧ errorString msg = missing_input rt name.
Proof.
  intros (Hrange & _) Hrun. unfold gatherFacts in Hrun.
  destruct (gather_range _ _ _ _ _ _) as [[facts1|e] started] eqn:Hloop1.
  - injection Hrun as Hloop2 _.
    apply gather_collect_err in Hloop2 as (? & ? & ? & _ & _ & ?). done.
  - injection Hrun as -> _.
    apply gather_range_gen in Hloop1
      as (passed & rest & Hnames & _ & name & def & Hin & Hrest).
    exists name, def. split; [|done].
    apply elem_of_elements. rewrite <- (Hrange _), Hnames. set_solver.
Qed.

(** X6: [Evaluate] returns an error in place of a response in four cases
    only, none of which reaches Execute: no contract is loaded; the
    operation is not one of the contract (no port is called in these
    two); a needed input fact that is required is missing from the
    request; a derived fact names a function outside the library. *)
Theorem evaluate_error_cases rt (e : Engine) (sched : Schedule) (req : Request)
    (err : error) (trace : list PortEvent) :
  valid_schedule sched →
  Evaluate rt e sched req = (Err err, trace) →
  Forall (λ ev, is_execute ev = false) trace
  ∧ ((contract e = None ∧ err = errorString "no contract loaded" ∧ trace = [])
     ∨ (∃ c, contract e = Some c ∧ Operations c !! Operation req = None
             ∧ err = errorString ("unknown operation: " +:+ Operation req)
             ∧ trace = [])
     ∨ (∃ c name def,
          contract e = Some c ∧ name ∈ neededBaseFacts c (Operation req)
          ∧ Facts c !! name = Some def ∧ Source def = "input"
          ∧ Required def = true ∧ Input req !! name = None
          ∧ err = missing_input rt name)
     ∨ (∃ c n df,
          contract e = Some c ∧ DerivedFacts c !! n = Some df
          ∧ ¬ known_fn (Fn (derivation df))
          ∧ err = errorString
                    ("derive facts: derive " +:+ Quote rt n
                     +:+ ": unknown derivation function: "
                     +:+ Fn (derivation df)))).
Proof.
  intros Hvalid. unfold Evaluate.
  destruct (contract e) as [c|]; [|intros [= <- <-]; split; [constructor|by left]].
  destruct (_ && _); [done|].
  destruct (Operations c !! Operation req) as [op|] eqn:Hop.
  2:{ intros [= <- <-]. split; [constructor|]. right. left. by exists c. }
  pose proof (gatherFacts_only_gets rt (ports e) sched c (Operation req)
                (Input req)) as Hgets.
  destruct (gatherFacts _ _ _ _ _ _) as [[facts0|[msg|fact reason outcome]] gets]
    eqn:Hgather; simpl in Hgets; [| |done].
  - destruct (deriveFacts _ _ _ _) as [facts|derr] eqn:Hderive.
    + destruct (DryRun req); [done|]. unfold execute_step.
      repeat case_match; done.
    + intros [= <- <-]. split; [done|]. right. right. right.
      unfold deriveFacts, deriveFacts_traced in Hderive.
      apply derive_loop_err in Hderive as (n & Hn & Hfn & ->).
      destruct (deriveFacts_spec rt sched c facts0 Hvalid)
        as (_ & _ & Hall & _).
      apply Hall in Hn.
      destruct (lookup_derived_unknown _ _ Hn Hfn) as (df & Hdf & Hfn').
      exists c, n, df. split_and!; try done.
      unfold lookup_derived. rewrite Hdf. done.
  - intros [= <- <-]. split; [done|]. right. right. left.
    destruct (gatherFacts_input_error _ _ _ _ _ _ _ _ Hvalid Hgather)
      as (name & def & Hrest).
    exists c, name, def. split; [done|]. naive_solver.
Qed.

Lemma evaluate_error_cases_witness :
  valid_schedule Examples.in_order
  ∧ ∀ rt,
      Evaluate rt (Examples.engine_with Outage.input_contract)
        Examples.in_order (Examples.live "")
      = (Err (missing_input rt "customer.id"), [])
      ∧ Forall (λ ev, is_execute ev = false) ([] : list PortEvent).
Proof.
  split; [exact in_order_valid|]. intros rt.
  assert (Evaluate rt (Examples.engine_with Outage.input_contract)
            Examples.in_order (Examples.live "")
          = (Err (missing_input rt "customer.id"), [])) as Hrun by by vm_compute.
  split; [exact Hrun|].
  exact (proj1 (evaluate_error_cases rt _ _ _ _ _ in_order_valid Hrun)).
Defined.

(** X7: a needed input fact that is required and missing from the request
    makes [gatherFacts], and with it [Evaluate], return the error that
    names that fact or another such fact; neither a response is built nor
    Execute called. *)
Theorem required_input_missing rt (e : Engine) (sched : Schedule)
    (req : Request) (c : Contract) (op : OperationDef) (name : string)
    (def : FactDef) :
  valid_schedule sched →
  contract e = Some c →
  ContractETag req = "" ∨ ContractETag req = contractETag e →
  Operations c !! Operation req = Some op →
  name ∈ neededBaseFacts c (Operation req) →
  Facts c !! name = Some def →
  Source def = "input" → Required def = true → Input req !! name = None →
  ∃ name' def' gets,
    Facts c !! name' = Some def' ∧ Source def' = "input"
    ∧ Required def' = true ∧ Input req !! name' = None
    ∧ gatherFacts rt (ports e) sched c (Operation req) (Input req)
      = (Err (missing_input rt name'), gets)
    ∧ Evaluate rt e sched req = (Err (missing_input rt name'), gets)
    ∧ Forall (λ ev, is_execute ev = false) gets.
Proof.
  intros Hvalid Hc Hetag Hop Hneeded Hdef Hsrc Hreq Hmiss.
  pose proof (gatherFacts_only_gets rt (ports e) sched c (Operation req)
                (Input req)) as Hgets.
  destruct (gatherFacts rt (ports e) sched c (Operation req) (Input req))
    as [r gets] eqn:Hgather. simpl in Hgets.
  assert (∃ msg, r = Err (errorString msg)) as [msg ->].
  { destruct Hvalid as (Hrange & _). unfold gatherFacts in Hgather.
    destruct (gather_range _ _ _ _ _ _) as [[facts1|e1] started] eqn:Hloop1.
    - apply gather_range_ok in Hloop1 as (_ & _ & Hok).
      assert (name ∈ range_needed sched
                (elements (neededBaseFacts c (Operation req)))) as Hin.
      { rewrite (Hrange _). by apply elem_of_elements. }
      specialize (Hok name def Hin Hdef Hsrc Hmiss). congruence.
    - injection Hgather as <- _.
      apply gather_range_gen in Hloop1
        as (_ & _ & _ & _ & n & d & _ & _ & _ & _ & _ & ->).
      by eexists. }
  destruct (gatherFacts_input_error _ _ _ _ _ _ _ _ Hvalid Hgather)
    as (name' & def' & _ & Hdef' & Hsrc' & Hreq' & Hmiss' & Heq).
  exists name', def', gets. rewrite <- Heq. split_and!; try done.
  unfold Evaluate. rewrite Hc, (version_check_passes e req Hetag), Hop.
  by rewrite Hgather.
Qed.

Lemma required_input_missing_witness :
  valid_schedule Examples.in_order
  ∧ "customer.id" ∈ neededBaseFacts Outage.input_contract "ProcessPayment"
  ∧ ∀ rt, ∃ name' def' gets,
      Facts Outage.input_contract !! name' = Some def'
      ∧ Source def' = "input" ∧ Required def' = true
      ∧ Input (Examples.live "") !! name' = None
      ∧ gatherFacts rt Examples.mockPorts Examples.in_order
          Outage.input_contract "ProcessPayment" ∅
        = (Err (missing_input rt name'), gets)
      ∧ Evaluate rt (Examples.engine_with Outage.input_contract)
          Examples.in_order (Examples.live "")
        = (Err (missing_input rt name'), gets)
      ∧ Forall (λ ev, is_execute ev = false) gets.
Proof.
  split; [exact in_order_valid|]. split; [by vm_compute|]. intros rt.
  exact (required_input_missing rt (Examples.engine_with Outage.input_contract)
           Examples.in_order (Examples.live "") Outage.input_contract
           {| ConstrainedBy := ["known"]; Transitions := [] |}
           "customer.id"
           {| Source := "input"; Required := true; OnMissing := "system_error" |}
           in_order_valid eq_refl (or_introl eq_refl) eq_refl
           ltac:(by vm_compute) eq_refl eq_refl eq_refl eq_refl).
Defined.

(** X8: the Get calls of [gatherFacts] are calls for needed base facts
    whose source is a port, each on the port its source names; no fact is
    fetched twice, input and context facts are never fetched, and unless
    the gathering stops on a missing input fact every needed port fact is
    fetched. *)
Theorem gather_fetches_port_facts_once rt (ports : PortRegistry)
    (sched : Schedule) (c : Contract) (operation : string)
    (input : gmap string any) (r : result FactSet) (gets : list PortEvent) :
  valid_schedule sched →
  gatherFacts rt ports sched c operation input = (r, gets) →
  NoDup (event_fact <$> gets)
  ∧ (∀ ev, ev ∈ gets →
       ∃ fact def, ev = EvGet (portName (Source def)) fact
                   ∧ fact ∈ neededBaseFacts c operation
                   ∧ Facts c !! fact = Some def
                   ∧ HasPrefix (Source def) "port:" = true
                   ∧ Source def ≠ "input" ∧ Source def ≠ "ctx")
  ∧ ((∀ msg, r ≠ Err (errorString msg)) →
     ∀ fact def, fact ∈ neededBaseFacts c operation →
       Facts c !! fact = Some def →
       Source def ≠ "input" → Source def ≠ "ctx" →
       HasPrefix (Source def) "port:" = true →
       EvGet (portName (Source def)) fact ∈ gets).
Proof.
  intros (Hrange & _) Hrun. unfold gatherFacts in Hrun.
  set (names := range_needed sched (elements (neededBaseFacts c operation)))
    in Hrun.
  assert (NoDup names) as Hnd
    by (unfold names; rewrite Hrange; apply NoDup_elements).
  assert (∀ n, n ∈ names ↔ n ∈ neededBaseFacts c operation) as Hnames.
  { intros n. unfold names. rewrite Hrange. apply elem_of_elements. }
  destruct (gather_range _ _ _ _ _ _) as [r1 started] eqn:Hloop1.
  apply gather_range_gen in Hloop1 as (passed & rest & Hsplit & Hstarted & Hr1).
  simpl in Hstarted. subst started.
  assert (gets = map (λ nd : string * FactDef,
                        EvGet (portName (Source nd.2)) nd.1)
                     (flat_map (launches c) passed)) as ->.
  { destruct r1; congruence. }
  split_and!.
  - rewrite <- list_fmap_compose.
    rewrite Hsplit in Hnd. apply NoDup_app in Hnd as (Hnd & _).
    by apply started_NoDup.
  - intros ev ([fact def] & -> & Hin)%list_elem_of_fmap.
    apply started_elem in Hin as (Hin & Hdef & Hi & Hc & Hp).
    exists fact, def. simpl. split_and!; try done.
    + apply Hnames. rewrite Hsplit. set_solver.
    + by apply String.eqb_neq.
    + by apply String.eqb_neq.
  - intros Hnot fact def Hneeded Hdef Hi Hc Hp.
    assert (rest = []) as ->.
    { destruct r1 as [facts1|e1]; [done|]. injection Hrun as <-.
      destruct Hr1 as (n & d & _ & _ & _ & _ & _ & ->).
      by destruct (Hnot _ eq_refl). }
    rewrite app_nil_r in Hsplit. subst passed.
    apply list_elem_of_fmap. exists (fact, def). split; [done|].
    apply started_elem. split_and!; try done.
    + by apply Hnames.
    + by apply String.eqb_neq.
    + by apply String.eqb_neq.
Qed.

Lemma gather_fetches_port_facts_once_witness :
  valid_schedule Examples.in_order
  ∧ ∀ rt,
      gatherFacts rt Outage.down_ports Examples.in_order
        (Outage.status_contract "skip") "ProcessPayment" ∅
      = (Ok ∅, [EvGet "customerRepo" "customer.status"])
      ∧ NoDup (event_fact <$> [EvGet "customerRepo" "customer.status"]).
Proof.
  split; [exact in_order_valid|]. intros rt.
  assert (gatherFacts rt Outage.down_ports Examples.in_order
            (Outage.status_contract "skip") "ProcessPayment" ∅
          = (Ok ∅, [EvGet "customerRepo" "customer.status"])) as Hg
    by by vm_compute.
  split; [exact Hg|].
  exact (proj1 (gather_fetches_port_facts_once rt _ _ _ _ _ _ _
                  in_order_valid Hg)).
Defined.

(** ** The verdicts of a rule evaluation *)

Lemma rule_verdict_one v w :
  w ∈ rule_verdict v →
  rule_verdict v = [w]
  ∧ vType w ∈ ["deny"; "escalate"; "require"; "flag"]
  ∧ (is_Some (vError w) ↔ vType w = "deny")
  ∧ (vType w = "deny" ↔ is_Some (Deny v)).
Proof.
  unfold rule_verdict.
  destruct (Deny v), (Escalate v), (Require_ v), (Flag v); intros Hw;
    try (by apply elem_of_nil in Hw);
    apply list_elem_of_singleton in Hw as ->; simpl;
    (split_and!; [done|set_solver| |]);
    split; intros H; try done; try (by eexists); by destruct H.
Qed.

(** X9: every verdict of [evaluateRules] comes from a rule that the
    operation lists and whose condition holds; its type is one of deny,
    escalate, require and flag, the first of these the rule declares; it
    carries an error envelope exactly when it is a deny verdict.  A rule
    gives at most one verdict, and an operation the contract does not have
    gives none. *)
Theorem evaluateRules_verdicts rt (c : Contract) (operation : string)
    (facts : FactSet) :
  (∀ w, w ∈ evaluateRules rt c operation facts →
     vType w ∈ ["deny"; "escalate"; "require"; "flag"]
     ∧ (is_Some (vError w) ↔ vType w = "deny")
     ∧ ∃ rule, rule ∈ Rules c
               ∧ ID rule ∈ ConstrainedBy (lookup_operation c operation)
               ∧ evalCondition rt (When rule) facts = true
               ∧ rule_verdict (verdict rule) = [w]
               ∧ (vType w = "deny" ↔ is_Some (Deny (verdict rule))))
  ∧ (length (evaluateRules rt c operation facts) ≤ length (Rules c))%nat
  ∧ (Operations c !! operation = None → evaluateRules rt c operation facts = []).
Proof.
  split_and!.
  - intros w (rule & Hrule & Hid & Hcond & Hw)%evaluateRules_elem.
    destruct (rule_verdict_one _ _ Hw) as (Hone & Htype & Herr & Hdeny).
    split_and!; [done..|]. by exists rule.
  - unfold evaluateRules. induction (Rules c) as [|rule rules IH]; [done|].
    simpl. rewrite length_app.
    assert (length (if decide (ID rule ∈ (list_to_set
                       (ConstrainedBy (lookup_operation c operation))
                       : gset string))
                    then if evalCondition rt (When rule) facts
                         then rule_verdict (verdict rule) else []
                    else []) ≤ 1)%nat; [|lia].
    unfold rule_verdict. repeat case_match; simpl; lia.
  - intros Hop. unfold evaluateRules, lookup_operation. rewrite Hop. simpl.
    induction (Rules c) as [|rule rules IH]; [done|]. simpl. rewrite IH.
    by rewrite decide_False by set_solver.
Qed.

(** ** Values of derived facts *)

Lemma evalDerivation_bool rt d facts val :
  evalDerivation rt d facts = Ok val → ∃ b, val = VBool b.
Proof.
  unfold evalDerivation, compare_args.
  repeat case_match; intros; simplify_eq; by eexists.
Qed.

(** X10: [evalDerivation] yields a boolean for each of the seven library
    functions and the unknown-function error for any other name.  It never
    fails on its operands: a comparison with fewer than two arguments, or
    with an operand that is absent or not a number, is false; [and] of no
    argument is true, [or] of none is false, [not] of none is true and
    [not] of a value that is no boolean is false. *)
Theorem evalDerivation_results rt (d : Derivation) (facts : FactSet) :
  (known_fn (Fn d) → ∃ b, evalDerivation rt d facts = Ok (VBool b))
  ∧ (¬ known_fn (Fn d) →
       evalDerivation rt d facts
       = Err (errorString ("unknown derivation function: " +:+ Fn d)))
  ∧ (Fn d ∈ ["greater_than"; "greater_or_equal"; "less_than"; "equals"] →
       (length (Args d) < 2)%nat →
       evalDerivation rt d facts = Ok (VBool false))
  ∧ (Fn d ∈ ["greater_than"; "greater_or_equal"; "less_than"] →
       ∀ a0 a1 rest, Args d = a0 :: a1 :: rest →
       (toFloat (getArg facts a0).1).2 = false
       ∨ (toFloat (getArg facts a1).1).2 = false →
       evalDerivation rt d facts = Ok (VBool false))
  ∧ (Args d = [] →
       (Fn d = "and" → evalDerivation rt d facts = Ok (VBool true))
       ∧ (Fn d = "or" → evalDerivation rt d facts = Ok (VBool false))
       ∧ (Fn d = "not" → evalDerivation rt d facts = Ok (VBool true)))
  ∧ (Fn d = "not" → ∀ a0 rest, Args d = a0 :: rest →
       (∀ b, (getArg facts a0).1 ≠ VBool b) →
       evalDerivation rt d facts = Ok (VBool false)).
Proof.
  split_and!.
  - intros Hfn. destruct (evalDerivation_known rt d facts Hfn) as [v Hv].
    destruct (evalDerivation_bool _ _ _ _ Hv) as [b ->]. by exists b.
  - intros Hfn. unfold evalDerivation.
    repeat match goal with
           | |- context [String.eqb (Fn d) ?s] =>
               destruct (String.eqb_spec (Fn d) s) as [Heq|_];
               [destruct Hfn; unfold known_fn; rewrite Heq; set_solver|]
           end.
    done.
  - intros Hfn Hlen. unfold evalDerivation, compare_args.
    destruct (Args d) as [|a0 [|a1 rest]]; [| |simpl in Hlen; lia];
      repeat (apply elem_of_cons in Hfn as [-> | Hfn]; [done|]);
      by apply elem_of_nil in Hfn.
  - intros Hfn a0 a1 rest HArgs Hnum. unfold evalDerivation, compare_args.
    rewrite HArgs.
    destruct (toFloat (getArg facts a0).1) as [fa oka].
    destruct (toFloat (getArg facts a1).1) as [fb okb]. simpl in Hnum.
    assert (oka && okb = false) as Hok.
    { destruct Hnum as [-> | ->]; [done|by destruct oka]. }
    repeat (apply elem_of_cons in Hfn as [-> | Hfn]; [simpl; by rewrite Hok|]).
    by apply elem_of_nil in Hfn.
  - intros HArgs. unfold evalDerivation. rewrite HArgs.
    split_and!; by intros ->.
  - intros Hfn a0 rest HArgs Hnb. unfold evalDerivation. rewrite Hfn, HArgs.
    simpl. destruct ((getArg facts a0).1) eqn:Hv; try done.
    by destruct (Hnb b).
Qed.

Lemma derive_loop_lookup rt c names : ∀ facts facts' evaluated,
  derive_loop rt c names facts = (Ok facts', evaluated) →
  (∀ n, n ∉ names → facts' !! n = facts !! n)
  ∧ (∀ n, n ∈ names → ∃ b, facts' !! n = Some (VBool b)).
Proof.
  induction names as [|name names IH]; intros facts facts' evaluated Hrun;
    simpl in Hrun.
  - injection Hrun as <- _. split; [done|]. intros n Hn. by apply elem_of_nil in Hn.
  - destruct (evalDerivation _ _ _) as [val|e] eqn:Heval; [|done].
    destruct (derive_loop rt c names (Set_ facts name val)) as [r ev] eqn:Hloop.
    injection Hrun as -> _.
    destruct (IH _ _ _ Hloop) as [Hout Hin]. unfold Set_ in *. split.
    + intros n Hn. rewrite Hout by set_solver.
      rewrite lookup_insert_ne; [done|]. set_solver.
    + intros n Hn. destruct (decide (n ∈ names)) as [?|Hnot]; [by apply Hin|].
      apply elem_of_cons in Hn as [-> |?]; [|done].
      rewrite Hout by done. rewrite lookup_insert_eq.
      destruct (evalDerivation_bool _ _ _ _ Heval) as [b ->]. by exists b.
Qed.

(** X11: when [deriveFacts] returns without error, every derived fact of
    the contract holds a boolean in the fact set, also where a gathered
    fact had the same name, and every other entry of the fact set is as it
    was. *)
Theorem derived_facts_are_booleans rt (sched : Schedule) (c : Contract)
    (facts facts' : FactSet) :
  valid_schedule sched →
  deriveFacts rt sched c facts = Ok facts' →
  (∀ n, is_Some (DerivedFacts c !! n) → ∃ b, facts' !! n = Some (VBool b))
  ∧ (∀ n, DerivedFacts c !! n = None → facts' !! n = facts !! n).
Proof.
  intros Hvalid Hrun.
  destruct (deriveFacts_spec rt sched c facts Hvalid) as (_ & _ & Hall & _).
  unfold deriveFacts, deriveFacts_traced in Hrun.
  destruct (derive_loop _ _ _ _) as [r ev] eqn:Hloop. simpl in Hrun. subst r.
  destruct (derive_loop_lookup _ _ _ _ _ _ Hloop) as [Hout Hin]. split.
  - intros n Hn. apply Hin. by apply Hall.
  - intros n Hn. apply Hout. intros Hin'%Hall. rewrite Hn in Hin'.
    by destruct Hin'.
Qed.

Lemma derived_facts_are_booleans_witness :
  valid_schedule Examples.in_order
  ∧ ∀ rt,
      deriveFacts rt Examples.in_order Examples.chain_contract
        {[ "b" := VString "gathered" ]}
      = Ok {[ "a" := VBool true; "b" := VBool false ]}
      ∧ ∃ b, ({[ "a" := VBool true; "b" := VBool false ]} : gmap string any)
             !! "b" = Some (VBool b).
Proof.
  split; [exact in_order_valid|]. intros rt.
  assert (deriveFacts rt Examples.in_order Examples.chain_contract
            {[ "b" := VString "gathered" ]}
          = Ok {[ "a" := VBool true; "b" := VBool false ]}) as Hrun
    by by vm_compute.
  split; [exact Hrun|].
  apply (proj1 (derived_facts_are_booleans rt _ _ _ _ in_order_valid Hrun)).
  by eexists.
Defined.

(** ** What the needed base facts are *)

Lemma requires_fact c path n : requires c path n → is_Some (Facts c !! n).
Proof. induction 1; done. Qed.

Lemma addPath_args_sound c fuel :
  (∀ path st st', addPath c fuel path st = Some st' →
     ∀ n, n ∈ needed st' → n ∈ needed st ∨ requires c path n) →
  ∀ args st st', foldM (addPath_arg c fuel) st args = Some st' →
    ∀ n, n ∈ needed st' →
      n ∈ needed st
      ∨ ∃ arg, arg ∈ args ∧ argFact arg ≠ "" ∧ requires c (argFact arg) n.
Proof.
  intros IH args. induction args as [|arg args IHargs]; intros st st' Hrun n Hn;
    simpl in Hrun.
  - injection Hrun as <-. by left.
  - unfold addPath_arg at 1 in Hrun.
    destruct (String.eqb_spec (argFact arg) "") as [?|Hne]; simpl in Hrun.
    + destruct (IHargs _ _ Hrun n Hn) as [?|(a & Ha & Hrest)]; [by left|].
      right. exists a. split; [set_solver|done].
    + destruct (addPath c fuel (argFact arg) st) as [st1|] eqn:Hadd; [|done].
      destruct (IHargs _ _ Hrun n Hn) as [Hn1|(a & Ha & Hrest)].
      * destruct (IH _ _ _ Hadd n Hn1) as [?|Hreq]; [by left|].
        right. exists arg. split; [set_solver|done].
      * right. exists a. split; [set_solver|done].
Qed.

Lemma addPath_sound c fuel : ∀ path st st',
  addPath c fuel path st = Some st' →
  ∀ n, n ∈ needed st' → n ∈ needed st ∨ requires c path n.
Proof.
  induction fuel as [|fuel IH]; intros path st st' Hrun n Hn; [done|].
  rewrite addPath_unfold in Hrun.
  destruct (decide (is_Some (Facts c !! path))) as [Hfact|Hfact].
  { injection Hrun as <-. simpl in Hn.
    apply elem_of_union in Hn as [->%elem_of_singleton|?]; [|by left].
    right. by constructor. }
  assert (Facts c !! path = None) as Hnone.
  { destruct (Facts c !! path) eqn:H; [|done]. destruct Hfact. by eexists. }
  destruct (DerivedFacts c !! path) as [df|] eqn:Hdf.
  - destruct (decide (path ∈ derivedVisited st)); [injection Hrun as <-; by left|].
    destruct (addPath_args_sound c fuel IH _ _ _ Hrun n Hn)
      as [?|(arg & Harg & Hne & Hreq)]; [by left|].
    right. by eapply requires_derived.
  - simpl in Hrun.
    destruct (longest_prefix _ _ _) as [prefix|] eqn:Hprefix;
      [|injection Hrun as <-; by left].
    destruct (decide (is_Some (Facts c !! prefix))) as [Hpf|Hpf].
    + injection Hrun as <-. simpl in Hn.
      apply elem_of_union in Hn as [->%elem_of_singleton|?]; [|by left].
      right. eapply requires_prefix; [done..|]. by constructor.
    + destruct (IH _ _ _ Hrun n Hn) as [?|Hreq]; [by left|].
      right. by eapply requires_prefix.
Qed.

Lemma handled_mono c st st' path :
  need_grows st st' → handled c st path → handled c st' path.
Proof.
  intros [Hn Hv]. unfold handled. destruct (target c path) as [t|]; [|done].
  case_decide; set_solver.
Qed.

Lemma need_grows_refl st : need_grows st st.
Proof. by split. Qed.

Lemma need_grows_trans st1 st2 st3 :
  need_grows st1 st2 → need_grows st2 st3 → need_grows st1 st3.
Proof. intros [? ?] [? ?]. split; set_solver. Qed.

Lemma target_self c t :
  is_Some (Facts c !! t) ∨ is_Some (DerivedFacts c !! t) → target c t = Some t.
Proof. unfold target. intros [?|?]; repeat case_decide; done. Qed.

Lemma addPath_args_complete c fuel :
  (∀ path st st' stack, addPath c fuel path st = Some st' →
     need_inv c stack st →
     need_inv c stack st' ∧ need_grows st st' ∧ handled c st' path) →
  ∀ args st st' stack, foldM (addPath_arg c fuel) st args = Some st' →
    need_inv c stack st →
    need_inv c stack st' ∧ need_grows st st'
    ∧ (∀ arg, arg ∈ args → argFact arg ≠ "" → handled c st' (argFact arg)).
Proof.
  intros IH args.
  induction args as [|arg args IHargs]; intros st st' stack Hrun Hinv;
    simpl in Hrun.
  - injection Hrun as <-. split_and!; [done|apply need_grows_refl|].
    intros arg Harg. by apply elem_of_nil in Harg.
  - unfold addPath_arg at 1 in Hrun.
    destruct (String.eqb_spec (argFact arg) "") as [Hempty|Hne]; simpl in Hrun.
    + destruct (IHargs _ _ stack Hrun Hinv) as (Hinv' & Hgrow & Hargs).
      split_and!; [done..|].
      intros a [-> |Ha]%elem_of_cons Hne; [done|by apply Hargs].
    + destruct (addPath c fuel (argFact arg) st) as [st1|] eqn:Hadd; [|done].
      destruct (IH _ _ _ stack Hadd Hinv) as (Hinv1 & Hgrow1 & Hhandled).
      destruct (IHargs _ _ stack Hrun Hinv1) as (Hinv' & Hgrow & Hargs).
      split_and!; [done|by eapply need_grows_trans|].
      intros a [-> |Ha]%elem_of_cons Hne'; [|by apply Hargs].
      by eapply handled_mono.
Qed.

Lemma need_inv_grow_needed c stack st t :
  need_inv c stack st →
  need_inv c stack {| needed := {[t]} ∪ needed st;
                      derivedVisited := derivedVisited st |}.
Proof.
  intros [Hvis Hclosed]. split; [done|].
  intros d df arg Hd Hstack Hdf Harg Hne. simpl in Hd.
  eapply handled_mono; [|by eapply Hclosed]. split; simpl; set_solver.
Qed.

Lemma addPath_complete c fuel : ∀ path st st' stack,
  addPath c fuel path st = Some st' →
  need_inv c stack st →
  need_inv c stack st' ∧ need_grows st st' ∧ handled c st' path.
Proof.
  induction fuel as [|fuel IH]; intros path st st' stack Hrun Hinv; [done|].
  rewrite addPath_unfold in Hrun. unfold handled, target.
  destruct (decide (is_Some (Facts c !! path))) as [Hfact|Hfact].
  { injection Hrun as <-. split_and!.
    - by apply need_inv_grow_needed.
    - split; simpl; set_solver.
    - rewrite decide_True by done. simpl. set_solver. }
  assert (Facts c !! path = None) as Hnone.
  { destruct (Facts c !! path) eqn:H; [|done]. destruct Hfact. by eexists. }
  destruct (DerivedFacts c !! path) as [df|] eqn:Hdf.
  - rewrite decide_True by by eexists. rewrite decide_False by done.
    destruct (decide (path ∈ derivedVisited st)) as [Hin|Hnot].
    { injection Hrun as <-. split_and!; [done|apply need_grows_refl|done]. }
    destruct Hinv as [Hvis Hclosed].
    destruct (addPath_args_complete c fuel IH _ _ _ (path :: stack) Hrun)
      as ([Hvis2 Hclosed2] & [Hn2 Hv2] & Hargs).
    { split; simpl.
      - intros d [->%elem_of_singleton|Hd]%elem_of_union; [|by apply Hvis].
        split; [done|by eexists].
      - intros d df' arg [->%elem_of_singleton|Hd]%elem_of_union Hstack;
          [set_solver|].
        intros Hdf' Harg Hne. eapply handled_mono; [|eapply Hclosed; try done].
        + split; simpl; set_solver.
        + set_solver. }
    simpl in Hn2, Hv2. split_and!.
    + split; [done|]. intros d df' arg Hd Hstack Hdf' Harg Hne.
      destruct (decide (d = path)) as [-> |Hdp].
      * rewrite Hdf in Hdf'. injection Hdf' as <-. by apply Hargs.
      * eapply Hclosed2; try done. set_solver.
    + split; set_solver.
    + set_solver.
  - rewrite decide_False by by intros [? ?]. simpl in Hrun.
    destruct (longest_prefix _ _ _) as [prefix|] eqn:Hprefix.
    2:{ injection Hrun as <-. split_and!; [done|apply need_grows_refl|done]. }
    destruct (decide (is_Some (Facts c !! prefix))) as [Hpf|Hpf].
    + injection Hrun as <-. split_and!.
      * by apply need_inv_grow_needed.
      * split; simpl; set_solver.
      * simpl. set_solver.
    + destruct (IH _ _ _ stack Hrun Hinv) as (Hinv' & Hgrow & Hhandled).
      split_and!; [done..|].
      unfold handled in Hhandled. rewrite target_self in Hhandled.
      * by rewrite decide_False in Hhandled by done.
      * by apply longest_prefix_Some in Hprefix.
Qed.

Lemma requires_needed c st :
  need_inv c [] st →
  ∀ path n, requires c path n → handled c st path → n ∈ needed st.
Proof.
  intros [Hvis Hclosed] path n Hreq.
  induction Hreq as [path Hfact|path df arg n Hnone Hdf Harg Hne Hreq IH
                    |path prefix n Hnone Hdnone Hprefix Hreq IH];
    unfold handled, target.
  - rewrite !decide_True by done. done.
  - rewrite decide_False by (rewrite Hnone; by intros [? ?]).
    rewrite decide_True by by eexists.
    rewrite decide_False by (rewrite Hnone; by intros [? ?]).
    intros Hin. apply IH. eapply Hclosed; try done. set_solver.
  - rewrite decide_False by (rewrite Hnone; by intros [? ?]).
    rewrite decide_False by (rewrite Hdnone; by intros [? ?]).
    rewrite Hprefix. intros Hh. apply IH. unfold handled.
    rewrite target_self; [done|]. by apply longest_prefix_Some in Hprefix.
Qed.

Lemma need_run_spec c paths : ∀ st st',
  foldM (λ st path, addPath c (addPath_fuel c) path st) st paths = Some st' →
  need_inv c [] st →
  need_inv c [] st' ∧ need_grows st st'
  ∧ (∀ path, path ∈ paths → handled c st' path)
  ∧ (∀ n, n ∈ needed st' →
       n ∈ needed st ∨ ∃ path, path ∈ paths ∧ requires c path n).
Proof.
  induction paths as [|path paths IH]; intros st st' Hrun Hinv;
    cbn [foldM] in Hrun.
  - injection Hrun as <-. split_and!; [done|apply need_grows_refl| |by left].
    intros path Hp. by apply elem_of_nil in Hp.
  - destruct (addPath c (addPath_fuel c) path st) as [st1|] eqn:Hadd; [|done].
    destruct (addPath_complete _ _ _ _ _ [] Hadd Hinv)
      as (Hinv1 & Hgrow1 & Hh1).
    destruct (IH _ _ Hrun Hinv1) as (Hinv' & Hgrow & Hhandled & Hsound).
    split_and!; [done|by eapply need_grows_trans| |].
    + intros p [-> |Hp]%elem_of_cons; [by eapply handled_mono|by apply Hhandled].
    + intros n Hn. destruct (Hsound n Hn) as [Hn1|(p & Hp & Hreq)].
      * destruct (addPath_sound _ _ _ _ _ Hadd n Hn1) as [?|Hreq]; [by left|].
        right. exists path. split; [set_solver|done].
      * right. exists p. split; [set_solver|done].
Qed.

(** X12: the needed base facts of an operation are exactly the base facts
    that the fact references in the conditions of its constraining rules
    stand for, directly, through the arguments of derived facts, or as the
    longest prefix of a dotted path; all of them are declared base facts,
    and an operation the contract does not have needs none. *)
Theorem neededBaseFacts_spec (c : Contract) (operation : string) :
  (∀ n, n ∈ neededBaseFacts c operation →
     is_Some (Facts c !! n) ∧ is_Some (Operations c !! operation))
  ∧ (Operations c !! operation = None → neededBaseFacts c operation = ∅)
  ∧ (∀ op, Operations c !! operation = Some op →
     ∀ n, n ∈ neededBaseFacts c operation ↔
          ∃ rule path, rule ∈ Rules c ∧ ID rule ∈ ConstrainedBy op
                       ∧ path ∈ collectFromCondition (When rule)
                       ∧ requires c path n).
Proof.
  assert (∀ op, Operations c !! operation = Some op →
     ∀ n, n ∈ neededBaseFacts c operation ↔
          ∃ rule path, rule ∈ Rules c ∧ ID rule ∈ ConstrainedBy op
                       ∧ path ∈ collectFromCondition (When rule)
                       ∧ requires c path n) as Hspec.
  { intros op Hop n.
    destruct (neededBaseFacts_run_total c operation) as (st & Hrun & ->).
    unfold neededBaseFacts_run in Hrun. rewrite Hop in Hrun.
    apply need_run_spec in Hrun as (Hinv & _ & Hhandled & Hsound).
    2:{ split; simpl; intros d; set_solver. }
    assert (∀ path, path ∈ flat_map (λ r, collectFromCondition (When r))
                             (constraining_rules c op) ↔
              ∃ rule, rule ∈ Rules c ∧ ID rule ∈ ConstrainedBy op
                      ∧ path ∈ collectFromCondition (When rule)) as Hpaths.
    { intros path. rewrite list_elem_of_In, in_flat_map. split.
      - intros (rule & Hrule & Hp). exists rule.
        apply list_elem_of_In in Hp. unfold constraining_rules in Hrule.
        apply in_flat_map in Hrule as (id & Hid & Hrule).
        apply list_elem_of_In, list_elem_of_filter in Hrule as [<- Hrule].
        by apply list_elem_of_In in Hid.
      - intros (rule & Hrule & Hid & Hp). exists rule.
        split; [|by apply list_elem_of_In].
        unfold constraining_rules. apply in_flat_map. exists (ID rule).
        split; [by apply list_elem_of_In|].
        apply list_elem_of_In, list_elem_of_filter. done. }
    split.
    - intros Hn. destruct (Hsound n Hn) as [Hempty|(path & Hp & Hreq)];
        [set_solver|].
      apply Hpaths in Hp as (rule & Hrule & Hid & Hp).
      exists rule, path. by split_and!.
    - intros (rule & path & Hrule & Hid & Hp & Hreq).
      eapply requires_needed; [done|done|]. apply Hhandled, Hpaths.
      exists rule. by split_and!. }
  split_and!; [|by intros Hop; unfold neededBaseFacts, neededBaseFacts_run;
                 rewrite Hop|done].
  intros n Hn. destruct (Operations c !! operation) as [op|] eqn:Hop.
  - split; [|by eexists].
    apply (Hspec op eq_refl) in Hn as (_ & path & _ & _ & _ & Hreq).
    by eapply requires_fact.
  - unfold neededBaseFacts, neededBaseFacts_run in Hn. rewrite Hop in Hn.
    set_solver.
Qed.

(** ** Resolution of dotted paths *)

Lemma Split_cons_dot s t :
  dotless s = true → Split "." (s +:+ "." +:+ t) = s :: Split "." t.
Proof.
  induction s as [|ch s IH]; simpl; [done|].
  intros [Hch Hs]%andb_true_iff. apply negb_true_iff in Hch. rewrite Hch.
  by rewrite (IH Hs).
Qed.

Lemma Split_dotless s : dotless s = true → Split "." s = [s].
Proof.
  induction s as [|ch s IH]; simpl; [done|].
  intros [Hch Hs]%andb_true_iff. apply negb_true_iff in Hch. rewrite Hch.
  by rewrite (IH Hs).
Qed.

Lemma Split_Join part parts :
  Forall (λ s, dotless s = true) (part :: parts) →
  Split "." (Join (part :: parts) ".") = part :: parts.
Proof.
  revert part. induction parts as [|p parts IH]; intros part Hall.
  - simpl. apply Split_dotless. by apply Forall_inv in Hall.
  - apply Forall_cons in Hall as [Hpart Hall].
    change (Join (part :: p :: parts) ".")
      with (part +:+ "." +:+ Join (p :: parts) ".").
    rewrite Split_cons_dot by done. by rewrite IH.
Qed.

Lemma GetPath_loop_found (facts : FactSet) parts i v : ∀ k,
  (0 < i ≤ k)%nat →
  facts !! Join (take i parts) "." = Some v →
  (∀ j, (i < j ≤ k)%nat → facts !! Join (take j parts) "." = None) →
  GetPath_loop facts parts k = navigatePath v (drop i parts).
Proof.
  induction k as [|k IH]; intros Hik Hv Hnone; [lia|]. simpl.
  destruct (decide (i = S k)) as [-> |Hne].
  - by rewrite Hv.
  - rewrite (Hnone (S k)) by lia. apply IH; [lia|done|].
    intros j Hj. apply Hnone. lia.
Qed.

Lemma GetPath_loop_absent (facts : FactSet) parts : ∀ k,
  (∀ j, (0 < j ≤ k)%nat → facts !! Join (take j parts) "." = None) →
  GetPath_loop facts parts k = (VNil, false).
Proof.
  induction k as [|k IH]; intros Hnone; [done|]. simpl.
  rewrite (Hnone (S k)) by lia. apply IH. intros j Hj. apply Hnone. lia.
Qed.

(** X13: [GetPath] on a dotted path returns the fact stored under the
    full path when there is one; otherwise it takes the fact stored under
    the longest proper prefix of whole segments and walks the remaining
    segments into it as map keys; and when no such prefix is stored the
    path is absent. *)
Theorem GetPath_longest_prefix (facts : FactSet) (part : string)
    (parts : list string) :
  Forall (λ s, dotless s = true) (part :: parts) →
  let path := Join (part :: parts) "." in
  (∀ v, facts !! path = Some v → GetPath facts path = (v, true))
  ∧ (∀ i v, facts !! path = None →
       (0 < i < length (part :: parts))%nat →
       facts !! Join (take i (part :: parts)) "." = Some v →
       (∀ j, (i < j < length (part :: parts))%nat →
          facts !! Join (take j (part :: parts)) "." = None) →
       GetPath facts path = navigatePath v (drop i (part :: parts)))
  ∧ (facts !! path = None →
       (∀ j, (0 < j < length (part :: parts))%nat →
          facts !! Join (take j (part :: parts)) "." = None) →
       GetPath facts path = (VNil, false)).
Proof.
  intros Hall path. unfold GetPath. split_and!.
  - by intros v ->.
  - intros i v Hnone Hi Hv Hlonger. rewrite Hnone.
    unfold path. rewrite (Split_Join _ _ Hall).
    apply GetPath_loop_found; [lia|done|]. intros j Hj. apply Hlonger. lia.
  - intros Hnone Hprefixes. rewrite Hnone.
    unfold path. rewrite (Split_Join _ _ Hall).
    apply GetPath_loop_absent. intros j Hj. apply Hprefixes. lia.
Qed.

Lemma GetPath_longest_prefix_witness :
  Forall (λ s, dotless s = true) ["payment"; "amount"; "value"]
  ∧ GetPath {[ "payment.amount" :=
                 VMap [("value", VInt 500); ("currency", VString "USD")] ]}
      "payment.amount.value"
    = (VInt 500, true).
Proof.
  assert (Forall (λ s, dotless s = true) ["payment"; "amount"; "value"]) as Hall
    by (repeat constructor).
  split; [exact Hall|].
  exact (proj1 (proj2 (GetPath_longest_prefix
           {[ "payment.amount" :=
                VMap [("value", VInt 500); ("currency", VString "USD")] ]}
           "payment" ["amount"; "value"] Hall))
         2%nat (VMap [("value", VInt 500); ("currency", VString "USD")])
         eq_refl ltac:(simpl; lia) eq_refl
         ltac:(intros j Hj; simpl in Hj; lia)).
Defined.

(** ** The port registry *)

(** X14: a call on a port that is not registered fails with the
    not-registered error and reaches no client; a call on a registered
    port is the call on the client registered last under that name, and
    registering a client leaves the calls on every other port as they
    were. *)
Theorem registry_dispatch rt (r : Registry) (name : string) (cl : Client)
    (port key : string) (input : gmap string any) :
  (r !! port = None →
     Registry_Get rt r port key input = inr (not_registered rt port)
     ∧ Registry_Execute rt r port key input = inr (not_registered rt port))
  ∧ Registry_Get rt NewRegistry port key input = inr (not_registered rt port)
  ∧ Registry_Get rt (Register r name cl) name key input
    = client_Get cl key input
  ∧ Registry_Execute rt (Register r name cl) name key input
    = client_Execute cl key input
  ∧ (port ≠ name →
       Registry_Get rt (Register r name cl) port key input
       = Registry_Get rt r port key input
       ∧ Registry_Execute rt (Register r name cl) port key input
         = Registry_Execute rt r port key input)
  ∧ (∀ cl', Register (Register r name cl') name cl = Register r name cl).
Proof.
  unfold Registry_Get, Registry_Execute, Register, NewRegistry. split_and!.
  - by intros ->.
  - by rewrite lookup_empty.
  - by rewrite lookup_insert_eq.
  - by rewrite lookup_insert_eq.
  - intros Hne. by rewrite lookup_insert_ne.
  - intros cl'. apply insert_insert_eq.
Qed.

(** A live request that passed every stage and is neither denied nor
    escalated is answered from what Execute on invoiceRepo returns. *)
Lemma evaluate_permitted_live rt (e : Engine) (sched : Schedule)
    (req : Request) (c : Contract) (op : OperationDef) (facts0 facts : FactSet)
    (gets : list PortEvent) :
  contract e = Some c →
  ContractETag req = "" ∨ ContractETag req = contractETag e →
  Operations c !! Operation req = Some op →
  gatherFacts rt (ports e) sched c (Operation req) (Input req) = (Ok facts0, gets) →
  deriveFacts rt sched c facts0 = Ok facts →
  DryRun req = false →
  (∀ v, resolveVerdicts (evaluateRules rt c (Operation req) facts) = Some v →
     vType v ≠ "deny" ∧ vType v ≠ "escalate") →
  (Evaluate rt e sched req).1
  = Ok match port_Execute (ports e) "invoiceRepo" (Operation req) (Input req) with
       | inl out =>
           {| Outcome := "executed"; Output := out; Error := None;
              Verdicts := evaluateRules rt c (Operation req) facts;
              FactSnapshot := None; rDryRun := false |}
       | inr msg => execution_failed msg
       end.
Proof.
  intros Hc Hetag Hop Hgather Hderive Hlive Hfinal.
  rewrite (evaluate_after_derive rt e sched req c op facts0 facts gets) by done.
  simpl. rewrite Hlive.
  assert ((match resolveVerdicts (evaluateRules rt c (Operation req) facts) with
           | Some f =>
               if String.eqb (vType f) "deny" then
                 (Ok {| Outcome := "denied"; Output := None; Error := vError f;
                        Verdicts := evaluateRules rt c (Operation req) facts;
                        FactSnapshot := None; rDryRun := false |}, gets)
               else if String.eqb (vType f) "escalate" then
                 (Ok {| Outcome := "escalated"; Output := None; Error := None;
                        Verdicts := evaluateRules rt c (Operation req) facts;
                        FactSnapshot := None; rDryRun := false |}, gets)
               else execute_step e op req
                      (evaluateRules rt c (Operation req) facts) gets
           | None => execute_step e op req
                       (evaluateRules rt c (Operation req) facts) gets
           end)
          = execute_step e op req (evaluateRules rt c (Operation req) facts)
              gets) as ->.
  { destruct (resolveVerdicts _) as [f|]; [|done].
    destruct (Hfinal f eq_refl) as [Hnd Hne].
    by rewrite (proj2 (String.eqb_neq _ _) Hnd),
               (proj2 (String.eqb_neq _ _) Hne). }
  unfold execute_step. simpl.
  by destruct (port_Execute _ _ _ _).
Qed.

(** X15: whatever the operation, the engine executes on the client
    registered as invoiceRepo: a live request that is let through is
    answered with that client's output as executed, or with its error as
    EXECUTION_FAILED; with no such client registered it always ends in
    EXECUTION_FAILED, the port being reported as not registered. *)
Theorem execute_goes_to_invoiceRepo rt (e : Engine) (sched : Schedule)
    (req : Request) (c : Contract) (op : OperationDef) (facts0 facts : FactSet)
    (gets : list PortEvent) (r : Registry) :
  ports e = registry_ports rt r →
  contract e = Some c →
  ContractETag req = "" ∨ ContractETag req = contractETag e →
  Operations c !! Operation req = Some op →
  gatherFacts rt (ports e) sched c (Operation req) (Input req) = (Ok facts0, gets) →
  deriveFacts rt sched c facts0 = Ok facts →
  DryRun req = false →
  (∀ v, resolveVerdicts (evaluateRules rt c (Operation req) facts) = Some v →
     vType v ≠ "deny" ∧ vType v ≠ "escalate") →
  (∀ cl, r !! "invoiceRepo" = Some cl →
     (Evaluate rt e sched req).1
     = Ok match client_Execute cl (Operation req) (Input req) with
          | inl out =>
              {| Outcome := "executed"; Output := out; Error := None;
                 Verdicts := evaluateRules rt c (Operation req) facts;
                 FactSnapshot := None; rDryRun := false |}
          | inr msg => execution_failed msg
          end)
  ∧ (r !! "invoiceRepo" = None →
     (Evaluate rt e sched req).1
     = Ok (execution_failed (not_registered rt "invoiceRepo"))).
Proof.
  intros Hports Hc Hetag Hop Hgather Hderive Hlive Hfinal.
  rewrite (evaluate_permitted_live rt e sched req c op facts0 facts gets)
    by done.
  rewrite Hports. simpl. unfold Registry_Execute. split.
  - by intros cl ->.
  - by intros ->.
Qed.

Lemma execute_goes_to_invoiceRepo_witness :
  DryRun (Examples.live "") = false
  ∧ ∀ rt,
      (Evaluate rt
         {| contract := Some (Examples.flag_contract "r1");
            contractETag := "etag-1";
            ports := registry_ports rt NewRegistry |}
         Examples.in_order (Examples.live "")).1
      = Ok (execution_failed (not_registered rt "invoiceRepo")).
Proof.
  split; [reflexivity|]. intros rt.
  refine (proj2 (execute_goes_to_invoiceRepo rt
           {| contract := Some (Examples.flag_contract "r1");
              contractETag := "etag-1";
              ports := registry_ports rt NewRegistry |}
           Examples.in_order (Examples.live "") (Examples.flag_contract "r1")
           {| ConstrainedBy := ["r1"]; Transitions := [] |} ∅ ∅ [] NewRegistry
           eq_refl eq_refl (or_introl eq_refl) eq_refl eq_refl eq_refl eq_refl
           _) eq_refl).
  intros v Hv. vm_compute in Hv. injection Hv as <-. by split.
Defined.

(** ** The in-memory adapters *)

(** What the invoice repository accepts: the input names a stored invoice
    and the operation is GetInvoice, or ProcessPayment with a map as
    payment.amount. *)
Lemma InvoiceRepo_Execute_accepts rt rand (r : gmap string invoice)
    (operation : string) (input : gmap string any) :
  (∃ out, (InvoiceRepo_Execute rt rand r operation input).1 = inl out)
  ↔ input_string input "invoice.id" ≠ ""
    ∧ (∃ inv, r !! input_string input "invoice.id" = Some inv)
    ∧ (operation = "ProcessPayment"
         ∧ (∃ amount, input !! "payment.amount" = Some (VMap amount))
       ∨ operation = "GetInvoice").
Proof.
  unfold InvoiceRepo_Execute.
  destruct (String.eqb_spec (input_string input "invoice.id") "") as [Hid|Hid].
  { split; [by intros [out [=]]|]. by intros [? _]. }
  destruct (r !! input_string input "invoice.id") as [inv|] eqn:Hinv.
  2:{ split; [by intros [out [=]]|]. by intros (_ & [inv [=]] & _). }
  destruct (String.eqb_spec operation "ProcessPayment") as [->|Hpay].
  { assert (∀ v, input !! "payment.amount" = v →
              (∀ amount, v ≠ Some (VMap amount)) →
              (∃ out, (@inr (option (gmap string any)) string
                         "payment.amount missing", r).1 = inl out)
              ↔ input_string input "invoice.id" ≠ ""
                ∧ (∃ inv0, Some inv = Some inv0)
                ∧ ("ProcessPayment" = "ProcessPayment"
                     ∧ (∃ amount, input !! "payment.amount" = Some (VMap amount))
                   ∨ "ProcessPayment" = "GetInvoice")) as Hmissing.
    { intros v Hv Hno. split; [by intros [out [=]]|].
      intros (_ & _ & [[_ [amount Hamount]]|[=]]).
      rewrite Hv in Hamount. by destruct (Hno amount). }
    destruct (input !! "payment.amount") as [[]|] eqn:Hamount;
      try (by apply (Hmissing _ eq_refl)).
    simpl. split; [|by eexists]. intros _.
    split_and!; [done|by exists inv|left; split; [done|by eexists]]. }
  destruct (String.eqb_spec operation "GetInvoice") as [->|Hget]; simpl.
  { split; [|by eexists]. intros _. split_and!; [done|by exists inv|by right]. }
  split; [by intros [out [=]]|]. by intros (_ & _ & [[? _]|?]).
Qed.

(** X16: a ProcessPayment on a stored invoice with a map as payment.amount
    settles the invoice whatever the amount says: it reports completed
    and a new balance of integer 0 under a payment id that starts with
    pay_, marks the invoice paid with balance 0 and leaves its id,
    currency and customer and every other invoice as they were; the
    facts read afterwards are the paid status and the zero balance. *)
Theorem process_payment_settles rt rand (r : gmap string invoice)
    (input : gmap string any) (id : string) (inv : invoice)
    (amount : list (string * any)) :
  input !! "invoice.id" = Some (VString id) →
  id ≠ "" →
  r !! id = Some inv →
  input !! "payment.amount" = Some (VMap amount) →
  let paid := {| inv_id := inv_id inv; inv_status := "paid"; inv_balance := 0;
                 inv_currency := inv_currency inv;
                 inv_customerID := inv_customerID inv |} in
  let run := InvoiceRepo_Execute rt rand r "ProcessPayment" input in
  (∃ out, run.1 = inl (Some out)
     ∧ out !! "status" = Some (VString "completed")
     ∧ out !! "payment_id" = Some (VString ("pay_" +:+ rand))
     ∧ out !! "new_balance"
       = Some (VMap [("value", VInt 0); ("currency", VString (inv_currency inv))])
     ∧ dom out = {["payment_id"; "status"; "new_balance"]})
  ∧ run.2 !! id = Some paid
  ∧ (∀ other, other ≠ id → run.2 !! other = r !! other)
  ∧ InvoiceRepo_Get rt run.2 "invoice.status" input = inl (VString "paid")
  ∧ InvoiceRepo_Get rt run.2 "invoice.balance" input
    = inl (VMap [("value", VFloat64 0); ("currency", VString (inv_currency inv))]).
Proof.
  intros Hid Hne Hinv Hamount paid run.
  assert (input_string input "invoice.id" = id) as Hstr.
  { unfold input_string. by rewrite Hid. }
  assert (run = (inl (Some
                   {[ "payment_id" := VString ("pay_" +:+ rand);
                      "status" := VString "completed";
                      "new_balance" :=
                        VMap [("value", VInt 0);
                              ("currency", VString (inv_currency inv))] ]}),
                 <[id := paid]> r)) as ->.
  { unfold run, InvoiceRepo_Execute. rewrite Hstr.
    rewrite (proj2 (String.eqb_neq _ _) Hne), Hinv. simpl. by rewrite Hamount. }
  simpl. split_and!.
  - eexists. split_and!; [done|done|done|done|].
    rewrite !dom_insert_L, dom_singleton_L. set_solver.
  - by rewrite lookup_insert_eq.
  - intros other Hother. by rewrite lookup_insert_ne.
  - unfold InvoiceRepo_Get. rewrite Hstr.
    by rewrite (proj2 (String.eqb_neq _ _) Hne), lookup_insert_eq.
  - unfold InvoiceRepo_Get. rewrite Hstr.
    by rewrite (proj2 (String.eqb_neq _ _) Hne), lookup_insert_eq.
Qed.

Lemma process_payment_settles_witness :
  NewInvoiceRepo !! "inv_003"
  = Some {| inv_id := "inv_003"; inv_status := "approved";
            inv_balance := 25000; inv_currency := "USD";
            inv_customerID := "cust_456" |}
  ∧ ∀ rt rand,
      (InvoiceRepo_Execute rt rand NewInvoiceRepo "ProcessPayment"
         {[ "invoice.id" := VString "inv_003";
            "payment.amount" := VMap [("value", VInt 1)] ]}).2 !! "inv_003"
      = Some {| inv_id := "inv_003"; inv_status := "paid"; inv_balance := 0;
                inv_currency := "USD"; inv_customerID := "cust_456" |}.
Proof.
  split; [reflexivity|]. intros rt rand.
  exact (proj1 (proj2 (process_payment_settles rt rand NewInvoiceRepo
           {[ "invoice.id" := VString "inv_003";
              "payment.amount" := VMap [("value", VInt 1)] ]}
           "inv_003" _ [("value", VInt 1)]
           eq_refl ltac:(discriminate) eq_refl eq_refl))).
Defined.

(** X17: an Execute of the invoice repository changes no invoice unless
    it is an accepted ProcessPayment: a call that fails, and every
    GetInvoice, leaves the invoices as they were; and no call adds or
    removes an invoice or changes an invoice's id, currency or customer. *)
Theorem invoice_repo_frame rt rand (r : gmap string invoice)
    (operation : string) (input : gmap string any) :
  let run := InvoiceRepo_Execute rt rand r operation input in
  ((∃ msg, run.1 = inr msg) ∨ operation ≠ "ProcessPayment" → run.2 = r)
  ∧ dom run.2 = dom r
  ∧ (∀ id inv', run.2 !! id = Some inv' →
       ∃ inv, r !! id = Some inv
         ∧ inv_id inv' = inv_id inv
         ∧ inv_currency inv' = inv_currency inv
         ∧ inv_customerID inv' = inv_customerID inv
         ∧ (inv' = inv
            ∨ inv_status inv' = "paid" ∧ inv_balance inv' = 0%float
              ∧ id = input_string input "invoice.id")).
Proof.
  intros run. unfold run, InvoiceRepo_Execute.
  assert (∀ id inv', r !! id = Some inv' →
            ∃ inv, r !! id = Some inv
              ∧ inv_id inv' = inv_id inv
              ∧ inv_currency inv' = inv_currency inv
              ∧ inv_customerID inv' = inv_customerID inv
              ∧ (inv' = inv
                 ∨ inv_status inv' = "paid" ∧ inv_balance inv' = 0%float
                   ∧ id = input_string input "invoice.id")) as Hsame.
  { intros id inv' Hlook. exists inv'. split_and!; try done. by left. }
  destruct (String.eqb_spec (input_string input "invoice.id") "") as [Hid|Hid];
    [done|].
  destruct (r !! input_string input "invoice.id") as [inv|] eqn:Hinv; [|done].
  destruct (String.eqb_spec operation "ProcessPayment") as [->|Hpay].
  2:{ by destruct (String.eqb operation "GetInvoice"). }
  destruct (input !! "payment.amount") as [[]|]; try done.
  simpl. split_and!.
  - by intros [[msg [=]]|?].
  - rewrite dom_insert_L. apply elem_of_dom_2 in Hinv. set_solver.
  - intros id inv' Hlook.
    destruct (decide (id = input_string input "invoice.id")) as [->|Hother].
    + rewrite lookup_insert_eq in Hlook. injection Hlook as <-.
      exists inv. split_and!; try done. by right.
    + rewrite lookup_insert_ne in Hlook by done. by apply Hsame.
Qed.

(** X18: the customer repository answers exactly one fact: its Get
    succeeds if and only if the input holds, under customer.id, the
    non-empty id of a stored customer and the fact is customer.status,
    and the answer is then that customer's status; like the payment
    processor it executes no operation. *)
Theorem CustomerRepo_Get_spec rt (r : gmap string customer) (fact : string)
    (input : gmap string any) (v : any) :
  (CustomerRepo_Get rt r fact input = inl v
   ↔ ∃ id cu, input !! "customer.id" = Some (VString id) ∧ id ≠ ""
       ∧ r !! id = Some cu ∧ fact = "customer.status"
       ∧ v = VString (cust_status cu))
  ∧ (∀ operation, ∃ msg,
       client_Execute (customer_client rt r) operation input = inr msg)
  ∧ (∀ p operation, ∃ msg,
       client_Execute (processor_client rt p) operation input = inr msg).
Proof.
  split_and!; [|by eexists|by eexists].
  unfold CustomerRepo_Get, input_string. split.
  - destruct (input !! "customer.id") as [[]|] eqn:Hid; try done.
    destruct (String.eqb_spec s "") as [->|Hne]; [done|].
    destruct (r !! s) as [cu|] eqn:Hcu; [|done].
    destruct (String.eqb_spec fact "customer.status") as [->|]; [|done].
    intros [= <-]. by exists s, cu.
  - intros (id & cu & -> & Hne & -> & -> & ->).
    by rewrite (proj2 (String.eqb_neq _ _) Hne).
Qed.

(** X19: with the registry the executor builds, a live request that is
    let through is answered executed exactly when the invoice repository
    accepts it: the input names a stored invoice under invoice.id and the
    operation is GetInvoice, or ProcessPayment with a map as
    payment.amount; any other such request ends in system_error. *)
Theorem executed_iff_invoice_accepts rt (e : Engine) (sched : Schedule)
    (req : Request) (c : Contract) (op : OperationDef) (facts0 facts : FactSet)
    (gets : list PortEvent) (rand : string) (customers : gmap string customer)
    (invoices : gmap string invoice) (processor : string) :
  ports e = registry_ports rt (main_registry rt rand customers invoices processor) →
  contract e = Some c →
  ContractETag req = "" ∨ ContractETag req = contractETag e →
  Operations c !! Operation req = Some op →
  gatherFacts rt (ports e) sched c (Operation req) (Input req) = (Ok facts0, gets) →
  deriveFacts rt sched c facts0 = Ok facts →
  DryRun req = false →
  (∀ v, resolveVerdicts (evaluateRules rt c (Operation req) facts) = Some v →
     vType v ≠ "deny" ∧ vType v ≠ "escalate") →
  ∃ resp, (Evaluate rt e sched req).1 = Ok resp
    ∧ (Outcome resp = "executed" ∨ Outcome resp = "system_error")
    ∧ (Outcome resp = "executed"
       ↔ input_string (Input req) "invoice.id" ≠ ""
         ∧ (∃ inv, invoices !! input_string (Input req) "invoice.id" = Some inv)
         ∧ (Operation req = "ProcessPayment"
              ∧ (∃ amount, Input req !! "payment.amount" = Some (VMap amount))
            ∨ Operation req = "GetInvoice")).
Proof.
  intros Hports Hc Hetag Hop Hgather Hderive Hlive Hfinal.
  rewrite (evaluate_permitted_live rt e sched req c op facts0 facts gets)
    by done.
  rewrite Hports. simpl. unfold Registry_Execute, main_registry, Register.
  rewrite lookup_insert_eq. simpl.
  pose proof (InvoiceRepo_Execute_accepts rt rand invoices (Operation req)
                (Input req)) as Haccepts.
  destruct (InvoiceRepo_Execute rt rand invoices (Operation req) (Input req)).1
    as [out|msg]; eexists; (split; [done|]); simpl;
    rewrite <- Haccepts.
  - split; [by left|]. split; [by eexists|done].
  - split; [by right|]. split; [done|by intros [? [=]]].
Qed.

Lemma executed_iff_invoice_accepts_witness :
  DryRun (Examples.live "") = false
  ∧ ∀ rt rand,
      ∃ resp,
        (Evaluate rt
           {| contract := Some (Examples.flag_contract "r1");
              contractETag := "etag-1";
              ports := registry_ports rt
                         (main_registry rt rand NewCustomerRepo NewInvoiceRepo
                            NewPaymentProcessor) |}
           Examples.in_order (Examples.live "")).1 = Ok resp
        ∧ (Outcome resp = "executed" ∨ Outcome resp = "system_error").
Proof.
  split; [reflexivity|]. intros rt rand.
  destruct (executed_iff_invoice_accepts rt
           {| contract := Some (Examples.flag_contract "r1");
              contractETag := "etag-1";
              ports := registry_ports rt
                         (main_registry rt rand NewCustomerRepo NewInvoiceRepo
                            NewPaymentProcessor) |}
           Examples.in_order (Examples.live "") (Examples.flag_contract "r1")
           {| ConstrainedBy := ["r1"]; Transitions := [] |} ∅ ∅ [] rand
           NewCustomerRepo NewInvoiceRepo NewPaymentProcessor
           eq_refl eq_refl (or_introl eq_refl) eq_refl eq_refl eq_refl eq_refl
           ltac:(intros v Hv; vm_compute in Hv; injection Hv as <-; by split))
    as (resp & Hresp & Hout & _).
  by exists resp.
Defined.

(** ** What rule evaluation reads *)

(** Induction on a condition tree, through its all, any and not parts. *)
Lemma Condition_tree_ind (P : Condition → Prop) :
  (∀ alls anys not fact eq gt lt in_,
     Forall P alls → Forall P anys → (∀ sub, not = Some sub → P sub) →
     P (mkCondition alls anys not fact eq gt lt in_)) →
  ∀ cond, P cond.
Proof.
  intros Hstep. fix IH 1. intros [alls anys not fact eq gt lt in_].
  apply Hstep.
  - induction alls as [|sub alls IHall]; constructor; [apply IH|apply IHall].
  - induction anys as [|sub anys IHany]; constructor; [apply IH|apply IHany].
  - destruct not as [sub|]; [|by intros ? [=]].
    pose proof (IH sub) as Hsub. intros s [= <-]. exact Hsub.
Qed.

(** A condition reads the fact set only at the paths
    [collectFromCondition] names. *)
Lemma evalCondition_frame rt (cond : Condition) (facts1 facts2 : FactSet) :
  (∀ path, path ∈ collectFromCondition cond →
     (GetPath facts1 path).1 = (GetPath facts2 path).1) →
  evalCondition rt cond facts1 = evalCondition rt cond facts2.
Proof.
  induction cond as [alls anys not fact eq gt lt in_ IHall IHany IHnot]
    using Condition_tree_ind.
  intros Hagree.
  assert (∀ subs, Forall (λ sub, (∀ path, path ∈ collectFromCondition sub →
                       (GetPath facts1 path).1 = (GetPath facts2 path).1) →
                     evalCondition rt sub facts1 = evalCondition rt sub facts2)
                    subs →
            (∀ path, path ∈ flat_map collectFromCondition subs →
               (GetPath facts1 path).1 = (GetPath facts2 path).1) →
            map (λ sub, evalCondition rt sub facts1) subs
            = map (λ sub, evalCondition rt sub facts2) subs) as Hsubs.
  { intros subs Hall Hpaths. induction Hall as [|sub subs Hsub _ IH]; [done|].
    simpl. f_equal.
    - apply Hsub. intros path Hpath. apply Hpaths. simpl.
      apply elem_of_app. by left.
    - apply IH. intros path Hpath. apply Hpaths. simpl.
      apply elem_of_app. by right. }
  assert (∀ (f g : Condition → bool) subs,
            map f subs = map g subs →
            forallb f subs = forallb g subs ∧ existsb f subs = existsb g subs)
    as Hmap.
  { intros f g subs. induction subs as [|sub subs IH]; [done|].
    simpl. intros [= -> Hrest]. destruct (IH Hrest) as [-> ->]. done. }
  simpl in Hagree.
  assert (map (λ sub, evalCondition rt sub facts1) alls
          = map (λ sub, evalCondition rt sub facts2) alls) as Hall.
  { apply Hsubs; [done|]. intros path Hpath. apply Hagree.
    rewrite !elem_of_app. right. by left. }
  assert (map (λ sub, evalCondition rt sub facts1) anys
          = map (λ sub, evalCondition rt sub facts2) anys) as Hany.
  { apply Hsubs; [done|]. intros path Hpath. apply Hagree.
    rewrite !elem_of_app. right. right. by left. }
  destruct alls as [|sub alls].
  2:{ change (forallb (λ s, evalCondition rt s facts1) (sub :: alls)
              = forallb (λ s, evalCondition rt s facts2) (sub :: alls)).
      by apply Hmap. }
  destruct anys as [|sub anys].
  2:{ change (existsb (λ s, evalCondition rt s facts1) (sub :: anys)
              = existsb (λ s, evalCondition rt s facts2) (sub :: anys)).
      by apply Hmap. }
  destruct not as [sub|].
  { simpl. f_equal. apply (IHnot sub eq_refl). intros path Hpath.
    apply Hagree. rewrite !elem_of_app. by do 3 right. }
  simpl. destruct (String.eqb_spec fact "") as [->|Hfact]; [done|].
  simpl. rewrite (Hagree fact); [done|].
  simpl. apply list_elem_of_here.
Qed.

(** X20: the verdicts of an operation depend on the fact set only through
    the paths that occur in the conditions of the rules the operation is
    constrained by: two fact sets that give the same value at each of
    these paths give the same verdicts, in the same order. *)
Theorem evaluateRules_reads_collected rt (c : Contract) (operation : string)
    (facts1 facts2 : FactSet) :
  (∀ rule path,
     rule ∈ Rules c →
     ID rule ∈ ConstrainedBy (lookup_operation c operation) →
     path ∈ collectFromCondition (When rule) →
     (GetPath facts1 path).1 = (GetPath facts2 path).1) →
  evaluateRules rt c operation facts1 = evaluateRules rt c operation facts2.
Proof.
  intros Hagree. unfold evaluateRules.
  induction (Rules c) as [|rule rules IH]; [done|].
  simpl. f_equal.
  - destruct (decide (ID rule ∈ _)) as [Hin|]; [|done].
    rewrite (evalCondition_frame rt (When rule) facts1 facts2); [done|].
    intros path Hpath. apply (Hagree rule path); [left|set_solver|done].
  - apply IH. intros rule' path Hrule. apply Hagree. by right.
Qed.

Lemma evaluateRules_reads_collected_witness :
  (GetPath (<["user.id" := VString "u1"]> (∅ : FactSet)) "user.id").1
  = VString "u1"
  ∧ ∀ rt,
      evaluateRules rt Examples.ctx_contract "ProcessPayment"
        (<["user.id" := VString "u1"]> ∅)
      = evaluateRules rt Examples.ctx_contract "ProcessPayment"
          (<["customer.id" := VString "c"]> (<["user.id" := VString "u1"]> ∅)).
Proof.
  split; [reflexivity|]. intros rt.
  apply (evaluateRules_reads_collected rt Examples.ctx_contract
           "ProcessPayment").
  intros rule path Hrule _ Hpath.
  apply list_elem_of_singleton in Hrule. subst rule.
  apply list_elem_of_singleton in Hpath. subst path.
  reflexivity.
Defined.
